(** * Event delivery and network bookkeeping of fabric-network

    A shallow embedding of two source files:

    - the event-service stub ([StubTransactionEventListener] and
      [StubEventService]), whose listener set is a JavaScript [Set]
      that listeners mutate while it is being iterated;
    - [Network] from [fabric-network/src/network.js]: discovery target
      selection, the contract cache and the commit-listener map.

    JavaScript objects are compared by identity, so every object that
    is stored in a [Set] or used as a [Map] key carries a number that
    stands for its address. *)

From stdpp Require Import base option list strings gmap.

(** ** JavaScript completions *)

(** A call either returns, throws, or (for the iteration, which a
    callback can keep extending) is still running when the step budget
    is used up. *)
Inductive Completion (A : Type) : Type :=
| Normal (v : A)
| Abrupt (e : string)
| Unfinished.

Arguments Normal {A} v.
Arguments Abrupt {A} e.
Arguments Unfinished {A}.

Module EventStub.

(** *** Data *)

Definition Error := string.

Record EventInfo := {
  ev_transactionId : option string;
  ev_blockNumber : nat
}.

Record EventRegistrationOptions := {
  unregister : option bool
}.

(** A callback is a JavaScript function; it is known by its identity. *)
Definition EventCallback := nat.

Record StubTransactionEventListener := {
  lid : nat;
  transactionId : string;
  callback : EventCallback;
  options : EventRegistrationOptions
}.

(** What a callback can do to the service it was registered with: call
    [registerTransactionListener], call [unregisterEventListener] on a
    handle, throw. An exception of [unregisterEventListener] inside a
    callback is not caught. Callbacks that send events themselves are
    outside the model. *)
Inductive Action :=
| DoRegister (txid : string) (cb : EventCallback)
             (opts : EventRegistrationOptions)
| DoUnregister (handle : nat)
| DoThrow (e : Error).

(** Observations, recorded in call order. They are not part of the
    source; they make "was invoked", "how often" and "before" statable. *)
Inductive Obs :=
| ObsOnEvent (l : nat) (error : option Error) (event : option EventInfo)
| ObsCallback (l : nat) (cb : EventCallback)
              (error : option Error) (event : option EventInfo)
| ObsUnregister (l : nat)
| ObsRegister (l : nat).

#[global] Instance EventInfo_eq_dec : EqDecision EventInfo.
Proof. solve_decision. Defined.

#[global] Instance Obs_eq_dec : EqDecision Obs.
Proof. solve_decision. Defined.

(** [eventListeners] is the [[SetData]] list of the [Set]: [delete]
    leaves an empty slot behind, [add] appends, and [forEach] walks the
    list by index while it changes. *)
Record StubEventService := {
  name : string;
  eventListeners : list (option StubTransactionEventListener);
  nextObject : nat;
  trace : list Obs
}.

Definition new_StubEventService (n : string) : StubEventService :=
  {| name := n; eventListeners := []; nextObject := 0; trace := [] |}.

Definition holds (h : nat) (slot : option StubTransactionEventListener) : Prop :=
  match slot with
  | Some l => lid l = h
  | None => False
  end.

#[global] Instance holds_dec h slot : Decision (holds h slot).
Proof. destruct slot; simpl; apply _. Defined.

(** [Set.prototype.has] *)
Definition set_has (h : nat) (data : list (option StubTransactionEventListener)) : bool :=
  bool_decide (is_Some (list_find (holds h) data)).

(** [Set.prototype.delete]: the first slot that holds the value
    becomes empty; the result says whether there was one. *)
Definition set_delete (h : nat) (data : list (option StubTransactionEventListener))
  : bool * list (option StubTransactionEventListener) :=
  match list_find (holds h) data with
  | Some (i, _) => (true, <[i := None]> data)
  | None => (false, data)
  end.

(** [Set.prototype.add] *)
Definition set_add (l : StubTransactionEventListener)
    (data : list (option StubTransactionEventListener))
  : list (option StubTransactionEventListener) :=
  if set_has (lid l) data then data else data ++ [Some l].

Definition log (o : Obs) (s : StubEventService) : StubEventService :=
  {| name := name s; eventListeners := eventListeners s;
     nextObject := nextObject s; trace := trace s ++ [o] |}.

Definition not_registered : Error :=
  "unregisterEventLister called for listener that is not registered".

Definition undefined_event : Error :=
  "TypeError: Cannot read properties of undefined (reading 'transactionId')".

(** *** StubEventService.unregisterEventListener

    The method returns [this]; the service after the call is the second
    component of the result. *)
Definition unregisterEventListener (h : nat) (s : StubEventService)
  : Completion unit * StubEventService :=
  let '(removed, data) := set_delete h (eventListeners s) in
  if removed
  then (Normal tt,
        log (ObsUnregister h)
          {| name := name s; eventListeners := data;
             nextObject := nextObject s; trace := trace s |})
  else (Abrupt not_registered, s).

(** *** StubEventService.registerTransactionListener *)
Definition registerTransactionListener (txid : string) (cb : EventCallback)
    (opts : EventRegistrationOptions) (s : StubEventService)
  : StubTransactionEventListener * StubEventService :=
  let listener := {| lid := nextObject s; transactionId := txid;
                     callback := cb; options := opts |} in
  (listener,
   log (ObsRegister (lid listener))
     {| name := name s;
        eventListeners := set_add listener (eventListeners s);
        nextObject := S (nextObject s); trace := trace s |}).

(** The body of a callback, statement by statement; an exception ends it. *)
Fixpoint run_actions (acts : list Action) (s : StubEventService)
  : Completion unit * StubEventService :=
  match acts with
  | [] => (Normal tt, s)
  | DoRegister txid cb opts :: rest =>
      run_actions rest (registerTransactionListener txid cb opts s).2
  | DoUnregister h :: rest =>
      match unregisterEventListener h s with
      | (Normal _, s') => run_actions rest s'
      | r => r
      end
  | DoThrow e :: _ => (Abrupt e, s)
  end.

Section Dispatch.

(** What each callback does when called with [(error, event)] on the
    service as it is at that moment. *)
Variable behaviour :
  EventCallback → option Error → option EventInfo → StubEventService → list Action.

(** [error || event.transactionId === this.transactionId] *)
Definition condition (l : StubTransactionEventListener)
    (error : option Error) (event : option EventInfo) : Completion bool :=
  match error, event with
  | Some _, _ => Normal true
  | None, Some ev =>
      Normal (bool_decide (ev_transactionId ev = Some (transactionId l)))
  | None, None => Abrupt undefined_event
  end.

(** [options.unregister !== false] *)
Definition one_shot (l : StubTransactionEventListener) : bool :=
  match unregister (options l) with
  | Some false => false
  | _ => true
  end.

Definition invoke_callback (l : StubTransactionEventListener)
    (error : option Error) (event : option EventInfo) (s : StubEventService)
  : Completion unit * StubEventService :=
  let s1 := log (ObsCallback (lid l) (callback l) error event) s in
  run_actions (behaviour (callback l) error event s1) s1.

(** *** StubTransactionEventListener.onEvent *)
Definition onEvent (l : StubTransactionEventListener)
    (error : option Error) (event : option EventInfo) (s : StubEventService)
  : Completion unit * StubEventService :=
  let s0 := log (ObsOnEvent (lid l) error event) s in
  match condition l error event with
  | Normal true =>
      if one_shot l then
        match unregisterEventListener (lid l) s0 with
        | (Normal _, s1) => invoke_callback l error event s1
        | r => r
        end
      else invoke_callback l error event s0
  | Normal false => (Normal tt, s0)
  | Abrupt e => (Abrupt e, s0)
  | Unfinished => (Unfinished, s0)
  end.

(** [Set.prototype.forEach]: the walk reads the list again at every
    index, skips empty slots and ends at the current end of the list. *)
Fixpoint forEach (fuel index : nat) (error : option Error)
    (event : option EventInfo) (s : StubEventService)
  : Completion unit * StubEventService :=
  match fuel with
  | 0 => (Unfinished, s)
  | S fuel' =>
      match eventListeners s !! index with
      | None => (Normal tt, s)
      | Some None => forEach fuel' (S index) error event s
      | Some (Some l) =>
          match onEvent l error event s with
          | (Normal _, s') => forEach fuel' (S index) error event s'
          | r => r
          end
      end
  end.

(** *** StubEventService.sendEvent *)
Definition sendEvent (fuel : nat) (event : EventInfo) (s : StubEventService)
  : Completion unit * StubEventService :=
  forEach fuel 0 None (Some event) s.

(** *** StubEventService.sendError *)
Definition sendError (fuel : nat) (error : Error) (s : StubEventService)
  : Completion unit * StubEventService :=
  forEach fuel 0 (Some error) None s.

(** A burst: errors delivered one after the other. A delivery that
    throws does not stop the next one. *)
Fixpoint sendErrors (fuel : nat) (errors : list Error) (s : StubEventService)
  : StubEventService :=
  match errors with
  | [] => s
  | e :: rest => sendErrors fuel rest (sendError fuel e s).2
  end.

End Dispatch.

(** *** Vocabulary of the statements *)

(** The listener with identity [h] is a member of the set. *)
Definition registered (h : nat) (s : StubEventService) : Prop :=
  Exists (holds h) (eventListeners s).

#[global] Instance registered_dec h s : Decision (registered h s).
Proof. unfold registered. apply _. Defined.

(** What was observed between [s] and a later state [s']. *)
Definition since (s s' : StubEventService) : list Obs :=
  drop (length (trace s)) (trace s').

Definition is_delivery (h : nat) (o : Obs) : Prop :=
  match o with ObsOnEvent l _ _ => l = h | _ => False end.

Definition is_invocation (h : nat) (o : Obs) : Prop :=
  match o with ObsCallback l _ _ _ => l = h | _ => False end.

Definition is_unregistration (h : nat) (o : Obs) : Prop :=
  match o with ObsUnregister l => l = h | _ => False end.

#[global] Instance is_delivery_dec h o : Decision (is_delivery h o).
Proof. destruct o; simpl; apply _. Defined.

#[global] Instance is_invocation_dec h o : Decision (is_invocation h o).
Proof. destruct o; simpl; apply _. Defined.

#[global] Instance is_unregistration_dec h o : Decision (is_unregistration h o).
Proof. destruct o; simpl; apply _. Defined.

(** How often [onEvent] was called on [h], how often its callback was
    called, and how often it was removed from the set. *)
Definition deliveries (h : nat) (t : list Obs) : nat :=
  length (filter (is_delivery h) t).

Definition invocations (h : nat) (t : list Obs) : nat :=
  length (filter (is_invocation h) t).

Definition unregistrations (h : nat) (t : list Obs) : nat :=
  length (filter (is_unregistration h) t).

(** The set holds no object twice, and every member was allocated. *)
Definition wf (s : StubEventService) : Prop :=
  (∀ i j l l', eventListeners s !! i = Some (Some l) →
               eventListeners s !! j = Some (Some l') →
               lid l = lid l' → i = j) ∧
  (∀ i l, eventListeners s !! i = Some (Some l) → lid l < nextObject s).

(** No [onEvent] call on a listener after its removal. *)
Definition ordered (t : list Obs) : Prop :=
  ∀ t1 t2 h, t = t1 ++ ObsUnregister h :: t2 →
             ∀ o, o ∈ t2 → ¬ is_delivery h o.

(** The invariant of a service and its history: it holds of a new
    service and every operation keeps it. *)
Definition sound (s : StubEventService) : Prop :=
  wf s ∧
  (∀ h, ObsUnregister h ∈ trace s → ¬ registered h s ∧ h < nextObject s) ∧
  ordered (trace s).

(** Observations that only a change of the set leaves behind. *)
Definition set_obs (o : Obs) : Prop :=
  match o with
  | ObsUnregister _ | ObsRegister _ => True
  | _ => False
  end.

(** The condition of [onEvent], as a truth value. *)
Definition matches (l : StubTransactionEventListener)
    (error : option Error) (event : option EventInfo) : bool :=
  match condition l error event with
  | Normal true => true
  | _ => false
  end.

(** How a service can change while [t] is observed: slots are only ever
    emptied or appended, identities are never reused, a removed
    listener stays out, and [onEvent] is only called on members. *)
Record evolves (s s' : StubEventService) (t : list Obs) : Prop := {
  ev_trace : trace s' = trace s ++ t;
  ev_next : nextObject s ≤ nextObject s';
  ev_old : ∀ i l, eventListeners s !! i = Some (Some l) →
      eventListeners s' !! i = Some (Some l) ∨
      (eventListeners s' !! i = Some None ∧ ObsUnregister (lid l) ∈ t);
  ev_empty : ∀ i, eventListeners s !! i = Some None →
      eventListeners s' !! i = Some None;
  ev_new : ∀ i l, eventListeners s' !! i = Some (Some l) →
      eventListeners s !! i = Some (Some l) ∨
      (eventListeners s !! i = None ∧ nextObject s ≤ lid l);
  ev_wf : wf s';
  ev_unreg_once : ∀ h, unregistrations h t ≤ 1;
  ev_unreg_out : ∀ h, ObsUnregister h ∈ t →
      ¬ registered h s' ∧ h < nextObject s';
  ev_unreg_in : ∀ h, ObsUnregister h ∈ t →
      registered h s ∨ nextObject s ≤ h;
  ev_deliv : ∀ h o, o ∈ t → is_delivery h o →
      registered h s ∨ nextObject s ≤ h;
  ev_ordered : ordered t
}.

(** What one call of [onEvent] leaves in the history. *)
Definition onEvent_obs (l : StubTransactionEventListener)
    (error : option Error) (event : option EventInfo) (ta : list Obs)
  : list Obs :=
  ObsOnEvent (lid l) error event ::
  (if matches l error event
   then (if one_shot l then [ObsUnregister (lid l)] else []) ++
        ObsCallback (lid l) (callback l) error event :: ta
   else []).

(** What a walk that starts at slot [idx] guarantees. *)
Record dispatched (idx : nat) (error : option Error) (event : option EventInfo)
    (s : StubEventService) (c : Completion unit) (s' : StubEventService)
    (t : list Obs) : Prop := {
  d_evolves : evolves s s' t;
  d_once : ∀ h, deliveries h t ≤ 1;
  d_inv_le : ∀ h, invocations h t ≤ deliveries h t;
  d_args : ∀ o, o ∈ t →
      match o with
      | ObsOnEvent _ e v | ObsCallback _ _ e v => e = error ∧ v = event
      | _ => True
      end;
  d_from : ∀ h o, o ∈ t → is_delivery h o →
      (∃ i l, idx ≤ i ∧ eventListeners s !! i = Some (Some l) ∧ lid l = h) ∨
      nextObject s ≤ h;
  d_member : ∀ i l, eventListeners s !! i = Some (Some l) →
      invocations (lid l) t =
        (if matches l error event then deliveries (lid l) t else 0) ∧
      (∀ o, o ∈ t → is_invocation (lid l) o →
            o = ObsCallback (lid l) (callback l) error event) ∧
      (matches l error event = true → one_shot l = true →
       deliveries (lid l) t = 1 → ObsUnregister (lid l) ∈ t);
  d_cover : c = Normal tt →
      ∀ i l, idx ≤ i → eventListeners s !! i = Some (Some l) →
             deliveries (lid l) t = 1 ∨ ObsUnregister (lid l) ∈ t
}.

(** The listeners other than the one in slot [k] have callbacks that do
    nothing when called with these arguments. *)
Definition quiet_others
    (behaviour : EventCallback → option Error → option EventInfo →
                 StubEventService → list Action)
    (k : nat) (error : option Error) (event : option EventInfo)
    (s : StubEventService) : Prop :=
  ∀ j l', eventListeners s !! j = Some (Some l') → j ≠ k →
          ∀ s1, behaviour (callback l') error event s1 = [].

(** No callback ever registers a listener. *)
Definition never_registers
    (behaviour : EventCallback → option Error → option EventInfo →
                 StubEventService → list Action) : Prop :=
  ∀ cb error event s txid cb' opts,
    DoRegister txid cb' opts ∉ behaviour cb error event s.

(** A callback observation carries exactly these arguments. *)
Definition carries (error : option Error) (event : option EventInfo)
    (o : Obs) : Prop :=
  match o with
  | ObsCallback _ _ e v => e = error ∧ v = event
  | _ => True
  end.

(** *** Services and callbacks of the examples *)

Definition default_options : EventRegistrationOptions :=
  {| unregister := None |}.

Definition keep_options : EventRegistrationOptions :=
  {| unregister := Some false |}.

Definition tx1_event : EventInfo :=
  {| ev_transactionId := Some "tx1"; ev_blockNumber := 7 |}.

Definition tx2_event : EventInfo :=
  {| ev_transactionId := Some "tx2"; ev_blockNumber := 8 |}.

(** Two one-shot listeners for the same transaction, with callbacks 0
    and 1, on a new service. *)
Definition two_listeners : StubEventService :=
  (registerTransactionListener "tx1" 1 default_options
     (registerTransactionListener "tx1" 0 default_options
        (new_StubEventService "peer0")).2).2.

(** Callback 0 unregisters the second listener; the others do nothing. *)
Definition first_unregisters_second (cb : EventCallback) (_ : option Error)
    (_ : option EventInfo) (_ : StubEventService) : list Action :=
  match cb with
  | 0 => [DoUnregister 1]
  | _ => []
  end.

(** Callback 0 throws; the others do nothing. *)
Definition first_throws (cb : EventCallback) (_ : option Error)
    (_ : option EventInfo) (_ : StubEventService) : list Action :=
  match cb with
  | 0 => [DoThrow "callback failed"]
  | _ => []
  end.

(** Callback 1 throws; the others do nothing. *)
Definition second_throws (cb : EventCallback) (_ : option Error)
    (_ : option EventInfo) (_ : StubEventService) : list Action :=
  match cb with
  | 1 => [DoThrow "callback failed"]
  | _ => []
  end.

(** One listener that stays registered, for "tx1", with callback 4. *)
Definition persistent_listener : StubEventService :=
  (registerTransactionListener "tx1" 4 keep_options
     (new_StubEventService "peer0")).2.

(** Three listeners on a new service: a one-shot listener for "tx1"
    with callback 0, a one-shot listener for "tx2" with callback 1, and
    a listener for "tx1" that stays registered, with callback 2. *)
Definition three_listeners : StubEventService :=
  (registerTransactionListener "tx1" 2 keep_options
     (registerTransactionListener "tx2" 1 default_options
        (registerTransactionListener "tx1" 0 default_options
           (new_StubEventService "peer0")).2).2).2.

(** No callback does anything. *)
Definition silent (_ : EventCallback) (_ : option Error)
    (_ : option EventInfo) (_ : StubEventService) : list Action := [].

(** *** More vocabulary: whole dispatches *)

Section Bursts.

Variable behaviour :
  EventCallback → option Error → option EventInfo → StubEventService → list Action.

(** Events delivered one after the other, like [sendErrors]. *)
Fixpoint sendEvents (fuel : nat) (events : list EventInfo)
    (s : StubEventService) : StubEventService :=
  match events with
  | [] => s
  | e :: rest => sendEvents fuel rest (sendEvent behaviour fuel e s).2
  end.

(** Every callback that these arguments would call does nothing. *)
Definition quiet_all (error : option Error) (event : option EventInfo)
    (s : StubEventService) : Prop :=
  ∀ j l, eventListeners s !! j = Some (Some l) →
         matches l error event = true →
         ∀ s1, behaviour (callback l) error event s1 = [].

(** Called with this event, callback [cb] registers one more listener
    with default options for the event's transaction, again with [cb]. *)
Definition respawns (cb : EventCallback) (event : EventInfo) : Prop :=
  ∃ txid, ev_transactionId event = Some txid ∧
          ∀ s, behaviour cb None (Some event) s =
               [DoRegister txid cb {| unregister := None |}].

End Bursts.

(** Callback 6 registers one more listener for "tx1" with callback 6;
    the others do nothing. *)
Definition respawning (cb : EventCallback) (_ : option Error)
    (_ : option EventInfo) (_ : StubEventService) : list Action :=
  match cb with
  | 6 => [DoRegister "tx1" 6 {| unregister := None |}]
  | _ => []
  end.

(** One listener for "tx1" with callback 6. *)
Definition respawning_listener : StubEventService :=
  (registerTransactionListener "tx1" 6 {| unregister := None |}
     (new_StubEventService "peer0")).2.

(** What a dispatch with callbacks that do nothing leaves in the
    history: the calls on the members, in the order of the slots. *)
Definition quiet_history (error : option Error) (event : option EventInfo)
    (data : list (option StubTransactionEventListener)) : list Obs :=
  data ≫= λ slot,
    match slot with
    | Some l => onEvent_obs l error event []
    | None => []
    end.

(** What such a dispatch leaves of a slot: a one-shot listener that
    matches is gone. *)
Definition sweep (error : option Error) (event : option EventInfo)
    (slot : option StubTransactionEventListener)
  : option StubTransactionEventListener :=
  match slot with
  | Some l => if matches l error event && one_shot l then None else Some l
  | None => None
  end.

End EventStub.

Module Network.

(** *** Data *)

Record Endorser := {
  name : string;
  mspid : string;
  endpoint : string;
  connected : bool
}.

Record Discoverer := {
  discoverer_name : string;
  discoverer_mspid : string
}.

(** [options.targets] as the code tests it: a falsy value, a truthy
    value that is not an array, or an array. *)
Inductive TargetsOption :=
| NoTargets
| NotAnArray
| TargetArray (peers : list Endorser).

Record DiscoveryOptions := {
  enabled : bool;
  targets : TargetsOption;
  asLocalhost : bool
}.

Record Contract := {
  contract_id : nat;
  chaincodeId : string;
  namespace : string;
  collections : option (list string)
}.

(** A commit listener is a callback function, known by its identity. *)
Definition CommitListener := nat.

Record CommitListenerSession := {
  session_id : nat;
  listener : CommitListener;
  peers : list Endorser;
  transactionId : string
}.

(** Calls on collaborators and object creations, in call order. *)
Inductive Call :=
| CallGetIdentity
| CallChannelGetEndorsers (mspId : string)
| CallClientGetEndorsers (mspId : option string)
| CallNewDiscoverer (peer_name peer_mspid : string)
| CallConnect (peer_endpoint : string)
| CallNewDiscoveryService (channel : string)
| CallBuild
| CallSign
| CallSend (as_localhost : bool) (discoverers : list Discoverer)
| CallQueryStrategy
| NewContract (c : Contract)
| NewSession (session : CommitListenerSession)
| SessionStart (session : nat)
| SessionClose (session : nat).

(** [discoverer.connect] and [discoveryService.send] are the calls that
    reach a peer. *)
Definition network_call (c : Call) : bool :=
  match c with
  | CallConnect _ | CallSend _ _ => true
  | _ => false
  end.

(** What [session.start()] does as far as the network can see: events
    fired while it runs may make the application remove the listener,
    and the promise may reject. *)
Record StartOutcome := {
  removes_listener : bool;
  start_error : option string
}.

(** The collaborators of a network: the gateway's identity, the channel
    and its client, the discoverers and the commit-listener sessions. *)
Record Collaborators := {
  identity_mspId : string;
  channel_name : string;
  channel_getEndorsers : string → option (list Endorser);
  client_getEndorsers : option string → option (list Endorser);
  connect : string → option string;
  send : list Discoverer → option string;
  start : CommitListenerSession → StartOutcome
}.

Record Network := {
  contracts : gmap string Contract;
  initialized : bool;
  discoveryService : option string;
  queryHandler : bool;
  eventServiceManager : bool;
  commitListeners : gmap CommitListener CommitListenerSession;
  nextObject : nat;
  calls : list Call
}.

(** The constructor. *)
Definition new_Network : Network :=
  {| contracts := ∅; initialized := false; discoveryService := None;
     queryHandler := false; eventServiceManager := false;
     commitListeners := ∅; nextObject := 0; calls := [] |}.

Definition record (cs : list Call) (n : Network) : Network :=
  {| contracts := contracts n; initialized := initialized n;
     discoveryService := discoveryService n;
     queryHandler := queryHandler n;
     eventServiceManager := eventServiceManager n;
     commitListeners := commitListeners n; nextObject := nextObject n;
     calls := calls n ++ cs |}.

Definition set_discoveryService (d : option string) (n : Network) : Network :=
  {| contracts := contracts n; initialized := initialized n;
     discoveryService := d;
     queryHandler := queryHandler n;
     eventServiceManager := eventServiceManager n;
     commitListeners := commitListeners n; nextObject := nextObject n;
     calls := calls n |}.

Definition set_contracts (m : gmap string Contract) (n : Network) : Network :=
  {| contracts := m; initialized := initialized n;
     discoveryService := discoveryService n;
     queryHandler := queryHandler n;
     eventServiceManager := eventServiceManager n;
     commitListeners := commitListeners n; nextObject := nextObject n;
     calls := calls n |}.

Definition set_commitListeners
    (m : gmap CommitListener CommitListenerSession) (n : Network) : Network :=
  {| contracts := contracts n; initialized := initialized n;
     discoveryService := discoveryService n;
     queryHandler := queryHandler n;
     eventServiceManager := eventServiceManager n;
     commitListeners := m; nextObject := nextObject n;
     calls := calls n |}.

Definition allocate (n : Network) : Network :=
  {| contracts := contracts n; initialized := initialized n;
     discoveryService := discoveryService n;
     queryHandler := queryHandler n;
     eventServiceManager := eventServiceManager n;
     commitListeners := commitListeners n; nextObject := S (nextObject n);
     calls := calls n |}.

Definition not_connected (peer_name : string) : string :=
  "Endorser instance " +:+ peer_name +:+ " is not connected to an endpoint".

Definition no_targets : string := "No discovery targets found".

Definition not_initialized : string :=
  "Unable to get contract as this network has failed to initialize".

(** [!targets || targets.length < 1] *)
Definition missing (found : option (list Endorser)) : bool :=
  match found with
  | None | Some [] => true
  | Some (_ :: _) => false
  end.

(** The loop over [options.targets]: the first target that is not
    connected ends it with an exception. *)
Fixpoint check_connected (supplied : list Endorser) : Completion unit :=
  match supplied with
  | [] => Normal tt
  | target :: rest =>
      if connected target then check_connected rest
      else Abrupt (not_connected (name target))
  end.

Section WithCollaborators.

Variable env : Collaborators.

(** The loop that creates and connects one discoverer per target. *)
Fixpoint connect_all (found : list Endorser) (discoverers : list Discoverer)
    (n : Network) : Completion (list Discoverer) * Network :=
  match found with
  | [] => (Normal discoverers, n)
  | peer :: rest =>
      let n1 := record [CallNewDiscoverer (name peer) (mspid peer);
                        CallConnect (endpoint peer)] n in
      match connect env (endpoint peer) with
      | Some e => (Abrupt e, n1)
      | None =>
          connect_all rest
            (discoverers ++ [{| discoverer_name := name peer;
                                discoverer_mspid := mspid peer |}]) n1
      end
  end.

(** Target selection when the caller gave none: the channel's endorsers
    of the identity's organisation, then the client's, then any. *)
Definition known_targets (n : Network)
  : option (list Endorser) * Network :=
  let mspId := identity_mspId env in
  let n1 := record [CallGetIdentity; CallChannelGetEndorsers mspId] n in
  let found := channel_getEndorsers env mspId in
  let '(found, n2) :=
    if missing found
    then (client_getEndorsers env (Some mspId),
          record [CallClientGetEndorsers (Some mspId)] n1)
    else (found, n1) in
  if missing found
  then (client_getEndorsers env None,
        record [CallClientGetEndorsers None] n2)
  else (found, n2).

(** The first half of [_initializeInternalChannel]: the targets that
    discovery will use. Supplied targets are checked and used as they
    are; without them the known endorsers are looked up. *)
Definition select_targets (opts : DiscoveryOptions) (n : Network)
  : Completion (list Endorser) * Network :=
  match targets opts with
  | TargetArray (t :: ts) =>
      match check_connected (t :: ts) with
      | Normal _ => (Normal (t :: ts), n)
      | Abrupt e => (Abrupt e, n)
      | Unfinished => (Unfinished, n)
      end
  | TargetArray [] | NotAnArray => (Abrupt no_targets, n)
  | NoTargets =>
      let '(found, n') := known_targets n in
      if missing found then (Abrupt no_targets, n')
      else (Normal (default [] found), n')
  end.

(** *** Network._initializeInternalChannel *)
Definition _initializeInternalChannel (opts : DiscoveryOptions) (n : Network)
  : Completion unit * Network :=
  if enabled opts then
    match select_targets opts n with
    | (Normal found, n1) =>
        match connect_all found [] n1 with
        | (Normal discoverers, n2) =>
            let n3 :=
              record [CallNewDiscoveryService (channel_name env);
                      CallBuild; CallSign;
                      CallSend (asLocalhost opts) discoverers]
                (set_discoveryService (Some (channel_name env)) n2) in
            match send env discoverers with
            | Some e => (Abrupt e, n3)
            | None => (Normal tt, n3)
            end
        | (Abrupt e, n2) => (Abrupt e, n2)
        | (Unfinished, n2) => (Unfinished, n2)
        end
    | (Abrupt e, n1) => (Abrupt e, n1)
    | (Unfinished, n1) => (Unfinished, n1)
    end
  else (Normal tt, set_discoveryService None n).

(** *** Network._initialize *)
Definition _initialize (discover : DiscoveryOptions) (n : Network)
  : Completion unit * Network :=
  if initialized n then (Normal tt, n)
  else
    match _initializeInternalChannel discover n with
    | (Normal _, n1) =>
        (Normal tt,
         record [CallQueryStrategy]
           {| contracts := contracts n1; initialized := true;
              discoveryService := discoveryService n1;
              queryHandler := true; eventServiceManager := true;
              commitListeners := commitListeners n1;
              nextObject := nextObject n1; calls := calls n1 |})
    | r => r
    end.

(** [`${chaincodeId}:${name}`] *)
Definition contract_key (chaincode contract_name : string) : string :=
  chaincode +:+ ":" +:+ contract_name.

(** *** Network.getContract; a missing [name] defaults to [''] *)
Definition getContract (chaincode : string) (contract_name : option string)
    (colls : option (list string)) (n : Network)
  : Completion Contract * Network :=
  let contract_name := default "" contract_name in
  if initialized n then
    let key := contract_key chaincode contract_name in
    match contracts n !! key with
    | Some contract => (Normal contract, n)
    | None =>
        let contract := {| contract_id := nextObject n;
                           chaincodeId := chaincode;
                           namespace := contract_name;
                           collections := colls |} in
        (Normal contract,
         record [NewContract contract]
           (set_contracts (<[key := contract]> (contracts n)) (allocate n)))
    end
  else (Abrupt not_initialized, n).

(** *** Network.removeCommitListener *)
Definition removeCommitListener (l : CommitListener) (n : Network) : Network :=
  match commitListeners n !! l with
  | Some session =>
      set_commitListeners (delete l (commitListeners n))
        (record [SessionClose (session_id session)] n)
  | None => n
  end.

(** *** Network.addCommitListener *)
Definition addCommitListener (l : CommitListener) (targets : list Endorser)
    (txid : string) (n : Network) : Completion CommitListener * Network :=
  match commitListeners n !! l with
  | Some _ => (Normal l, n)
  | None =>
      let session := {| session_id := nextObject n; listener := l;
                        peers := targets; transactionId := txid |} in
      let n1 := set_commitListeners (<[l := session]> (commitListeners n))
                  (record [NewSession session] (allocate n)) in
      let n2 := record [SessionStart (session_id session)] n1 in
      let outcome := start env session in
      let n3 := if removes_listener outcome
                then removeCommitListener l n2 else n2 in
      match start_error outcome with
      | Some e => (Abrupt e, n3)
      | None => (Normal l, n3)
      end
  end.

End WithCollaborators.

(** *** Vocabulary of the statements *)

(** A session that was created and that the network has not closed. *)
Definition open_session (n : Network) (session : CommitListenerSession) : Prop :=
  NewSession session ∈ calls n ∧ SessionClose (session_id session) ∉ calls n.

(** The invariant of the commit-listener map: sessions are distinct
    objects, the map holds exactly the open sessions, each under its
    own callback. *)
Definition consistent (n : Network) : Prop :=
  (∀ session, NewSession session ∈ calls n →
              session_id session < nextObject n) ∧
  (∀ sid, SessionClose sid ∈ calls n → sid < nextObject n) ∧
  (∀ s1 s2, NewSession s1 ∈ calls n → NewSession s2 ∈ calls n →
            session_id s1 = session_id s2 → s1 = s2) ∧
  (∀ cb session, commitListeners n !! cb = Some session →
                 listener session = cb ∧ open_session n session) ∧
  (∀ session, open_session n session →
              commitListeners n !! listener session = Some session).

(** A call that neither creates nor closes a session. *)
Definition other_call (c : Call) : Prop :=
  match c with
  | NewSession _ | SessionClose _ => False
  | _ => True
  end.

#[global] Instance other_call_dec c : Decision (other_call c).
Proof. destruct c; simpl; apply _. Defined.

(** A step of the network that touches no session. *)
Definition session_free (n n' : Network) : Prop :=
  ∃ cs, Forall other_call cs ∧ calls n' = calls n ++ cs ∧
        commitListeners n' = commitListeners n ∧
        nextObject n ≤ nextObject n'.

(** The string has no colon in it. *)
Fixpoint no_colon (s : string) : Prop :=
  match s with
  | EmptyString => True
  | String a rest => String a EmptyString ≠ ":" ∧ no_colon rest
  end.

(** The discoverer that [_initializeInternalChannel] creates for a
    peer, and the calls it makes for it. *)
Definition discoverer_of (peer : Endorser) : Discoverer :=
  {| discoverer_name := name peer; discoverer_mspid := mspid peer |}.

Definition connection_calls (peer : Endorser) : list Call :=
  [CallNewDiscoverer (name peer) (mspid peer); CallConnect (endpoint peer)].

(** The contract cache when every chaincode id asked for so far had no
    colon: each contract is stored under the key of its own chaincode
    id and name, and is an allocated object. *)
Definition cache_ok (n : Network) : Prop :=
  ∀ key contract, contracts n !! key = Some contract →
    key = contract_key (chaincodeId contract) (namespace contract) ∧
    no_colon (chaincodeId contract) ∧
    contract_id contract < nextObject n.

(** *** Networks and collaborators of the examples *)

Definition peer1 : Endorser :=
  {| name := "peer1.org1"; mspid := "Org1MSP";
     endpoint := "grpcs://peer1.org1:7051"; connected := true |}.

Definition peer2 : Endorser :=
  {| name := "peer2.org1"; mspid := "Org1MSP";
     endpoint := "grpcs://peer2.org1:7051"; connected := false |}.

Definition peer3 : Endorser :=
  {| name := "peer3.org2"; mspid := "Org2MSP";
     endpoint := "grpcs://peer3.org2:7051"; connected := true |}.

(** The channel knows no endorser; the client knows one of another
    organisation. *)
Definition lonely : Collaborators :=
  {| identity_mspId := "Org1MSP";
     channel_name := "mychannel";
     channel_getEndorsers := λ _, Some [];
     client_getEndorsers :=
       λ mspId, match mspId with Some _ => None | None => Some [peer3] end;
     connect := λ _, None;
     send := λ _, None;
     start := λ _, {| removes_listener := false; start_error := None |} |}.

(** Nobody knows any endorser. *)
Definition deserted : Collaborators :=
  {| identity_mspId := "Org1MSP";
     channel_name := "mychannel";
     channel_getEndorsers := λ _, None;
     client_getEndorsers := λ _, Some [];
     connect := λ _, None;
     send := λ _, None;
     start := λ _, {| removes_listener := false; start_error := None |} |}.

(** Like [lonely], but the connection to peer 3 fails. *)
Definition unreachable : Collaborators :=
  {| identity_mspId := "Org1MSP";
     channel_name := "mychannel";
     channel_getEndorsers := λ _, Some [];
     client_getEndorsers :=
       λ mspId, match mspId with Some _ => None | None => Some [peer3] end;
     connect := λ endpoint,
       if bool_decide (endpoint = "grpcs://peer3.org2:7051")
       then Some "Failed to connect" else None;
     send := λ _, None;
     start := λ _, {| removes_listener := false; start_error := None |} |}.

(** Like [lonely], but every session fails to start. *)
Definition failing_start : Collaborators :=
  {| identity_mspId := "Org1MSP";
     channel_name := "mychannel";
     channel_getEndorsers := λ _, Some [];
     client_getEndorsers :=
       λ mspId, match mspId with Some _ => None | None => Some [peer3] end;
     connect := λ _, None;
     send := λ _, None;
     start := λ _, {| removes_listener := false;
                      start_error := Some "Failed to start" |} |}.

Definition discover (supplied : TargetsOption) : DiscoveryOptions :=
  {| enabled := true; targets := supplied; asLocalhost := false |}.

Definition ready_network : Network :=
  (_initialize lonely (discover NoTargets) new_Network).2.

End Network.

Module Lifecycle.

Import Network.

(** *** Block listeners and disposal

    [Network.listeners] is a [Map] from listener names to listeners; it
    is kept beside the network here, with the calls that are made on
    listeners, on the event-service manager and on the channel.
    [BlockEventListener] is outside the source: its constructor stores
    its arguments, and [register] and [unregister] return or throw as
    the collaborators say. *)

Record EventListenerOptions := {
  replay : option bool;
  filtered : option bool;
  startBlock : option nat;
  endBlock : option nat
}.

(** [{}] *)
Definition no_options : EventListenerOptions :=
  {| replay := None; filtered := None; startBlock := None; endBlock := None |}.

Record BlockEventListener := {
  listener_id : nat;
  block_callback : nat;
  block_options : EventListenerOptions;
  eventService : option string
}.

Inductive ListenerCall :=
| ListenerRegister (l : nat)
| ListenerUnregister (l : nat)
| ManagerDispose
| ChannelClose.

Record ListenerCollaborators := {
  register_error : BlockEventListener → option string;
  unregister_error : BlockEventListener → option string
}.

Record Managed := {
  network : Network;
  listeners : list (nat * BlockEventListener);
  lifecycle : list ListenerCall
}.

Definition manage (n : Network) : Managed :=
  {| network := n; listeners := []; lifecycle := [] |}.

(** [Map.prototype.set]: the value of a key that is there is replaced
    in place, a new key goes to the end. *)
Fixpoint map_set (key : nat) (value : BlockEventListener)
    (m : list (nat * BlockEventListener)) : list (nat * BlockEventListener) :=
  match m with
  | [] => [(key, value)]
  | (k, v) :: rest =>
      if decide (k = key) then (key, value) :: rest
      else (k, v) :: map_set key value rest
  end.

(** *** Network.saveListener *)
Definition saveListener (listenerName : nat) (listener : BlockEventListener)
    (m : Managed) : Managed :=
  {| network := network m;
     listeners := map_set listenerName listener (listeners m);
     lifecycle := lifecycle m |}.

Definition null_manager : string :=
  "TypeError: Cannot read properties of null (reading 'dispose')".

Section WithListeners.

Variable env : ListenerCollaborators.

(** *** Network.addBlockListener

    The listener is saved under itself as name. The map holds the
    object, so the event service that is set after saving is the one
    of the saved listener too. *)
Definition addBlockListener (callback : nat)
    (options : option EventListenerOptions) (service : option string)
    (m : Managed) : Completion BlockEventListener * Managed :=
  let listener := {| listener_id := nextObject (network m);
                     block_callback := callback;
                     block_options := default no_options options;
                     eventService := service |} in
  let m1 := saveListener (listener_id listener) listener
              {| network := allocate (network m);
                 listeners := listeners m; lifecycle := lifecycle m |} in
  let m2 := {| network := network m1; listeners := listeners m1;
               lifecycle := lifecycle m1 ++
                            [ListenerRegister (listener_id listener)] |} in
  match register_error env listener with
  | Some e => (Abrupt e, m2)
  | None => (Normal listener, m2)
  end.

(** [listeners.forEach(listener => listener.unregister())] *)
Fixpoint unregister_all (entries : list (nat * BlockEventListener))
    (made : list ListenerCall) : Completion unit * list ListenerCall :=
  match entries with
  | [] => (Normal tt, made)
  | (_, listener) :: rest =>
      let made1 := made ++ [ListenerUnregister (listener_id listener)] in
      match unregister_error env listener with
      | Some e => (Abrupt e, made1)
      | None => unregister_all rest made1
      end
  end.

(** *** Network._dispose *)
Definition _dispose (m : Managed) : Completion unit * Managed :=
  match unregister_all (listeners m) (lifecycle m) with
  | (Normal _, calls1) =>
      let cleared := set_contracts ∅ (network m) in
      if eventServiceManager (network m) then
        (Normal tt,
         {| network :=
              {| contracts := contracts cleared; initialized := false;
                 discoveryService := discoveryService cleared;
                 queryHandler := queryHandler cleared;
                 eventServiceManager := eventServiceManager cleared;
                 commitListeners := commitListeners cleared;
                 nextObject := nextObject cleared; calls := calls cleared |};
            listeners := listeners m;
            lifecycle := calls1 ++ [ManagerDispose; ChannelClose] |})
      else
        (Abrupt null_manager,
         {| network := cleared; listeners := listeners m;
            lifecycle := calls1 |})
  | (Abrupt e, calls1) =>
      (Abrupt e,
       {| network := network m; listeners := listeners m;
          lifecycle := calls1 |})
  | (Unfinished, calls1) =>
      (Unfinished,
       {| network := network m; listeners := listeners m;
          lifecycle := calls1 |})
  end.

End WithListeners.

(** *** Vocabulary of the statements *)

(** Every name in the map is an allocated object. *)
Definition names_allocated (m : Managed) : Prop :=
  Forall (λ entry, entry.1 < nextObject (network m)) (listeners m).

(** *** Collaborators of the examples *)

Definition obliging : ListenerCollaborators :=
  {| register_error := λ _, None; unregister_error := λ _, None |}.

(** Registering fails for callback 2, unregistering for callback 3. *)
Definition stubborn : ListenerCollaborators :=
  {| register_error := λ l,
       if bool_decide (block_callback l = 2) then Some "Failed to register"
       else None;
     unregister_error := λ l,
       if bool_decide (block_callback l = 3) then Some "Failed to unregister"
       else None |}.

End Lifecycle.

(** ** Facts about the event service *)

Module EventStubProofs.

Import EventStub.

Lemma registered_lookup h s :
  registered h s ↔ ∃ i l, eventListeners s !! i = Some (Some l) ∧ lid l = h.
Proof.
  unfold registered. rewrite Exists_exists. split.
  - intros ([l|] & Hin & Hh); simpl in Hh; [|done].
    apply list_elem_of_lookup in Hin as [i Hi]. eauto.
  - intros (i & l & Hi & Hh). exists (Some l). split; [|done].
    apply list_elem_of_lookup. eauto.
Qed.

Lemma count_app (P : Obs → Prop) `{∀ o, Decision (P o)} (t1 t2 : list Obs) :
  length (filter P (t1 ++ t2)) = length (filter P t1) + length (filter P t2).
Proof. by rewrite filter_app, length_app. Qed.

Lemma count_zero (P : Obs → Prop) `{∀ o, Decision (P o)} (t : list Obs) :
  length (filter P t) = 0 ↔ ∀ o, o ∈ t → ¬ P o.
Proof.
  induction t as [|o t IH]; simpl.
  - split; [intros _ o Ho; inversion Ho | done].
  - rewrite filter_cons. destruct (decide (P o)) as [Hp|Hp]; simpl.
    + split; [done|]. intros Hall. exfalso. apply (Hall o); [left | done].
    + rewrite IH. split.
      * intros Hall o' Ho'. inversion Ho'; subst; [done | by apply Hall].
      * intros Hall o' Ho'. apply Hall. by right.
Qed.

Lemma count_pos (P : Obs → Prop) `{∀ o, Decision (P o)} (t : list Obs) :
  0 < length (filter P t) ↔ ∃ o, o ∈ t ∧ P o.
Proof.
  induction t as [|o t IH]; simpl.
  - split; [lia | intros (o & Ho & _); inversion Ho].
  - rewrite filter_cons. destruct (decide (P o)) as [Hp|Hp]; simpl.
    + split; [|lia]. intros _. exists o. split; [left | done].
    + rewrite IH. split.
      * intros (o' & Ho' & Hp'). exists o'. split; [by right | done].
      * intros (o' & Ho' & Hp'). inversion Ho'; subst; [done | eauto].
Qed.

Lemma unregistrations_pos h t :
  0 < unregistrations h t ↔ ObsUnregister h ∈ t.
Proof.
  unfold unregistrations. rewrite count_pos. split.
  - intros ([] & Ho & Hp); simpl in Hp; try done. by subst.
  - intros Ho. by exists (ObsUnregister h).
Qed.

Lemma since_app s s' t : trace s' = trace s ++ t → since s s' = t.
Proof. intros E. unfold since. rewrite E. apply drop_app_length. Qed.

Lemma evolves_since s s' t : evolves s s' t → since s s' = t.
Proof. intros E. apply since_app, E. Qed.

Lemma ordered_nil : ordered [].
Proof. intros t1 t2 h E. by destruct t1. Qed.

Lemma ordered_cons o t :
  ordered (o :: t) ↔
  ordered t ∧ ∀ h, o = ObsUnregister h → ∀ o', o' ∈ t → ¬ is_delivery h o'.
Proof.
  split.
  - intros Ho. split.
    + intros t1 t2 h E. apply (Ho (o :: t1) t2 h). by rewrite E.
    + intros h -> o' Ho'. by apply (Ho [] t h).
  - intros [Ht Hhead] t1 t2 h E. destruct t1 as [|o1 t1]; simpl in E.
    + inversion E; subst. by apply Hhead.
    + inversion E; subst. by apply (Ht t1 t2 h).
Qed.

Lemma ordered_app t1 t2 :
  ordered (t1 ++ t2) ↔
  ordered t1 ∧ ordered t2 ∧
  ∀ h, ObsUnregister h ∈ t1 → ∀ o, o ∈ t2 → ¬ is_delivery h o.
Proof.
  induction t1 as [|o t1 IH]; simpl.
  - split.
    + intros H. split; [apply ordered_nil|]. split; [done|].
      intros h Hin. inversion Hin.
    + by intros (_ & H & _).
  - rewrite !ordered_cons, IH. split.
    + intros ((H1 & H2 & H3) & Hhead). repeat split; try done.
      * intros h E o' Ho'. apply (Hhead h E). apply elem_of_app. by left.
      * intros h Hin o' Ho'. inversion Hin; subst.
        -- apply (Hhead h eq_refl). apply elem_of_app. by right.
        -- by apply (H3 h).
    + intros ((H1 & Hhead) & H2 & H3). repeat split; try done.
      * intros h Hin. apply H3. by right.
      * intros h E o' Ho'. apply elem_of_app in Ho' as [Ho'|Ho'].
        -- by apply (Hhead h E).
        -- apply (H3 h); [subst; left | done].
Qed.

Lemma ordered_single o : ordered [o].
Proof.
  apply ordered_cons. split; [apply ordered_nil|].
  intros h _ o' Ho'. inversion Ho'.
Qed.

Lemma evolves_refl s : wf s → evolves s s [].
Proof.
  intros Hwf. split.
  - by rewrite app_nil_r.
  - done.
  - intros; by left.
  - done.
  - intros; by left.
  - done.
  - intros h. unfold unregistrations. simpl. lia.
  - intros h Hin. inversion Hin.
  - intros h Hin. inversion Hin.
  - intros h o Hin. inversion Hin.
  - apply ordered_nil.
Qed.

Lemma evolves_length s s' t i :
  evolves s s' t → is_Some (eventListeners s !! i) →
  is_Some (eventListeners s' !! i).
Proof.
  intros E [[l|] Hi].
  - destruct (ev_old _ _ _ E i l Hi) as [H|[H _]]; rewrite H; eauto.
  - rewrite (ev_empty _ _ _ E i Hi). eauto.
Qed.

Lemma evolves_registered s s' t h :
  evolves s s' t → registered h s' → registered h s ∨ nextObject s ≤ h.
Proof.
  intros E. rewrite !registered_lookup. intros (i & l & Hi & <-).
  destruct (ev_new _ _ _ E i l Hi) as [H|[_ H]]; [left; eauto | by right].
Qed.

Lemma evolves_out s s' t h :
  evolves s s' t → ¬ registered h s → h < nextObject s → ¬ registered h s'.
Proof.
  intros E Hn Hlt Hr.
  destruct (evolves_registered _ _ _ _ E Hr); [done | lia].
Qed.

Lemma evolves_trans s s1 s2 t1 t2 :
  evolves s s1 t1 → evolves s1 s2 t2 → evolves s s2 (t1 ++ t2).
Proof.
  intros E1 E2.
  assert (Hclash : ∀ h, ObsUnregister h ∈ t1 →
            ¬ (registered h s1 ∨ nextObject s1 ≤ h)).
  { intros h Hin [Hr|Hge]; destruct (ev_unreg_out _ _ _ E1 h Hin); [done|lia]. }
  split.
  - rewrite (ev_trace _ _ _ E2), (ev_trace _ _ _ E1). by rewrite app_assoc.
  - pose proof (ev_next _ _ _ E1). pose proof (ev_next _ _ _ E2). lia.
  - intros i l Hi.
    destruct (ev_old _ _ _ E1 i l Hi) as [H1|[H1 Hu]].
    + destruct (ev_old _ _ _ E2 i l H1) as [H2|[H2 Hu]]; [by left|].
      right. split; [done|]. apply elem_of_app. by right.
    + right. split; [by apply (ev_empty _ _ _ E2)|].
      apply elem_of_app. by left.
  - intros i Hi. apply (ev_empty _ _ _ E2), (ev_empty _ _ _ E1), Hi.
  - intros i l Hi.
    destruct (ev_new _ _ _ E2 i l Hi) as [H1|[H1 Hge]].
    + destruct (ev_new _ _ _ E1 i l H1) as [H0|[H0 Hge]]; [by left|].
      right. split; [done|]. lia.
    + right. split.
      * destruct (eventListeners s !! i) eqn:E0; [|done].
        destruct (evolves_length _ _ _ i E1) as [x Hx]; [rewrite E0; eauto|].
        congruence.
      * pose proof (ev_next _ _ _ E1). lia.
  - apply E2.
  - intros h. unfold unregistrations. rewrite count_app.
    pose proof (ev_unreg_once _ _ _ E1 h) as H1.
    pose proof (ev_unreg_once _ _ _ E2 h) as H2.
    unfold unregistrations in H1, H2.
    destruct (decide (0 < length (filter (is_unregistration h) t1))) as [P1|P1];
      [|lia].
    destruct (decide (0 < length (filter (is_unregistration h) t2))) as [P2|P2];
      [|lia].
    exfalso. apply (Hclash h).
    + by apply unregistrations_pos.
    + apply (ev_unreg_in _ _ _ E2). by apply unregistrations_pos.
  - intros h Hin. apply elem_of_app in Hin as [Hin|Hin].
    + destruct (ev_unreg_out _ _ _ E1 h Hin) as [Hn Hlt]. split.
      * by apply (evolves_out _ _ _ _ E2).
      * pose proof (ev_next _ _ _ E2). lia.
    + by apply (ev_unreg_out _ _ _ E2).
  - intros h Hin. apply elem_of_app in Hin as [Hin|Hin].
    + by apply (ev_unreg_in _ _ _ E1).
    + destruct (ev_unreg_in _ _ _ E2 h Hin) as [Hr|Hge].
      * by apply (evolves_registered _ _ _ _ E1).
      * right. pose proof (ev_next _ _ _ E1). lia.
  - intros h o Hin Hd. apply elem_of_app in Hin as [Hin|Hin].
    + by apply (ev_deliv _ _ _ E1 h o).
    + destruct (ev_deliv _ _ _ E2 h o Hin Hd) as [Hr|Hge].
      * by apply (evolves_registered _ _ _ _ E1).
      * right. pose proof (ev_next _ _ _ E1). lia.
  - apply ordered_app. split; [apply E1|]. split; [apply E2|].
    intros h Hin o Ho Hd. apply (Hclash h Hin).
    by apply (ev_deliv _ _ _ E2 h o).
Qed.

Lemma evolves_log o s :
  wf s → (∀ h, ¬ is_unregistration h o) →
  (∀ h, is_delivery h o → registered h s) →
  evolves s (log o s) [o].
Proof.
  intros Hwf Hnu Hd. split; simpl.
  - done.
  - done.
  - intros; by left.
  - done.
  - intros; by left.
  - done.
  - intros h. unfold unregistrations. rewrite filter_cons.
    destruct (decide (is_unregistration h o)); [by destruct (Hnu h)|].
    simpl. lia.
  - intros h Hin. apply list_elem_of_singleton in Hin. subst.
    by destruct (Hnu h).
  - intros h Hin. apply list_elem_of_singleton in Hin. subst.
    by destruct (Hnu h).
  - intros h o' Hin Ho'. apply list_elem_of_singleton in Hin. subst.
    left. by apply Hd.
  - apply ordered_single.
Qed.

Lemma set_has_false h data :
  (∀ i l, data !! i = Some (Some l) → lid l ≠ h) → set_has h data = false.
Proof.
  intros Hall. unfold set_has. apply bool_decide_eq_false. intros [[i x] Hf].
  apply list_find_Some in Hf as (Hi & Hh & _).
  destruct x as [l|]; simpl in Hh; [|done]. by apply (Hall i l).
Qed.

Lemma register_spec txid cb opts s :
  wf s →
  let l := {| lid := nextObject s; transactionId := txid;
              callback := cb; options := opts |} in
  let s' := (registerTransactionListener txid cb opts s).2 in
  (registerTransactionListener txid cb opts s).1 = l ∧
  eventListeners s' = eventListeners s ++ [Some l] ∧
  nextObject s' = S (nextObject s) ∧
  evolves s s' [ObsRegister (nextObject s)].
Proof.
  intros [Hinj Hlt] l s'.
  assert (Hdata : eventListeners s' = eventListeners s ++ [Some l]).
  { subst s'. simpl. unfold set_add. rewrite set_has_false; [done|].
    intros i l' Hi. simpl. specialize (Hlt i l' Hi). lia. }
  split; [done|]. split; [done|]. split; [done|]. split.
  - done.
  - simpl. lia.
  - intros i l' Hi. left. rewrite Hdata.
    rewrite lookup_app_l; [done|]. by apply lookup_lt_Some in Hi.
  - intros i Hi. rewrite Hdata.
    rewrite lookup_app_l; [done|]. by apply lookup_lt_Some in Hi.
  - intros i l' Hi. rewrite Hdata in Hi.
    destruct (decide (i < length (eventListeners s))) as [Hin|Hout].
    + rewrite lookup_app_l in Hi by done. by left.
    + right. split; [apply lookup_ge_None; lia|].
      rewrite lookup_app_r in Hi by lia.
      rewrite list_lookup_singleton in Hi.
      destruct (i - length (eventListeners s)); [|done].
      inversion Hi; subst. simpl. lia.
  - split; [rewrite Hdata; intros i j l1 l2 Hi Hj Hid;
      rewrite lookup_app in Hi, Hj|].
    { destruct (eventListeners s !! i) as [x|] eqn:Ei;
      destruct (eventListeners s !! j) as [y|] eqn:Ej.
    + inversion Hi; inversion Hj; subst. by apply (Hinj i j l1 l2).
    + inversion Hi; subst. rewrite list_lookup_singleton in Hj.
      destruct (j - length (eventListeners s)); [|done].
      inversion Hj; subst. specialize (Hlt i l1 Ei). simpl in Hid. lia.
    + inversion Hj; subst. rewrite list_lookup_singleton in Hi.
      destruct (i - length (eventListeners s)); [|done].
      inversion Hi; subst. specialize (Hlt j l2 Ej). simpl in Hid. lia.
    + apply lookup_ge_None in Ei, Ej.
      rewrite list_lookup_singleton in Hi, Hj.
      destruct (i - length (eventListeners s)) eqn:Di; [|done].
      destruct (j - length (eventListeners s)) eqn:Dj; [|done]. lia. }
    rewrite Hdata. intros i l' Hi. simpl. rewrite lookup_app in Hi.
    destruct (eventListeners s !! i) as [x|] eqn:Ei.
    + inversion Hi; subst. specialize (Hlt i l' Ei). lia.
    + rewrite list_lookup_singleton in Hi.
      destruct (i - length (eventListeners s)); [|done].
      inversion Hi; subst. simpl. lia.
  - intros h. unfold unregistrations. rewrite filter_cons.
    simpl. lia.
  - intros h Hin. apply list_elem_of_singleton in Hin. done.
  - intros h Hin. apply list_elem_of_singleton in Hin. done.
  - intros h o Hin Hd. apply list_elem_of_singleton in Hin. by subst.
  - apply ordered_single.
Qed.

Lemma find_registered h s :
  registered h s ↔ is_Some (list_find (holds h) (eventListeners s)).
Proof.
  split.
  - intros Hr. destruct (list_find _ _) as [p|] eqn:Ef; [eauto|].
    apply list_find_None in Ef. apply registered_lookup in Hr as (i & l & Hi & Hh).
    rewrite Forall_lookup in Ef. by destruct (Ef i (Some l) Hi).
  - intros [[i x] Hf]. apply list_find_Some in Hf as (Hi & Hh & _).
    destruct x as [l|]; simpl in Hh; [|done].
    apply registered_lookup. eauto.
Qed.

Lemma unregister_abrupt h s :
  ¬ registered h s →
  unregisterEventListener h s = (Abrupt not_registered, s).
Proof.
  intros Hn. unfold unregisterEventListener, set_delete.
  destruct (list_find _ _) as [[i x]|] eqn:Ef; [|done].
  destruct Hn. apply find_registered. eauto.
Qed.

Lemma unregister_normal h s :
  wf s → registered h s →
  ∃ s' i l,
    unregisterEventListener h s = (Normal tt, s') ∧
    eventListeners s !! i = Some (Some l) ∧ lid l = h ∧
    eventListeners s' = <[i := None]> (eventListeners s) ∧
    nextObject s' = nextObject s ∧
    evolves s s' [ObsUnregister h].
Proof.
  intros [Hinj Hlt] Hr. unfold unregisterEventListener, set_delete.
  destruct (list_find _ _) as [[i x]|] eqn:Ef.
  2: { apply find_registered in Hr. rewrite Ef in Hr. by destruct Hr. }
  apply list_find_Some in Ef as (Hi & Hh & _).
  destruct x as [l|]; simpl in Hh; [|done].
  pose proof (lookup_lt_Some _ _ _ Hi) as Hlen.
  eexists _, i, l. split; [done|]. split; [done|]. split; [done|].
  split; [done|]. split; [done|].
  assert (Hsame : ∀ j l', <[i:=None]> (eventListeners s) !! j = Some (Some l') →
            eventListeners s !! j = Some (Some l') ∧ j ≠ i).
  { intros j l' Hj. rewrite list_lookup_insert in Hj.
    destruct (decide (i = j ∧ i < length (eventListeners s))) as [[-> _]|Hne];
      [done|].
    split; [done|]. intros ->. apply Hne. done. }
  split; simpl.
  - done.
  - done.
  - intros j l' Hj. destruct (decide (j = i)) as [->|Hne].
    + right. rewrite list_lookup_insert_eq by done.
      split; [done|]. rewrite Hi in Hj. inversion Hj; subst.
      apply list_elem_of_singleton. done.
    + left. by rewrite list_lookup_insert_ne.
  - intros j Hj. destruct (decide (j = i)) as [->|Hne].
    + by rewrite list_lookup_insert_eq.
    + by rewrite list_lookup_insert_ne.
  - intros j l' Hj. left. by apply Hsame.
  - split.
    + intros j1 j2 l1 l2 H1 H2. apply Hsame in H1 as [H1 _].
      apply Hsame in H2 as [H2 _]. by apply Hinj.
    + intros j l' Hj. apply Hsame in Hj as [Hj _]. by apply (Hlt j).
  - intros h'. unfold unregistrations. rewrite filter_cons.
    destruct (decide _); simpl; lia.
  - intros h' Hin. apply list_elem_of_singleton in Hin. inversion Hin; subst.
    split.
    + rewrite registered_lookup. intros (j & l' & Hj & Hid).
      apply Hsame in Hj as [Hj Hne]. apply Hne. by apply (Hinj j i l' l).
    + by apply (Hlt i).
  - intros h' Hin. apply list_elem_of_singleton in Hin. inversion Hin; subst.
    by left.
  - intros h' o Hin Hd. apply list_elem_of_singleton in Hin. by subst.
  - apply ordered_single.
Qed.

Lemma run_actions_spec acts s c s' :
  wf s → run_actions acts s = (c, s') →
  ∃ t, Forall set_obs t ∧ evolves s s' t.
Proof.
  revert s. induction acts as [|a acts IH]; intros s Hwf Hrun; simpl in Hrun.
  - inversion Hrun; subst. exists []. split; [done | by apply evolves_refl].
  - destruct a as [txid cb opts|h|e].
    + destruct (register_spec txid cb opts s Hwf) as (_ & _ & _ & E1).
      destruct (IH _ (ev_wf _ _ _ E1) Hrun) as (t & Ht & E2).
      eexists. split; [|by eapply evolves_trans].
      apply Forall_app. split; [|done]. by apply Forall_singleton.
    + destruct (decide (registered h s)) as [Hr|Hn].
      * destruct (unregister_normal h s Hwf Hr)
          as (s1 & i & l & Hu & _ & _ & _ & _ & E1).
        rewrite Hu in Hrun.
        destruct (IH _ (ev_wf _ _ _ E1) Hrun) as (t & Ht & E2).
        eexists. split; [|by eapply evolves_trans].
        apply Forall_app. split; [|done]. by apply Forall_singleton.
      * rewrite (unregister_abrupt h s Hn) in Hrun. inversion Hrun; subst.
        exists []. split; [done | by apply evolves_refl].
    + inversion Hrun; subst. exists []. split; [done | by apply evolves_refl].
Qed.

Section DispatchFacts.

Variable behaviour :
  EventCallback → option Error → option EventInfo → StubEventService → list Action.

Lemma onEvent_spec l error event s i c s' :
  wf s → eventListeners s !! i = Some (Some l) →
  onEvent behaviour l error event s = (c, s') →
  ∃ ta, Forall set_obs ta ∧
        evolves s s' (onEvent_obs l error event ta) ∧
        (matches l error event = false →
         ta = [] ∧ eventListeners s' = eventListeners s ∧
         nextObject s' = nextObject s ∧
         (c = Normal tt ∨ (error = None ∧ event = None))).
Proof.
  intros Hwf Hi Hrun.
  assert (Hr : registered (lid l) s) by (apply registered_lookup; eauto).
  assert (E0 : evolves s (log (ObsOnEvent (lid l) error event) s)
                 [ObsOnEvent (lid l) error event]).
  { apply evolves_log; [done | intros h Hf; exact Hf | simpl; by intros h <-]. }
  unfold onEvent in Hrun. unfold onEvent_obs, matches.
  destruct (condition l error event) as [[|]|e|] eqn:Ec.
  - (* the condition holds *)
    assert (Hcb : ∀ s1 t1, evolves s s1 t1 →
              invoke_callback behaviour l error event s1 = (c, s') →
              ∃ ta, Forall set_obs ta ∧
                evolves s s' (t1 ++ ObsCallback (lid l) (callback l) error event :: ta)).
    { intros s1 t1 E1 Hinv. unfold invoke_callback in Hinv.
      assert (E2 : evolves s1
                (log (ObsCallback (lid l) (callback l) error event) s1)
                [ObsCallback (lid l) (callback l) error event]).
      { apply evolves_log;
          [apply E1 | intros h Hf; exact Hf | intros h Hf; destruct Hf]. }
      destruct (run_actions_spec _ _ _ _ (ev_wf _ _ _ E2) Hinv)
        as (ta & Hta & E3).
      exists ta. split; [done|].
      eapply evolves_trans; [exact E1|].
      change (ObsCallback (lid l) (callback l) error event :: ta)
        with ([ObsCallback (lid l) (callback l) error event] ++ ta).
      eapply evolves_trans; [exact E2 | exact E3]. }
    destruct (one_shot l).
    + assert (Hr0 : registered (lid l) (log (ObsOnEvent (lid l) error event) s))
        by done.
      destruct (unregister_normal _ _ (ev_wf _ _ _ E0) Hr0)
        as (s1 & j & l' & Hu & _ & _ & _ & _ & E1).
      rewrite Hu in Hrun.
      destruct (Hcb s1 _ (evolves_trans _ _ _ _ _ E0 E1) Hrun) as (ta & Hta & E).
      exists ta. split; [done|]. split; [|done]. exact E.
    + destruct (Hcb _ _ E0 Hrun) as (ta & Hta & E).
      exists ta. split; [done|]. split; [|done]. exact E.
  - inversion Hrun; subst. exists []. split; [done|]. split; [done|].
    intros _. repeat split; try done. by left.
  - inversion Hrun; subst. exists []. split; [done|]. split; [done|].
    intros _. repeat split; try done. right.
    destruct error, event; simpl in Ec; try done.
  - destruct error, event; simpl in Ec; done.
Qed.

End DispatchFacts.

Lemma deliveries_app h t1 t2 :
  deliveries h (t1 ++ t2) = deliveries h t1 + deliveries h t2.
Proof. apply count_app. Qed.

Lemma invocations_app h t1 t2 :
  invocations h (t1 ++ t2) = invocations h t1 + invocations h t2.
Proof. apply count_app. Qed.

Lemma unregistrations_app h t1 t2 :
  unregistrations h (t1 ++ t2) = unregistrations h t1 + unregistrations h t2.
Proof. apply count_app. Qed.

Lemma deliveries_zero h t :
  deliveries h t = 0 ↔ ∀ o, o ∈ t → ¬ is_delivery h o.
Proof. apply count_zero. Qed.

Lemma invocations_zero h t :
  invocations h t = 0 ↔ ∀ o, o ∈ t → ¬ is_invocation h o.
Proof. apply count_zero. Qed.

Lemma deliveries_set_obs h ta : Forall set_obs ta → deliveries h ta = 0.
Proof.
  intros Hta. apply count_zero. intros o Ho Hd.
  rewrite Forall_forall in Hta. specialize (Hta o Ho). by destruct o.
Qed.

Lemma invocations_set_obs h ta : Forall set_obs ta → invocations h ta = 0.
Proof.
  intros Hta. apply count_zero. intros o Ho Hd.
  rewrite Forall_forall in Hta. specialize (Hta o Ho). by destruct o.
Qed.

Lemma deliveries_onEvent_obs h l e v ta :
  Forall set_obs ta →
  deliveries h (onEvent_obs l e v ta) = if decide (lid l = h) then 1 else 0.
Proof.
  intros Hta. unfold onEvent_obs.
  change (ObsOnEvent (lid l) e v :: ?t) with ([ObsOnEvent (lid l) e v] ++ t).
  rewrite deliveries_app.
  assert (deliveries h [ObsOnEvent (lid l) e v] = if decide (lid l = h) then 1 else 0)
    as ->.
  { unfold deliveries. rewrite filter_cons. simpl.
    destruct (decide (lid l = h)); done. }
  assert (deliveries h
    (if matches l e v
     then (if one_shot l then [ObsUnregister (lid l)] else []) ++
          ObsCallback (lid l) (callback l) e v :: ta
     else []) = 0) as ->; [|lia].
  destruct (matches l e v); [|done].
  rewrite deliveries_app.
  change (ObsCallback (lid l) (callback l) e v :: ta)
    with ([ObsCallback (lid l) (callback l) e v] ++ ta).
  rewrite deliveries_app, (deliveries_set_obs h ta Hta).
  destruct (one_shot l); unfold deliveries; rewrite ?filter_cons; simpl; done.
Qed.

Lemma invocations_onEvent_obs h l e v ta :
  Forall set_obs ta →
  invocations h (onEvent_obs l e v ta) =
  if decide (lid l = h) then (if matches l e v then 1 else 0) else 0.
Proof.
  intros Hta. unfold onEvent_obs.
  change (ObsOnEvent (lid l) e v :: ?t) with ([ObsOnEvent (lid l) e v] ++ t).
  rewrite invocations_app.
  assert (invocations h [ObsOnEvent (lid l) e v] = 0) as -> by done.
  destruct (matches l e v).
  - rewrite invocations_app.
    change (ObsCallback (lid l) (callback l) e v :: ta)
      with ([ObsCallback (lid l) (callback l) e v] ++ ta).
    rewrite invocations_app, (invocations_set_obs h ta Hta).
    assert (invocations h (if one_shot l then [ObsUnregister (lid l)] else []) = 0)
      as -> by (by destruct (one_shot l)).
    unfold invocations. rewrite filter_cons. simpl.
    destruct (decide (lid l = h)); done.
  - simpl. by destruct (decide (lid l = h)).
Qed.

Lemma elem_of_onEvent_obs o l e v ta :
  Forall set_obs ta → o ∈ onEvent_obs l e v ta →
  o = ObsOnEvent (lid l) e v ∨
  (matches l e v = true ∧
   (o = ObsCallback (lid l) (callback l) e v ∨ set_obs o)).
Proof.
  intros Hta Ho. unfold onEvent_obs in Ho.
  apply elem_of_cons in Ho as [->|Ho]; [by left|]. right.
  destruct (matches l e v); [|by inversion Ho]. split; [done|].
  apply elem_of_app in Ho as [Ho|Ho].
  - right. destruct (one_shot l); [|by inversion Ho].
    apply list_elem_of_singleton in Ho. by subst.
  - apply elem_of_cons in Ho as [->|Ho]; [by left|]. right.
    rewrite Forall_forall in Hta. by apply Hta.
Qed.

Lemma unregister_in_onEvent_obs l e v ta :
  matches l e v = true → one_shot l = true →
  ObsUnregister (lid l) ∈ onEvent_obs l e v ta.
Proof.
  intros Hm Ho. unfold onEvent_obs. rewrite Hm, Ho.
  right. left.
Qed.

Lemma dispatched_nil idx error event s c :
  wf s →
  (c = Normal tt → eventListeners s !! idx = None) →
  dispatched idx error event s c s [].
Proof.
  intros Hwf Hend. split.
  - by apply evolves_refl.
  - intros h. unfold deliveries. simpl. lia.
  - intros h. unfold deliveries, invocations. simpl. lia.
  - intros o Ho. inversion Ho.
  - intros h o Ho. inversion Ho.
  - intros i l Hi. split; [|split].
    + unfold deliveries, invocations. simpl. by destruct (matches _ _ _).
    + intros o Ho. inversion Ho.
    + unfold deliveries. simpl. lia.
  - intros Hc i l Hle Hi. specialize (Hend Hc).
    apply lookup_ge_None in Hend. apply lookup_lt_Some in Hi. lia.
Qed.

Lemma dispatched_skip idx error event s c s' t :
  eventListeners s !! idx = Some None →
  dispatched (S idx) error event s c s' t →
  dispatched idx error event s c s' t.
Proof.
  intros Hidx D. split; try apply D.
  - intros h o Ho Hd. destruct (d_from _ _ _ _ _ _ _ D h o Ho Hd)
      as [(i & l & Hle & Hi & Hh)|Hge]; [|by right].
    left. exists i, l. split; [lia | done].
  - intros Hc i l Hle Hi. apply (d_cover _ _ _ _ _ _ _ D Hc i l); [|done].
    destruct (decide (i = idx)) as [->|]; [congruence | lia].
Qed.

Lemma no_delivery_when_out s s' t h :
  evolves s s' t → ¬ registered h s → h < nextObject s → deliveries h t = 0.
Proof.
  intros E Hn Hlt. apply deliveries_zero. intros o Ho Hd.
  destruct (ev_deliv _ _ _ E h o Ho Hd); [done | lia].
Qed.

Lemma dispatched_step idx error event s l0 ta s1 c s' t2 :
  wf s → eventListeners s !! idx = Some (Some l0) →
  Forall set_obs ta →
  evolves s s1 (onEvent_obs l0 error event ta) →
  dispatched (S idx) error event s1 c s' t2 →
  dispatched idx error event s c s' (onEvent_obs l0 error event ta ++ t2).
Proof.
  intros [Hinj Hlt] Hidx Hta.
  pose proof (λ h, deliveries_onEvent_obs h l0 error event ta Hta) as Hd1.
  pose proof (λ h, invocations_onEvent_obs h l0 error event ta Hta) as Hi1.
  pose proof (λ o, elem_of_onEvent_obs o l0 error event ta Hta) as Hel.
  pose proof (unregister_in_onEvent_obs l0 error event ta) as Hun.
  generalize dependent (onEvent_obs l0 error event ta). intros t1 Hd1 Hi1 Hel Hun E1 D.
  pose proof (d_evolves _ _ _ _ _ _ _ D) as E2.
  (* the listener just served is not served again *)
  assert (Hnot : deliveries (lid l0) t2 = 0).
  { apply deliveries_zero. intros o Ho Hd.
    destruct (d_from _ _ _ _ _ _ _ D (lid l0) o Ho Hd)
      as [(i & l & Hle & Hi & Hh)|Hge].
    - destruct (ev_new _ _ _ E1 i l Hi) as [H0|[_ Hge]].
      + assert (i = idx) by (by apply (Hinj i idx l l0)). lia.
      + specialize (Hlt idx l0 Hidx). lia.
    - specialize (Hlt idx l0 Hidx). pose proof (ev_next _ _ _ E1). lia. }
  assert (Hnoti : invocations (lid l0) t2 = 0).
  { pose proof (d_inv_le _ _ _ _ _ _ _ D (lid l0)). lia. }
  split.
  - by eapply evolves_trans.
  - intros h. rewrite deliveries_app, Hd1.
    destruct (decide (lid l0 = h)) as [<-|Hne].
    + lia.
    + pose proof (d_once _ _ _ _ _ _ _ D h). lia.
  - intros h. rewrite deliveries_app, invocations_app, Hd1, Hi1.
    pose proof (d_inv_le _ _ _ _ _ _ _ D h).
    destruct (decide (lid l0 = h)); [destruct (matches l0 error event)|]; lia.
  - intros o Ho. apply elem_of_app in Ho as [Ho|Ho].
    + apply Hel in Ho as [->|[_ [->|Hs]]]; try done.
      by destruct o.
    + by apply (d_args _ _ _ _ _ _ _ D).
  - intros h o Ho Hd. apply elem_of_app in Ho as [Ho|Ho].
    + left. exists idx, l0. split; [lia|]. split; [done|].
      apply Hel in Ho as [->|[_ [->|Hs]]]; try done.
      by destruct o.
    + destruct (d_from _ _ _ _ _ _ _ D h o Ho Hd)
        as [(i & l & Hle & Hi & Hh)|Hge].
      * destruct (ev_new _ _ _ E1 i l Hi) as [H0|[_ Hge]].
        -- left. exists i, l. split; [lia | done].
        -- right. lia.
      * right. pose proof (ev_next _ _ _ E1). lia.
  - intros i l Hi. destruct (decide (lid l0 = lid l)) as [Heq|Hne].
    + (* the listener being served *)
      assert (i = idx) by (by apply (Hinj i idx l l0)). subst i.
      assert (l = l0) by congruence. subst l.
      rewrite deliveries_app, invocations_app, Hd1, Hi1, Hnot, Hnoti.
      destruct (decide (lid l0 = lid l0)); [|done].
      split; [|split].
      * by destruct (matches l0 error event).
      * intros o Ho Hinv. apply elem_of_app in Ho as [Ho|Ho].
        -- apply Hel in Ho as [->|[_ [->|Hs]]]; try done.
           by destruct o.
        -- exfalso. revert Hinv. by apply (proj1 (invocations_zero _ _) Hnoti).
      * intros Hm Hos _. apply elem_of_app. left.
        by apply Hun.
    + (* another member *)
      rewrite deliveries_app, invocations_app, Hd1, Hi1.
      destruct (decide (lid l0 = lid l)); [done|]. simpl.
      assert (Hno1 : ∀ o, o ∈ t1 → ¬ is_invocation (lid l) o).
      { apply invocations_zero. rewrite Hi1.
        by destruct (decide (lid l0 = lid l)). }
      destruct (ev_old _ _ _ E1 i l Hi) as [H1|[H1 Hu]].
      * destruct (d_member _ _ _ _ _ _ _ D i l H1) as (Ha & Hb & Hc).
        split; [done|]. split.
        -- intros o Ho Hinv. apply elem_of_app in Ho as [Ho|Ho]; [|by apply Hb].
           by destruct (Hno1 o Ho).
        -- intros Hm Hos Hone. apply elem_of_app. right. by apply Hc.
      * destruct (ev_unreg_out _ _ _ E1 _ Hu) as [Hout Hlt1].
        pose proof (no_delivery_when_out _ _ _ _ E2 Hout Hlt1) as Hz.
        pose proof (d_inv_le _ _ _ _ _ _ _ D (lid l)) as Hle.
        assert (Hzi : invocations (lid l) t2 = 0) by lia.
        rewrite Hz, Hzi. split; [by destruct (matches l error event)|].
        split; [|lia].
        intros o Ho Hinv. exfalso. apply elem_of_app in Ho as [Ho|Ho].
        -- by apply (Hno1 o Ho).
        -- revert Hinv. by apply (proj1 (invocations_zero _ _) Hzi).
  - intros Hc i l Hle Hi. rewrite deliveries_app, Hd1.
    destruct (decide (i = idx)) as [->|Hne].
    + left. assert (l = l0) by congruence. subst l.
      destruct (decide (lid l0 = lid l0)); [lia | done].
    + destruct (decide (lid l0 = lid l)) as [Heq|Hneq].
      { destruct Hne. by apply (Hinj i idx l l0). }
      destruct (ev_old _ _ _ E1 i l Hi) as [H1|[H1 Hu]].
      * destruct (d_cover _ _ _ _ _ _ _ D Hc i l ltac:(lia) H1) as [H|H].
        -- left. lia.
        -- right. apply elem_of_app. by right.
      * right. apply elem_of_app. by left.
Qed.

Section WalkFacts.

Variable behaviour :
  EventCallback → option Error → option EventInfo → StubEventService → list Action.

Lemma forEach_spec fuel idx error event s c s' :
  wf s → forEach behaviour fuel idx error event s = (c, s') →
  ∃ t, dispatched idx error event s c s' t.
Proof.
  revert idx s. induction fuel as [|fuel IH]; intros idx s Hwf Hrun;
    simpl in Hrun.
  - inversion Hrun; subst. exists []. by apply dispatched_nil.
  - destruct (eventListeners s !! idx) as [[l0|]|] eqn:Hidx.
    + destruct (onEvent behaviour l0 error event s) as [c1 s1] eqn:Hon.
      destruct (onEvent_spec behaviour _ _ _ _ _ _ _ Hwf Hidx Hon)
        as (ta & Hta & E1 & _).
      assert (∃ t2, dispatched (S idx) error event s1 c s' t2) as [t2 D].
      { destruct c1 as [[]|e|].
        - apply IH; [apply E1 | done].
        - inversion Hrun; subst. exists []. apply dispatched_nil; [apply E1|done].
        - inversion Hrun; subst. exists []. apply dispatched_nil; [apply E1|done]. }
      eexists. by eapply dispatched_step.
    + destruct (IH _ _ Hwf Hrun) as [t D]. exists t. by apply dispatched_skip.
    + inversion Hrun; subst. exists []. by apply dispatched_nil.
Qed.

End WalkFacts.

Lemma sound_evolves s s' t : sound s → evolves s s' t → sound s'.
Proof.
  intros (Hwf & Hcons & Hord) E. split; [apply E|]. split.
  - intros h Hin. rewrite (ev_trace _ _ _ E) in Hin.
    apply elem_of_app in Hin as [Hin|Hin].
    + destruct (Hcons h Hin) as [Hn Hlt]. split.
      * by apply (evolves_out _ _ _ _ E).
      * pose proof (ev_next _ _ _ E). lia.
    + by apply (ev_unreg_out _ _ _ E).
  - rewrite (ev_trace _ _ _ E). apply ordered_app.
    split; [done|]. split; [apply E|].
    intros h Hin o Ho Hd. destruct (Hcons h Hin) as [Hn Hlt].
    destruct (ev_deliv _ _ _ E h o Ho Hd); [done | lia].
Qed.

Lemma wf_new n : wf (new_StubEventService n).
Proof. split; intros i; intros; simpl in *; by rewrite lookup_nil in *. Qed.

Lemma sound_new n : sound (new_StubEventService n).
Proof.
  split; [apply wf_new|]. split.
  - intros h Hin. inversion Hin.
  - apply ordered_nil.
Qed.

Lemma sound_register txid cb opts s :
  sound s → sound (registerTransactionListener txid cb opts s).2.
Proof.
  intros Hs. destruct (register_spec txid cb opts s (proj1 Hs)) as (_ & _ & _ & E).
  by eapply sound_evolves.
Qed.

Section QuietFacts.

Variable behaviour :
  EventCallback → option Error → option EventInfo → StubEventService → list Action.

Lemma onEvent_quiet l error event s idx :
  wf s → eventListeners s !! idx = Some (Some l) →
  (matches l error event = true →
   ∀ s1, behaviour (callback l) error event s1 = []) →
  (error ≠ None ∨ event ≠ None) →
  ∃ s2, onEvent behaviour l error event s = (Normal tt, s2) ∧
        evolves s s2 (onEvent_obs l error event []) ∧
        (∀ j, j ≠ idx → eventListeners s2 !! j = eventListeners s !! j) ∧
        (eventListeners s2 !! idx = Some (Some l) ∨
         (eventListeners s2 !! idx = Some None ∧
          matches l error event = true ∧ one_shot l = true)) ∧
        length (eventListeners s2) = length (eventListeners s).
Proof.
  intros Hwf Hidx Hq Hargs.
  destruct (onEvent behaviour l error event s) as [c s2] eqn:Hon.
  destruct (onEvent_spec behaviour _ _ _ _ _ _ _ Hwf Hidx Hon)
    as (ta & Hta & E & Hno).
  unfold onEvent, matches in *.
  destruct (condition l error event) as [[|]|e|] eqn:Ec.
  - specialize (Hq eq_refl). unfold invoke_callback in Hon.
    destruct (one_shot l) eqn:Hos.
    + assert (Hr : registered (lid l) (log (ObsOnEvent (lid l) error event) s))
        by (apply registered_lookup; eauto).
      assert (Hwf0 : wf (log (ObsOnEvent (lid l) error event) s)) by done.
      destruct (unregister_normal _ _ Hwf0 Hr)
        as (s1 & i & l' & Hu & Hi & Hid & Hdata & _ & _).
      assert (i = idx) by (by apply (proj1 Hwf i idx l' l)). subst i.
      rewrite Hu, Hq in Hon. simpl in Hon. inversion Hon; subst c s2.
      exists (log (ObsCallback (lid l) (callback l) error event) s1).
      split; [done|]. simpl. rewrite Hdata. simpl.
      pose proof (lookup_lt_Some _ _ _ Hidx).
      split; [|split; [|split]].
      * (* the history *)
        unfold onEvent_obs, matches in E |- *. rewrite Ec, Hos in E |- *.
        assert (ta = []) as ->; [|exact E].
        pose proof (ev_trace _ _ _ E) as Ht. simpl in Ht.
        assert (trace s1 = trace s ++ [ObsOnEvent (lid l) error event;
                                        ObsUnregister (lid l)]) as Hs1.
        { unfold unregisterEventListener, set_delete in Hu. simpl in Hu.
          destruct (list_find _ _) as [[? ?]|]; inversion Hu; subst; simpl.
          by rewrite <- app_assoc. }
        rewrite Hs1 in Ht. rewrite <- !app_assoc in Ht. simpl in Ht.
        apply app_inv_head in Ht. by inversion Ht.
      * intros j Hj. by rewrite list_lookup_insert_ne.
      * right. by rewrite list_lookup_insert_eq.
      * by rewrite length_insert.
    + rewrite Hq in Hon. simpl in Hon. inversion Hon; subst c s2.
      eexists. split; [done|]. simpl.
      split; [|split; [done|split; [by left | done]]].
      unfold onEvent_obs, matches in E |- *. rewrite Ec, Hos in E |- *.
      assert (ta = []) as ->; [|exact E].
      pose proof (ev_trace _ _ _ E) as Ht. simpl in Ht.
      rewrite <- !app_assoc in Ht. simpl in Ht.
      apply app_inv_head in Ht. by inversion Ht.
  - destruct (Hno eq_refl) as (-> & Hd & Hn & Hc).
    inversion Hon; subst c s2. eexists. split; [done|]. simpl.
    split; [|split; [done|split; [by left | done]]].
    unfold onEvent_obs, matches in E |- *. by rewrite Ec in E |- *.
  - destruct error, event; simpl in Ec; try done. by destruct Hargs.
  - destruct error, event; simpl in Ec; done.
Qed.

End QuietFacts.

Section QuietWalk.

Variable behaviour :
  EventCallback → option Error → option EventInfo → StubEventService → list Action.
Variables (error : option Error) (event : option EventInfo).
Hypothesis Hargs : error ≠ None ∨ event ≠ None.

Lemma walk_quiet n : ∀ fuel idx s,
  wf s → idx + n ≤ length (eventListeners s) → n ≤ fuel →
  (∀ j l', idx ≤ j < idx + n → eventListeners s !! j = Some (Some l') →
           matches l' error event = true →
           ∀ s1, behaviour (callback l') error event s1 = []) →
  ∃ s1 t1,
    forEach behaviour fuel idx error event s =
      forEach behaviour (fuel - n) (idx + n) error event s1 ∧
    evolves s s1 t1 ∧
    length (eventListeners s1) = length (eventListeners s) ∧
    (∀ j l', eventListeners s !! j = Some (Some l') →
       eventListeners s1 !! j = Some (Some l') ∨
       (idx ≤ j < idx + n ∧ matches l' error event = true ∧
        one_shot l' = true ∧ eventListeners s1 !! j = Some None)) ∧
    (∀ j l', idx ≤ j < idx + n → eventListeners s !! j = Some (Some l') →
       ObsOnEvent (lid l') error event ∈ t1).
Proof.
  induction n as [|n IH]; intros fuel idx s Hwf Hlen Hfuel Hq.
  - exists s, []. rewrite Nat.sub_0_r, Nat.add_0_r.
    split; [done|]. split; [by apply evolves_refl|]. split; [done|].
    split; [by left | intros; lia].
  - destruct fuel as [|fuel]; [lia|]. simpl.
    rewrite Nat.add_succ_r.
    destruct (eventListeners s !! idx) as [[l|]|] eqn:Hidx.
    + destruct (onEvent_quiet behaviour l error event s idx Hwf Hidx)
        as (s2 & Hon & E2 & Hother & Hself & Hlen2); [|done|].
      { apply (Hq idx l); [lia | done]. }
      rewrite Hon.
      destruct (IH fuel (S idx) s2) as (s1 & t1 & Hrun & E1 & Hlen1 & Hslots & Hdel).
      { apply E2. } { rewrite Hlen2. lia. } { lia. }
      { intros j l' Hj Hsj. apply (Hq j l'); [lia|].
        rewrite <- Hother by lia. done. }
      exists s1, (onEvent_obs l error event [] ++ t1).
      split; [exact Hrun|]. split; [by eapply evolves_trans|].
      split; [lia|]. split.
      * intros j l' Hj. destruct (decide (j = idx)) as [->|Hne].
        -- assert (l' = l) by congruence. subst l'.
           destruct Hself as [Hs|(Hs & Hm & Hos)].
           ++ destruct (Hslots idx l Hs) as [H|(H & _)]; [by left | lia].
           ++ right. split; [lia|]. split; [done|]. split; [done|].
              by apply (ev_empty _ _ _ E1).
        -- rewrite <- Hother in Hj by done.
           destruct (Hslots j l' Hj) as [H|(H1 & H2 & H3 & H4)]; [by left|].
           right. split; [lia | done].
      * intros j l' Hj Hsj. apply elem_of_app.
        destruct (decide (j = idx)) as [->|Hne].
        -- left. assert (l' = l) by congruence. subst l'. left.
        -- right. apply (Hdel j l'); [lia|]. by rewrite Hother.
    + destruct (IH fuel (S idx) s) as (s1 & t1 & Hrun & E1 & Hlen1 & Hslots & Hdel);
        [done | lia | lia | |].
      { intros j l' Hj. apply Hq. lia. }
      exists s1, t1. split; [exact Hrun|]. split; [done|]. split; [done|].
      split.
      * intros j l' Hj. destruct (Hslots j l' Hj) as [H|(H1 & H2)]; [by left|].
        right. split; [lia | done].
      * intros j l' Hj Hsj. destruct (decide (j = idx)) as [->|Hne];
          [congruence|]. apply (Hdel j l'); [lia | done].
    + apply lookup_ge_None in Hidx. lia.
Qed.

End QuietWalk.

Section BurstFacts.

Variable behaviour :
  EventCallback → option Error → option EventInfo → StubEventService → list Action.

Lemma sendEvent_spec fuel event s c s' :
  wf s → sendEvent behaviour fuel event s = (c, s') →
  dispatched 0 None (Some event) s c s' (since s s').
Proof.
  intros Hwf Hrun. destruct (forEach_spec behaviour _ _ _ _ _ _ _ Hwf Hrun) as [t D].
  by rewrite (evolves_since _ _ _ (d_evolves _ _ _ _ _ _ _ D)).
Qed.

Lemma sendError_spec fuel error s c s' :
  wf s → sendError behaviour fuel error s = (c, s') →
  dispatched 0 (Some error) None s c s' (since s s').
Proof.
  intros Hwf Hrun. destruct (forEach_spec behaviour _ _ _ _ _ _ _ Hwf Hrun) as [t D].
  by rewrite (evolves_since _ _ _ (d_evolves _ _ _ _ _ _ _ D)).
Qed.

Lemma sendErrors_spec fuel errors : ∀ s,
  wf s →
  ∃ t, evolves s (sendErrors behaviour fuel errors s) t ∧
    (∀ h, invocations h t ≤ deliveries h t) ∧
    (∀ i l, eventListeners s !! i = Some (Some l) →
       invocations (lid l) t = deliveries (lid l) t ∧
       (∀ o, o ∈ t → is_invocation (lid l) o →
          ∃ err, err ∈ errors ∧
                 o = ObsCallback (lid l) (callback l) (Some err) None) ∧
       (one_shot l = true →
          deliveries (lid l) t ≤ 1 ∧
          (deliveries (lid l) t = 1 → ObsUnregister (lid l) ∈ t))).
Proof.
  induction errors as [|err rest IH]; intros s Hwf; simpl.
  - exists []. split; [by apply evolves_refl|]. split; [done|].
    intros i l Hi. split; [done|]. split; [intros o Ho; inversion Ho|].
    intros _. unfold deliveries. simpl. split; lia.
  - destruct (sendError behaviour fuel err s) as [c1 s1] eqn:Hrun. simpl.
    pose proof (sendError_spec _ _ _ _ _ Hwf Hrun) as D.
    set (t1 := since s s1) in *.
    pose proof (d_evolves _ _ _ _ _ _ _ D) as E1.
    destruct (IH s1 (ev_wf _ _ _ E1)) as (t2 & E2 & Hle2 & Hmem2).
    exists (t1 ++ t2). split; [by eapply evolves_trans|]. split.
    + intros h. rewrite invocations_app, deliveries_app.
      pose proof (d_inv_le _ _ _ _ _ _ _ D h). pose proof (Hle2 h). lia.
    + intros i l Hi.
      destruct (d_member _ _ _ _ _ _ _ D i l Hi) as (Ha & Hb & Hc).
      change (matches l (Some err) None) with true in Ha, Hc.
      pose proof (d_once _ _ _ _ _ _ _ D (lid l)) as Honce.
      rewrite invocations_app, deliveries_app.
      destruct (ev_old _ _ _ E1 i l Hi) as [H1|[H1 Hu]].
      * destruct (Hmem2 i l H1) as (Ha2 & Hb2 & Hc2).
        split; [lia|]. split.
        -- intros o Ho Hinv. apply elem_of_app in Ho as [Ho|Ho].
           ++ exists err. split; [left|]. by apply Hb.
           ++ destruct (Hb2 o Ho Hinv) as (e' & He' & ->).
              exists e'. split; [by right | done].
        -- intros Hos. destruct (Hc2 Hos) as [Hd2 Hu2].
           assert (deliveries (lid l) t1 = 0) as Hz.
           { destruct (decide (deliveries (lid l) t1 = 1)) as [H1'|]; [|lia].
             destruct (ev_unreg_out _ _ _ E1 _ (Hc eq_refl Hos H1')) as [Hout _].
             destruct Hout. apply registered_lookup. eauto. }
           rewrite Hz. split; [lia|]. intros Hone.
           apply elem_of_app. right. apply Hu2. lia.
      * destruct (ev_unreg_out _ _ _ E1 _ Hu) as [Hout Hlt1].
        pose proof (no_delivery_when_out _ _ _ _ E2 Hout Hlt1) as Hz.
        pose proof (Hle2 (lid l)) as Hle.
        assert (Hzi : invocations (lid l) t2 = 0) by lia.
        rewrite Hz, Hzi. split; [lia|]. split.
        -- intros o Ho Hinv. apply elem_of_app in Ho as [Ho|Ho].
           ++ exists err. split; [left|]. by apply Hb.
           ++ exfalso. revert Hinv. by apply (proj1 (invocations_zero _ _) Hzi).
        -- intros Hos. split; [lia|]. intros _. apply elem_of_app. by left.
Qed.

End BurstFacts.

Section ReachFacts.

Variable behaviour :
  EventCallback → option Error → option EventInfo → StubEventService → list Action.

Lemma walk_reaches error event fuel s k l c s' :
  wf s → error ≠ None ∨ event ≠ None →
  eventListeners s !! k = Some (Some l) →
  quiet_others behaviour k error event s → k < fuel →
  forEach behaviour fuel 0 error event s = (c, s') →
  ObsOnEvent (lid l) error event ∈ since s s'.
Proof.
  intros Hwf Hargs Hk Hq Hfuel Hrun.
  pose proof (lookup_lt_Some _ _ _ Hk) as Hlen.
  destruct (walk_quiet behaviour error event Hargs k fuel 0 s Hwf)
    as (s1 & t1 & Hwalk & E1 & Hlen1 & Hslots & _); [simpl; lia | lia | |].
  { intros j l' Hj Hsj _. apply (Hq j l' Hsj). lia. }
  rewrite Hwalk in Hrun. simpl in Hrun.
  destruct (Hslots k l Hk) as [Hk1|(Hr & _)]; [|lia].
  destruct (fuel - k) as [|f] eqn:Hf; [lia|]. simpl in Hrun. rewrite Hk1 in Hrun.
  destruct (onEvent behaviour l error event s1) as [c1 s2] eqn:Hon.
  destruct (onEvent_spec behaviour _ _ _ _ _ _ _ (ev_wf _ _ _ E1) Hk1 Hon)
    as (ta & Hta & E2 & _).
  assert (∃ t3, evolves s2 s' t3) as [t3 E3].
  { destruct c1 as [[]|e|].
    - destruct (forEach_spec behaviour _ _ _ _ _ _ _ (ev_wf _ _ _ E2) Hrun)
        as [t3 D]. exists t3. apply D.
    - inversion Hrun; subst. exists []. apply evolves_refl, E2.
    - inversion Hrun; subst. exists []. apply evolves_refl, E2. }
  rewrite (evolves_since _ _ _
             (evolves_trans _ _ _ _ _ E1 (evolves_trans _ _ _ _ _ E2 E3))).
  apply elem_of_app. right. apply elem_of_app. left. left.
Qed.

Lemma walk_all_quiet error event fuel s :
  wf s → error ≠ None ∨ event ≠ None →
  (∀ j l', eventListeners s !! j = Some (Some l') →
           matches l' error event = true →
           ∀ s1, behaviour (callback l') error event s1 = []) →
  length (eventListeners s) < fuel →
  ∃ s', forEach behaviour fuel 0 error event s = (Normal tt, s') ∧
        ∀ j l', eventListeners s !! j = Some (Some l') →
          eventListeners s' !! j = Some (Some l') ∨
          (matches l' error event = true ∧ one_shot l' = true).
Proof.
  intros Hwf Hargs Hq Hfuel.
  destruct (walk_quiet behaviour error event Hargs
              (length (eventListeners s)) fuel 0 s Hwf)
    as (s1 & t1 & Hwalk & E1 & Hlen1 & Hslots & _); [simpl; lia | lia | |].
  { intros j l' _ Hsj. by apply (Hq j l'). }
  exists s1. split.
  - rewrite Hwalk. simpl.
    destruct (fuel - length (eventListeners s)) as [|f] eqn:Hf; [lia|]. simpl.
    rewrite <- Hlen1. by rewrite (proj2 (lookup_ge_None _ _) (le_n _)).
  - intros j l' Hj. destruct (Hslots j l' Hj) as [H|(_ & Hm & Hos & _)];
      [by left | by right].
Qed.

End ReachFacts.

(** ** The history without assumptions on the service *)

Lemma unregister_trace h s :
  ∃ t, trace (unregisterEventListener h s).2 = trace s ++ t ∧ Forall set_obs t.
Proof.
  unfold unregisterEventListener, set_delete.
  destruct (list_find _ _) as [[i x]|]; simpl.
  - exists [ObsUnregister h]. split; [done|]. by apply Forall_singleton.
  - exists []. by rewrite app_nil_r.
Qed.

Lemma run_actions_trace acts : ∀ s,
  ∃ t, trace (run_actions acts s).2 = trace s ++ t ∧ Forall set_obs t.
Proof.
  induction acts as [|a acts IH]; intros s.
  - exists []. simpl. by rewrite app_nil_r.
  - destruct a as [txid cb opts|h|e]; cbn [run_actions].
    + destruct (IH (registerTransactionListener txid cb opts s).2)
        as (t & Ht & Hs).
      exists (ObsRegister (nextObject s) :: t). split.
      * rewrite Ht. simpl. by rewrite <- app_assoc.
      * by apply Forall_cons.
    + destruct (unregister_trace h s) as (t1 & Ht1 & Hs1).
      destruct (unregisterEventListener h s) as [[[]|e|] s1] eqn:Hu;
        simpl in Ht1; try (exists t1; by split).
      destruct (IH s1) as (t2 & Ht2 & Hs2). exists (t1 ++ t2). split.
      * rewrite Ht2, Ht1. by rewrite app_assoc.
      * by apply Forall_app.
    + exists []. simpl. by rewrite app_nil_r.
Qed.

Lemma set_obs_carries error event t :
  Forall set_obs t → Forall (carries error event) t.
Proof. intros H. eapply Forall_impl; [exact H|]. by intros []. Qed.

Section HistoryFacts.

Variable behaviour :
  EventCallback → option Error → option EventInfo → StubEventService → list Action.

Lemma onEvent_trace l error event s :
  ∃ t, trace (onEvent behaviour l error event s).2 = trace s ++ t ∧
       Forall (carries error event) t.
Proof.
  assert (Hcb : ∀ s1 t1, trace s1 = trace s ++ t1 →
            Forall (carries error event) t1 →
            ∃ t, trace (invoke_callback behaviour l error event s1).2 = trace s ++ t ∧
                 Forall (carries error event) t).
  { intros s1 t1 Ht1 Hc1. unfold invoke_callback.
    destruct (run_actions_trace
                (behaviour (callback l) error event
                   (log (ObsCallback (lid l) (callback l) error event) s1))
                (log (ObsCallback (lid l) (callback l) error event) s1))
      as (t2 & Ht2 & Hs2).
    exists (t1 ++ ObsCallback (lid l) (callback l) error event :: t2). split.
    - rewrite Ht2. simpl. rewrite Ht1. rewrite <- !app_assoc. done.
    - apply Forall_app. split; [done|]. apply Forall_cons. split; [done|].
      by apply set_obs_carries. }
  unfold onEvent.
  destruct (condition l error event) as [[|]|e|]; simpl.
  - destruct (one_shot l).
    + destruct (unregister_trace (lid l) (log (ObsOnEvent (lid l) error event) s))
        as (t1 & Ht1 & Hs1).
      destruct (unregisterEventListener (lid l) _) as [[[]|e|] s1] eqn:Hu;
        simpl in Ht1.
      * apply (Hcb s1 (ObsOnEvent (lid l) error event :: t1)).
        -- rewrite Ht1. by rewrite <- app_assoc.
        -- apply Forall_cons. split; [done|]. by apply set_obs_carries.
      * exists (ObsOnEvent (lid l) error event :: t1). split.
        -- simpl. rewrite Ht1. by rewrite <- app_assoc.
        -- apply Forall_cons. split; [done|]. by apply set_obs_carries.
      * exists (ObsOnEvent (lid l) error event :: t1). split.
        -- simpl. rewrite Ht1. by rewrite <- app_assoc.
        -- apply Forall_cons. split; [done|]. by apply set_obs_carries.
    + apply (Hcb _ [ObsOnEvent (lid l) error event]); [done|].
      by apply Forall_singleton.
  - exists [ObsOnEvent (lid l) error event]. split; [done|].
    by apply Forall_singleton.
  - exists [ObsOnEvent (lid l) error event]. split; [done|].
    by apply Forall_singleton.
  - exists [ObsOnEvent (lid l) error event]. split; [done|].
    by apply Forall_singleton.
Qed.

Lemma forEach_trace fuel error event : ∀ idx s,
  ∃ t, trace (forEach behaviour fuel idx error event s).2 = trace s ++ t ∧
       Forall (carries error event) t.
Proof.
  induction fuel as [|fuel IH]; intros idx s; simpl.
  - exists []. by rewrite app_nil_r.
  - destruct (eventListeners s !! idx) as [[l|]|].
    + destruct (onEvent_trace l error event s) as (t1 & Ht1 & Hc1).
      destruct (onEvent behaviour l error event s) as [[[]|e|] s1];
        simpl in Ht1; try (exists t1; by split).
      destruct (IH (S idx) s1) as (t2 & Ht2 & Hc2). exists (t1 ++ t2). split.
      * rewrite Ht2, Ht1. by rewrite app_assoc.
      * by apply Forall_app.
    + apply IH.
    + exists []. by rewrite app_nil_r.
Qed.

End HistoryFacts.

(** ** Termination of the walk *)

Lemma unregister_length h s :
  length (eventListeners (unregisterEventListener h s).2) =
  length (eventListeners s).
Proof.
  unfold unregisterEventListener, set_delete.
  destruct (list_find _ _) as [[i x]|]; simpl; [|done].
  by rewrite length_insert.
Qed.

Lemma unregister_finishes h s : (unregisterEventListener h s).1 ≠ Unfinished.
Proof.
  unfold unregisterEventListener, set_delete.
  by destruct (list_find _ _) as [[i x]|].
Qed.

Lemma run_actions_finishes acts : ∀ s, (run_actions acts s).1 ≠ Unfinished.
Proof.
  induction acts as [|a acts IH]; intros s; [done|].
  destruct a as [txid cb opts|h|e]; cbn [run_actions]; [apply IH| |done].
  pose proof (unregister_finishes h s) as Hu.
  destruct (unregisterEventListener h s) as [[[]|e|] s1]; simpl in *;
    [apply IH | done | done].
Qed.

Lemma run_actions_length acts : ∀ s,
  (∀ txid cb opts, DoRegister txid cb opts ∉ acts) →
  length (eventListeners (run_actions acts s).2) = length (eventListeners s).
Proof.
  induction acts as [|a acts IH]; intros s Hno; [done|].
  assert (Hrest : ∀ txid cb opts, DoRegister txid cb opts ∉ acts).
  { intros txid cb opts Hin. apply (Hno txid cb opts). by right. }
  destruct a as [txid cb opts|h|e]; cbn [run_actions].
  - destruct (Hno txid cb opts). left.
  - pose proof (unregister_length h s) as Hl.
    destruct (unregisterEventListener h s) as [[[]|e|] s1]; simpl in *;
      [|done|done].
    by rewrite IH.
  - done.
Qed.

Section TerminationFacts.

Variable behaviour :
  EventCallback → option Error → option EventInfo → StubEventService → list Action.
Hypothesis Hno : never_registers behaviour.

Lemma onEvent_finishes l error event s :
  (onEvent behaviour l error event s).1 ≠ Unfinished ∧
  length (eventListeners (onEvent behaviour l error event s).2) =
  length (eventListeners s).
Proof.
  assert (Hcb : ∀ s1, length (eventListeners s1) = length (eventListeners s) →
            (invoke_callback behaviour l error event s1).1 ≠ Unfinished ∧
            length (eventListeners (invoke_callback behaviour l error event s1).2) =
            length (eventListeners s)).
  { intros s1 Hl. unfold invoke_callback. split; [apply run_actions_finishes|].
    rewrite run_actions_length; [done|]. intros txid cb opts. apply Hno. }
  unfold onEvent. destruct (condition l error event) as [[|]|e|] eqn:Ec;
    [| done | done |].
  - destruct (one_shot l); [|by apply Hcb].
    pose proof (unregister_length (lid l) (log (ObsOnEvent (lid l) error event) s))
      as Hl.
    pose proof (unregister_finishes (lid l) (log (ObsOnEvent (lid l) error event) s))
      as Hu.
    destruct (unregisterEventListener _ _) as [[[]|e|] s1]; simpl in *;
      [by apply Hcb | done | done].
  - by destruct error, event.
Qed.

Lemma forEach_finishes error event fuel : ∀ idx s,
  length (eventListeners s) - idx < fuel →
  (forEach behaviour fuel idx error event s).1 ≠ Unfinished.
Proof.
  induction fuel as [|fuel IH]; intros idx s Hfuel; [lia|]. simpl.
  destruct (eventListeners s !! idx) as [[l|]|] eqn:Hidx; [| |done].
  - apply lookup_lt_Some in Hidx.
    destruct (onEvent_finishes l error event s) as [Hc Hl].
    destruct (onEvent behaviour l error event s) as [[[]|e|] s1]; simpl in *;
      [|done|done].
    apply IH. lia.
  - apply lookup_lt_Some in Hidx. apply IH. lia.
Qed.

End TerminationFacts.

(** ** The invariant is kept *)

Lemma register_member txid cb opts s :
  wf s →
  let r := registerTransactionListener txid cb opts s in
  eventListeners r.2 !! length (eventListeners s) = Some (Some r.1) ∧
  transactionId r.1 = txid ∧ callback r.1 = cb ∧ options r.1 = opts ∧
  wf r.2.
Proof.
  intros Hwf r. destruct (register_spec txid cb opts s Hwf) as (H1 & H2 & _ & E).
  fold r in H1, H2, E. split.
  - rewrite H2, H1, lookup_app_r by done. by rewrite Nat.sub_diag.
  - rewrite H1. split; [done|]. split; [done|]. split; [done|]. apply E.
Qed.

Lemma sound_unregister h s : sound s → sound (unregisterEventListener h s).2.
Proof.
  intros Hs. destruct (decide (registered h s)) as [Hr|Hn].
  - destruct (unregister_normal h s (proj1 Hs) Hr)
      as (s' & i & l & Hu & _ & _ & _ & _ & E).
    rewrite Hu. by eapply sound_evolves.
  - by rewrite (unregister_abrupt h s Hn).
Qed.

Lemma sound_sendEvent behaviour fuel event s :
  sound s → sound (sendEvent behaviour fuel event s).2.
Proof.
  intros Hs. destruct (sendEvent behaviour fuel event s) as [c s'] eqn:Hrun.
  pose proof (sendEvent_spec behaviour _ _ _ _ _ (proj1 Hs) Hrun) as D.
  eapply sound_evolves; [done | apply D].
Qed.

Lemma sound_sendError behaviour fuel error s :
  sound s → sound (sendError behaviour fuel error s).2.
Proof.
  intros Hs. destruct (sendError behaviour fuel error s) as [c s'] eqn:Hrun.
  pose proof (sendError_spec behaviour _ _ _ _ _ (proj1 Hs) Hrun) as D.
  eapply sound_evolves; [done | apply D].
Qed.

(** ** The claims about the event service *)

Lemma wf_two_listeners : wf two_listeners.
Proof. apply sound_register, sound_register, sound_new. Qed.

Lemma sound_two_listeners : sound two_listeners.
Proof. apply sound_register, sound_register, sound_new. Qed.

(** C5. [unregisterEventListener h] on a handle that is not a member of
    the listener set throws the "not registered" error and leaves the
    service as it was; on a member it returns, the handle is no longer
    a member, and every other listener is a member exactly when it was
    one before. *)
Theorem unregister_contract (s : StubEventService) (h : nat) :
  wf s →
  (¬ registered h s →
   unregisterEventListener h s =
     (Abrupt "unregisterEventLister called for listener that is not registered",
      s)) ∧
  (registered h s →
   ∃ s', unregisterEventListener h s = (Normal tt, s') ∧
         ¬ registered h s' ∧
         ∀ l, Some l ∈ eventListeners s' ↔
              Some l ∈ eventListeners s ∧ lid l ≠ h).
Proof.
  intros Hwf. split.
  - apply unregister_abrupt.
  - intros Hr.
    destruct (unregister_normal h s Hwf Hr)
      as (s' & i & l0 & Hu & Hi & Hid & Hdata & _ & E).
    exists s'. split; [done|]. split.
    { apply (ev_unreg_out _ _ _ E). left. }
    intros l. rewrite Hdata, !list_elem_of_lookup. split.
    + intros [j Hj]. rewrite list_lookup_insert in Hj.
      destruct (decide (i = j ∧ i < length (eventListeners s))) as [|Hne];
        [done|].
      split; [eauto|]. intros Hl. apply Hne. split.
      * apply (proj1 Hwf i j l0 l); [done | done | congruence].
      * by apply lookup_lt_Some in Hi.
    + intros [[j Hj] Hl]. exists j. rewrite list_lookup_insert_ne; [done|].
      intros ->. congruence.
Qed.

Lemma unregister_contract_witness :
  wf two_listeners ∧
  (¬ registered 5 two_listeners →
   unregisterEventListener 5 two_listeners =
     (Abrupt "unregisterEventLister called for listener that is not registered",
      two_listeners)) ∧
  (registered 0 two_listeners →
   ∃ s', unregisterEventListener 0 two_listeners = (Normal tt, s') ∧
         ¬ registered 0 s' ∧
         ∀ l, Some l ∈ eventListeners s' ↔
              Some l ∈ eventListeners two_listeners ∧ lid l ≠ 0).
Proof.
  split; [exact wf_two_listeners|]. split.
  - exact (proj1 (unregister_contract two_listeners 5 wf_two_listeners)).
  - exact (proj2 (unregister_contract two_listeners 0 wf_two_listeners)).
Defined.

(** C3. When a one-shot listener that is a member of the set matches,
    [onEvent] removes it before the callback: the body of the callback
    starts from a service in which the listener is not registered, the
    removal precedes the callback in the history, and whether the
    callback returns or throws the listener is not registered
    afterwards. *)
Theorem one_shot_unregisters_before_callback
    (behaviour : EventCallback → option Error → option EventInfo →
                 StubEventService → list Action)
    (s : StubEventService) (i : nat) (l : StubTransactionEventListener)
    (error : option Error) (event : option EventInfo)
    (c : Completion unit) (s' : StubEventService) :
  wf s → eventListeners s !! i = Some (Some l) →
  one_shot l = true → matches l error event = true →
  onEvent behaviour l error event s = (c, s') →
  (∃ s1, ¬ registered (lid l) s1 ∧
         (c, s') = run_actions (behaviour (callback l) error event s1) s1) ∧
  (∃ ta, Forall set_obs ta ∧
         since s s' = ObsOnEvent (lid l) error event
                      :: ObsUnregister (lid l)
                      :: ObsCallback (lid l) (callback l) error event :: ta) ∧
  ¬ registered (lid l) s'.
Proof.
  intros Hwf Hi Hos Hm Hon.
  destruct (onEvent_spec behaviour _ _ _ _ _ _ _ Hwf Hi Hon) as (ta & Hta & E & _).
  unfold onEvent_obs in E. rewrite Hm, Hos in E. simpl in E.
  split; [|split].
  - unfold onEvent in Hon. unfold matches in Hm.
    destruct (condition l error event) as [[|]|e|]; try done.
    rewrite Hos in Hon.
    assert (Hr : registered (lid l) (log (ObsOnEvent (lid l) error event) s))
      by (apply registered_lookup; eauto).
    assert (Hwf0 : wf (log (ObsOnEvent (lid l) error event) s)) by done.
    destruct (unregister_normal _ _ Hwf0 Hr)
      as (s1 & j & l' & Hu & _ & _ & _ & _ & E1).
    rewrite Hu in Hon. unfold invoke_callback in Hon.
    exists (log (ObsCallback (lid l) (callback l) error event) s1). split.
    + apply (ev_unreg_out _ _ _ E1). left.
    + by rewrite Hon.
  - exists ta. split; [done|]. by apply evolves_since.
  - apply (ev_unreg_out _ _ _ E). right. left.
Qed.

Lemma one_shot_unregisters_before_callback_witness :
  let l := {| lid := 0; transactionId := "tx1"; callback := 0;
              options := default_options |} in
  let r := onEvent first_throws l None (Some tx1_event) two_listeners in
  r.1 = Abrupt "callback failed" ∧
  (∃ s1, ¬ registered 0 s1 ∧
         (r.1, r.2) = run_actions (first_throws 0 None (Some tx1_event) s1) s1) ∧
  (∃ ta, Forall set_obs ta ∧
         since two_listeners r.2 =
           ObsOnEvent 0 None (Some tx1_event)
           :: ObsUnregister 0
           :: ObsCallback 0 0 None (Some tx1_event) :: ta) ∧
  ¬ registered 0 r.2.
Proof.
  intros l r. split; [reflexivity|].
  exact (one_shot_unregisters_before_callback first_throws two_listeners 0 l
           None (Some tx1_event) r.1 r.2
           wf_two_listeners eq_refl eq_refl eq_refl eq_refl).
Defined.

(** The calls that [sendEvent] and [sendError] make on two listeners. *)
Example two_listeners_calls :
  since two_listeners (sendEvent silent 5 tx1_event two_listeners).2 =
    [ObsOnEvent 0 None (Some tx1_event); ObsUnregister 0;
     ObsCallback 0 0 None (Some tx1_event);
     ObsOnEvent 1 None (Some tx1_event); ObsUnregister 1;
     ObsCallback 1 1 None (Some tx1_event)] ∧
  since two_listeners (sendError silent 5 "disconnect" two_listeners).2 =
    [ObsOnEvent 0 (Some "disconnect") None; ObsUnregister 0;
     ObsCallback 0 0 (Some "disconnect") None;
     ObsOnEvent 1 (Some "disconnect") None; ObsUnregister 1;
     ObsCallback 1 1 (Some "disconnect") None].
Proof. split; reflexivity. Qed.




Lemma deliveries_pos h e v t : ObsOnEvent h e v ∈ t → 1 ≤ deliveries h t.
Proof.
  intros Hin. unfold deliveries.
  apply (proj2 (count_pos (is_delivery h) t)). by exists (ObsOnEvent h e v).
Qed.

Lemma quiet_others_silent k error event s : quiet_others silent k error event s.
Proof. by intros j l' _ _ s1. Qed.

(** A burst of three errors on two one-shot listeners for "tx1": each
    is called once, with the first error, and the set is empty after. *)
Example error_burst_run :
  let s' := sendErrors silent 5 ["disconnect"; "decode"; "timeout"]
              two_listeners in
  since two_listeners s' =
    [ObsOnEvent 0 (Some "disconnect") None; ObsUnregister 0;
     ObsCallback 0 0 (Some "disconnect") None;
     ObsOnEvent 1 (Some "disconnect") None; ObsUnregister 1;
     ObsCallback 1 1 (Some "disconnect") None] ∧
  eventListeners s' = [None; None].
Proof. split; reflexivity. Qed.

(** C4. Take a listener with default options that is a member of the
    set and one [sendEvent]. Its callback is called at most once. If
    the event has the listener's transaction id, every delivery to the
    listener calls the callback, with the event and no error, and after
    a delivery the listener is not registered. If the event has another
    transaction id, the callback is not called. When the callbacks of
    the other listeners do nothing and the budget covers the set, the
    event is delivered to the listener exactly once, and an event for
    another transaction leaves the listener registered. *)
Theorem default_listener_fires_once
    (behaviour : EventCallback → option Error → option EventInfo →
                 StubEventService → list Action)
    (fuel : nat) (event : EventInfo) (s : StubEventService)
    (k : nat) (l : StubTransactionEventListener)
    (c : Completion unit) (s' : StubEventService) :
  wf s → eventListeners s !! k = Some (Some l) →
  unregister (options l) = None →
  sendEvent behaviour fuel event s = (c, s') →
  invocations (lid l) (since s s') ≤ 1 ∧
  (ev_transactionId event = Some (transactionId l) →
   invocations (lid l) (since s s') = deliveries (lid l) (since s s') ∧
   (deliveries (lid l) (since s s') = 1 →
    ObsCallback (lid l) (callback l) None (Some event) ∈ since s s' ∧
    ¬ registered (lid l) s')) ∧
  (ev_transactionId event ≠ Some (transactionId l) →
   invocations (lid l) (since s s') = 0) ∧
  (quiet_others behaviour k None (Some event) s →
   length (eventListeners s) < fuel →
   deliveries (lid l) (since s s') = 1 ∧
   (ev_transactionId event ≠ Some (transactionId l) →
    c = Normal tt ∧ registered (lid l) s')).
Proof.
  intros Hwf Hk Hopt Hrun.
  pose proof (sendEvent_spec behaviour _ _ _ _ _ Hwf Hrun) as D.
  set (t := since s s') in *.
  pose proof (d_evolves _ _ _ _ _ _ _ D) as E.
  destruct (d_member _ _ _ _ _ _ _ D k l Hk) as (Ha & Hb & Hc).
  pose proof (d_once _ _ _ _ _ _ _ D (lid l)) as Honce.
  pose proof (d_inv_le _ _ _ _ _ _ _ D (lid l)) as Hle.
  assert (Hos : one_shot l = true) by (unfold one_shot; by rewrite Hopt).
  assert (Hm : matches l None (Some event) =
               bool_decide (ev_transactionId event = Some (transactionId l))).
  { unfold matches. simpl. by destruct (bool_decide _). }
  split; [lia|]. split; [|split].
  - intros Htx. rewrite Hm, bool_decide_eq_true_2 in Ha, Hc by done.
    split; [done|]. intros Hone. split.
    + assert (0 < invocations (lid l) t) as Hpos by lia.
      apply (proj1 (count_pos (is_invocation (lid l)) t)) in Hpos
        as (o & Ho & Hinv).
      by rewrite <- (Hb o Ho Hinv).
    + apply (ev_unreg_out _ _ _ E). by apply Hc.
  - intros Htx. by rewrite Hm, bool_decide_eq_false_2 in Ha.
  - intros Hq Hfuel.
    pose proof (lookup_lt_Some _ _ _ Hk) as Hlen.
    assert (Hargs : (None : option Error) ≠ None ∨ Some event ≠ None)
      by (by right).
    assert (Hkf : k < fuel) by lia.
    pose proof (walk_reaches behaviour _ _ _ _ _ _ _ _ Hwf
                  Hargs Hk Hq Hkf Hrun) as Hin.
    apply deliveries_pos in Hin. fold t in Hin. split; [lia|].
    intros Htx.
    destruct (walk_all_quiet behaviour None (Some event) fuel s Hwf Hargs)
      as (s2 & Hrun2 & Hslots); [|done|].
    { intros j l' Hj Hmj. destruct (decide (j = k)) as [->|Hne].
      - assert (l' = l) by congruence. subst l'.
        rewrite Hm, bool_decide_eq_false_2 in Hmj by done. done.
      - by apply (Hq j l'). }
    unfold sendEvent in Hrun. rewrite Hrun2 in Hrun. inversion Hrun; subst c s2.
    split; [done|]. apply registered_lookup. exists k, l. split; [|done].
    destruct (Hslots k l Hk) as [H|[Hmk _]]; [done|].
    rewrite Hm, bool_decide_eq_false_2 in Hmk by done. done.
Qed.

Lemma default_listener_fires_once_witness :
  let l := {| lid := 1; transactionId := "tx1"; callback := 1;
              options := default_options |} in
  let r := sendEvent second_throws 5 tx1_event two_listeners in
  let t := since two_listeners r.2 in
  wf two_listeners ∧
  invocations 1 t ≤ 1 ∧
  (ev_transactionId tx1_event = Some "tx1" →
   invocations 1 t = deliveries 1 t ∧
   (deliveries 1 t = 1 →
    ObsCallback 1 1 None (Some tx1_event) ∈ t ∧ ¬ registered 1 r.2)) ∧
  (ev_transactionId tx1_event ≠ Some "tx1" → invocations 1 t = 0) ∧
  (quiet_others second_throws 1 None (Some tx1_event) two_listeners →
   length (eventListeners two_listeners) < 5 →
   deliveries 1 t = 1 ∧
   (ev_transactionId tx1_event ≠ Some "tx1" →
    r.1 = Normal tt ∧ registered 1 r.2)).
Proof.
  intros l r t. split; [exact wf_two_listeners|].
  exact (default_listener_fires_once second_throws 5 tx1_event two_listeners
           1 l r.1 r.2 wf_two_listeners eq_refl eq_refl eq_refl).
Defined.

(** A listener registered with default options for "tx1": an event of
    "tx1" calls its callback once and empties the set, an event of
    "tx2" calls nothing and leaves it registered. *)
Example default_listener_run :
  let registration :=
    registerTransactionListener "tx1" 3 default_options
      (new_StubEventService "peer0") in
  let l := registration.1 in
  let s := registration.2 in
  since s (sendEvent silent 5 tx1_event s).2 =
    [ObsOnEvent (lid l) None (Some tx1_event); ObsUnregister (lid l);
     ObsCallback (lid l) 3 None (Some tx1_event)] ∧
  eventListeners (sendEvent silent 5 tx1_event s).2 = [None] ∧
  since s (sendEvent silent 5 tx2_event s).2 =
    [ObsOnEvent (lid l) None (Some tx2_event)] ∧
  eventListeners (sendEvent silent 5 tx2_event s).2 = [Some l].
Proof. repeat split; reflexivity. Qed.

(** A listener registered with [unregister: false]: two matching events
    call its callback twice and it stays registered. *)
Example persistent_listener_run :
  let s1 := (sendEvent silent 5 tx1_event persistent_listener).2 in
  let s2 := (sendEvent silent 5 tx1_event s1).2 in
  since persistent_listener s2 =
    [ObsOnEvent 0 None (Some tx1_event); ObsCallback 0 4 None (Some tx1_event);
     ObsOnEvent 0 None (Some tx1_event); ObsCallback 0 4 None (Some tx1_event)] ∧
  eventListeners s2 = eventListeners persistent_listener.
Proof. split; reflexivity. Qed.

(** ** Errors and callback arguments *)

Lemma unregistrations_none h t :
  ObsUnregister h ∉ t → unregistrations h t = 0.
Proof.
  intros Hn. pose proof (proj1 (unregistrations_pos h t)) as Hp.
  destruct (unregistrations h t); [done|]. destruct Hn. apply Hp. lia.
Qed.

Lemma quiet_others_first_unregisters_second error event :
  quiet_others first_unregisters_second 0 error event two_listeners.
Proof.
  intros j l' Hj Hne s1. destruct j as [|[|j]]; [done| |done].
  by inversion Hj.
Qed.

Section ErrorFacts.

Variable behaviour :
  EventCallback → option Error → option EventInfo → StubEventService → list Action.

(** Once a listener is out of the set, a burst of errors leaves it
    alone. *)
Lemma sendErrors_leaves_removed fuel errors s h :
  wf s → ¬ registered h s → h < nextObject s →
  let s' := sendErrors behaviour fuel errors s in
  deliveries h (since s s') = 0 ∧ invocations h (since s s') = 0 ∧
  unregistrations h (since s s') = 0 ∧ ¬ registered h s'.
Proof.
  intros Hwf Hout Hlt s'.
  destruct (sendErrors_spec behaviour fuel errors s Hwf) as (t & E & Hle & _).
  fold s' in E. rewrite (evolves_since _ _ _ E).
  pose proof (no_delivery_when_out _ _ _ _ E Hout Hlt) as Hz.
  pose proof (Hle h). split; [done|]. split; [lia|]. split.
  - apply unregistrations_none. intros Hu.
    destruct (ev_unreg_in _ _ _ E h Hu); [done | lia].
  - by apply (evolves_out _ _ _ _ E).
Qed.

Lemma sendErrors_app fuel e1 e2 : ∀ s,
  sendErrors behaviour fuel (e1 ++ e2) s =
  sendErrors behaviour fuel e2 (sendErrors behaviour fuel e1 s).
Proof. induction e1 as [|e e1 IH]; intros s; simpl; [done | apply IH]. Qed.

End ErrorFacts.

(** C1, as stated, fails. With two one-shot listeners registered:
    when the callback of the first unregisters the second,
    [sendError] returns without ever calling the second, so the error
    did not match every registered listener; when the callback of the
    first throws, the dispatch of the first error ends there, the
    second listener is still in the set after the first error, and it
    is the second error of the burst that invokes and unregisters it. *)
Lemma sendError_misses_registered_listener :
  let l := {| lid := 1; transactionId := "tx1"; callback := 1;
              options := default_options |} in
  wf two_listeners ∧ eventListeners two_listeners !! 1 = Some (Some l) ∧
  registered 1 two_listeners ∧ one_shot l = true ∧
  (let r := sendError first_unregisters_second 10 "disconnect" two_listeners in
   r.1 = Normal tt ∧
   deliveries 1 (since two_listeners r.2) = 0 ∧
   invocations 1 (since two_listeners r.2) = 0) ∧
  (let r1 := sendError first_throws 10 "disconnect" two_listeners in
   let r2 := sendError first_throws 10 "decode" r1.2 in
   r1.1 = Abrupt "callback failed" ∧
   deliveries 1 (since two_listeners r1.2) = 0 ∧
   registered 1 r1.2 ∧
   since r1.2 r2.2 =
     [ObsOnEvent 1 (Some "decode") None; ObsUnregister 1;
      ObsCallback 1 1 (Some "decode") None]).
Proof.
  intros l. split; [exact wf_two_listeners|]. split; [reflexivity|].
  split; [apply registered_lookup; by eexists 1, _|].
  split; [reflexivity|]. split.
  - split; [reflexivity|]. split; reflexivity.
  - split; [reflexivity|]. split; [reflexivity|].
    split; [apply registered_lookup; by eexists 1, _ | reflexivity].
Qed.

(** One error and the errors after it, seen from a listener that is a
    member when the error is sent. *)
Lemma error_from_member
    (behaviour : EventCallback → option Error → option EventInfo →
                 StubEventService → list Action)
    (fuel : nat) (err : Error) (later : list Error) (s : StubEventService)
    (i : nat) (l : StubTransactionEventListener) :
  wf s → eventListeners s !! i = Some (Some l) →
  let first := sendError behaviour fuel err s in
  let s' := sendErrors behaviour fuel later first.2 in
  let t1 := since s first.2 in
  let t2 := since first.2 s' in
  let t := since s s' in
  deliveries (lid l) t1 ≤ 1 ∧
  invocations (lid l) t1 = deliveries (lid l) t1 ∧
  (∀ o, o ∈ t1 → is_invocation (lid l) o →
        o = ObsCallback (lid l) (callback l) (Some err) None) ∧
  invocations (lid l) t = deliveries (lid l) t ∧
  (∀ o, o ∈ t → is_invocation (lid l) o →
        ∃ e, e ∈ err :: later ∧
             o = ObsCallback (lid l) (callback l) (Some e) None) ∧
  (first.1 = Normal tt →
   deliveries (lid l) t1 = 1 ∨
   (deliveries (lid l) t1 = 0 ∧ ObsUnregister (lid l) ∈ t1)) ∧
  (quiet_others behaviour i (Some err) None s → i < fuel →
   deliveries (lid l) t1 = 1) ∧
  (one_shot l = true →
   deliveries (lid l) t ≤ 1 ∧ unregistrations (lid l) t ≤ 1 ∧
   (deliveries (lid l) t = 1 →
    unregistrations (lid l) t = 1 ∧ ¬ registered (lid l) s') ∧
   (first.1 = Normal tt ∨ deliveries (lid l) t1 = 1 →
    unregistrations (lid l) t1 = 1 ∧ ¬ registered (lid l) first.2 ∧
    deliveries (lid l) t2 = 0 ∧ invocations (lid l) t2 = 0 ∧
    unregistrations (lid l) t2 = 0 ∧ ¬ registered (lid l) s')).
Proof.
  intros Hwf Hi first s' t1 t2 t. subst first s' t1 t2 t.
  destruct (sendError behaviour fuel err s) as [c1 s1] eqn:Hrun. simpl.
  pose proof (sendError_spec behaviour _ _ _ _ _ Hwf Hrun) as D.
  pose proof (d_evolves _ _ _ _ _ _ _ D) as E1.
  pose proof (d_once _ _ _ _ _ _ _ D (lid l)) as Honce.
  destruct (d_member _ _ _ _ _ _ _ D i l Hi) as (Ha1 & Hb1 & Hc1).
  change (matches l (Some err) None) with true in Ha1, Hc1.
  destruct (sendErrors_spec behaviour fuel (err :: later) s Hwf)
    as (t0 & E & _ & Hmem).
  simpl in E. rewrite Hrun in E. simpl in E.
  destruct (Hmem i l Hi) as (Ha & Hb & Hc).
  rewrite (evolves_since _ _ _ E).
  set (t1 := since s s1) in *.
  set (s' := sendErrors behaviour fuel later s1) in *.
  assert (Hcover : c1 = Normal tt →
            deliveries (lid l) t1 = 1 ∨
            (deliveries (lid l) t1 = 0 ∧ ObsUnregister (lid l) ∈ t1)).
  { intros Hn.
    destruct (d_cover _ _ _ _ _ _ _ D Hn i l ltac:(lia) Hi) as [H1|Hu];
      [by left|].
    destruct (decide (deliveries (lid l) t1 = 1)); [by left|].
    right. split; [lia | done]. }
  split; [done|]. split; [done|]. split; [done|]. split; [done|].
  split; [done|]. split; [done|]. split.
  - intros Hq Hfuel.
    assert (Hargs : Some err ≠ None ∨ (None : option EventInfo) ≠ None)
      by (by left).
    pose proof (walk_reaches behaviour _ _ _ _ _ _ _ _ Hwf
                  Hargs Hi Hq Hfuel Hrun) as Hin.
    apply deliveries_pos in Hin. fold t1 in Hin. lia.
  - intros Hos. destruct (Hc Hos) as [Hd Hu].
    split; [done|]. split; [apply E|]. split.
    + intros Hone. specialize (Hu Hone). split.
      * pose proof (ev_unreg_once _ _ _ E (lid l)).
        pose proof (proj2 (unregistrations_pos _ _) Hu). lia.
      * by apply (ev_unreg_out _ _ _ E).
    + intros Hreached.
      assert (Hu1 : ObsUnregister (lid l) ∈ t1).
      { destruct Hreached as [Hn|H1]; [|by apply Hc1].
        destruct (Hcover Hn) as [H1|[_ Hu1]]; [by apply Hc1 | done]. }
      destruct (ev_unreg_out _ _ _ E1 _ Hu1) as [Hout Hlt].
      split.
      * pose proof (ev_unreg_once _ _ _ E1 (lid l)).
        pose proof (proj2 (unregistrations_pos _ _) Hu1). lia.
      * split; [done|].
        apply (sendErrors_leaves_removed behaviour fuel later s1 (lid l)
                 (ev_wf _ _ _ E1) Hout Hlt).
Qed.

(** C1, amended. Take any error of a burst, with the errors sent
    before and after it, and a listener that is a member of the set
    when the error is sent, whatever transaction it watches.
    [sendError] calls [onEvent] on the listener at most once, and every
    such call, for this or a later error, ends in a call of its
    callback with that error and no event. When [sendError] returns,
    the listener was called exactly once or a callback removed it
    before the walk reached it; when the callbacks of the other
    listeners do nothing, it was called. A one-shot listener is called
    and removed at most once over the rest of the burst, and a call
    means exactly one removal. Once the error has reached it, or once
    the [sendError] of the error has returned, it has been removed
    exactly once and is out of the set, and the later errors neither
    call it nor remove it again. *)
Theorem error_reaches_and_unregisters_once
    (behaviour : EventCallback → option Error → option EventInfo →
                 StubEventService → list Action)
    (fuel : nat) (earlier : list Error) (err : Error) (later : list Error)
    (s : StubEventService) (i : nat) (l : StubTransactionEventListener) :
  wf s →
  let s0 := sendErrors behaviour fuel earlier s in
  eventListeners s0 !! i = Some (Some l) →
  let sent := sendError behaviour fuel err s0 in
  let s' := sendErrors behaviour fuel later sent.2 in
  let t1 := since s0 sent.2 in
  let t2 := since sent.2 s' in
  let t := since s0 s' in
  sendErrors behaviour fuel (earlier ++ err :: later) s = s' ∧
  deliveries (lid l) t1 ≤ 1 ∧
  invocations (lid l) t1 = deliveries (lid l) t1 ∧
  (∀ o, o ∈ t1 → is_invocation (lid l) o →
        o = ObsCallback (lid l) (callback l) (Some err) None) ∧
  invocations (lid l) t = deliveries (lid l) t ∧
  (∀ o, o ∈ t → is_invocation (lid l) o →
        ∃ e, e ∈ err :: later ∧
             o = ObsCallback (lid l) (callback l) (Some e) None) ∧
  (sent.1 = Normal tt →
   deliveries (lid l) t1 = 1 ∨
   (deliveries (lid l) t1 = 0 ∧ ObsUnregister (lid l) ∈ t1)) ∧
  (quiet_others behaviour i (Some err) None s0 → i < fuel →
   deliveries (lid l) t1 = 1) ∧
  (one_shot l = true →
   deliveries (lid l) t ≤ 1 ∧ unregistrations (lid l) t ≤ 1 ∧
   (deliveries (lid l) t = 1 →
    unregistrations (lid l) t = 1 ∧ ¬ registered (lid l) s') ∧
   (sent.1 = Normal tt ∨ deliveries (lid l) t1 = 1 →
    unregistrations (lid l) t1 = 1 ∧ ¬ registered (lid l) sent.2 ∧
    deliveries (lid l) t2 = 0 ∧ invocations (lid l) t2 = 0 ∧
    unregistrations (lid l) t2 = 0 ∧ ¬ registered (lid l) s')).
Proof.
  intros Hwf s0 Hi sent s' t1 t2 t.
  destruct (sendErrors_spec behaviour fuel earlier s Hwf) as (t0 & E0 & _).
  split; [apply sendErrors_app|].
  exact (error_from_member behaviour fuel err later s0 i l
           (ev_wf _ _ _ E0) Hi).
Qed.

Lemma quiet_others_after_throw :
  quiet_others first_throws 1 (Some "decode") None
    (sendErrors first_throws 5 ["disconnect"] two_listeners).
Proof.
  intros j l' Hj Hne s1. destruct j as [|[|j]]; [|done|]; inversion Hj.
Qed.

Lemma error_reaches_and_unregisters_once_witness :
  let l := {| lid := 1; transactionId := "tx1"; callback := 1;
              options := default_options |} in
  let s0 := sendErrors first_throws 5 ["disconnect"] two_listeners in
  let sent := sendError first_throws 5 "decode" s0 in
  let s' := sendErrors first_throws 5 ["timeout"] sent.2 in
  let t1 := since s0 sent.2 in
  let t2 := since sent.2 s' in
  let t := since s0 s' in
  (wf two_listeners ∧ eventListeners s0 !! 1 = Some (Some l) ∧
   sent.1 = Normal tt ∧
   quiet_others first_throws 1 (Some "decode") None s0 ∧
   1 < 5 ∧ one_shot l = true ∧ deliveries 1 t = 1) ∧
  sendErrors first_throws 5 ["disconnect"; "decode"; "timeout"]
    two_listeners = s' ∧
  deliveries 1 t1 ≤ 1 ∧
  invocations 1 t1 = deliveries 1 t1 ∧
  (∀ o, o ∈ t1 → is_invocation 1 o →
        o = ObsCallback 1 1 (Some "decode") None) ∧
  invocations 1 t = deliveries 1 t ∧
  (∀ o, o ∈ t → is_invocation 1 o →
        ∃ e, e ∈ ["decode"; "timeout"] ∧
             o = ObsCallback 1 1 (Some e) None) ∧
  (deliveries 1 t1 = 1 ∨ (deliveries 1 t1 = 0 ∧ ObsUnregister 1 ∈ t1)) ∧
  deliveries 1 t1 = 1 ∧
  (deliveries 1 t ≤ 1 ∧ unregistrations 1 t ≤ 1) ∧
  (unregistrations 1 t = 1 ∧ ¬ registered 1 s') ∧
  (unregistrations 1 t1 = 1 ∧ ¬ registered 1 sent.2 ∧
   deliveries 1 t2 = 0 ∧ invocations 1 t2 = 0 ∧
   unregistrations 1 t2 = 0 ∧ ¬ registered 1 s').
Proof.
  intros l s0 sent s' t1 t2 t.
  pose proof (error_reaches_and_unregisters_once first_throws 5
                ["disconnect"] "decode" ["timeout"] two_listeners 1 l
                wf_two_listeners eq_refl) as H.
  cbv zeta in H.
  destruct H as (H0 & H1 & H2 & H2' & H3 & H4 & H5 & H6 & H7).
  destruct (H7 eq_refl) as (H8 & H9 & H10 & H11).
  split.
  { split; [exact wf_two_listeners|]. split; [reflexivity|].
    split; [reflexivity|]. split; [exact quiet_others_after_throw|].
    split; [lia|]. split; reflexivity. }
  split; [exact H0|].
  split; [exact H1|]. split; [exact H2|]. split; [exact H2'|].
  split; [exact H3|]. split; [exact H4|]. split; [exact (H5 eq_refl)|].
  split; [exact (H6 quiet_others_after_throw ltac:(lia))|].
  split; [exact (conj H8 H9)|]. split; [exact (H10 eq_refl)|].
  exact (H11 (or_introl eq_refl)).
Defined.

(** Such a burst, step by step: the callback of the first listener
    throws on the first error, the second error calls the second
    listener, and the third error finds the set empty. *)
Example error_burst_with_throw :
  let s0 := sendErrors first_throws 5 ["disconnect"] two_listeners in
  let sent := sendError first_throws 5 "decode" s0 in
  let s' := sendErrors first_throws 5 ["timeout"] sent.2 in
  since two_listeners s0 =
    [ObsOnEvent 0 (Some "disconnect") None; ObsUnregister 0;
     ObsCallback 0 0 (Some "disconnect") None] ∧
  since s0 sent.2 =
    [ObsOnEvent 1 (Some "decode") None; ObsUnregister 1;
     ObsCallback 1 1 (Some "decode") None] ∧
  since sent.2 s' = [] ∧
  eventListeners s' = [None; None].
Proof. split; [reflexivity|]. split; [reflexivity|]. split; reflexivity. Qed.

(** A burst on three listeners with callbacks that do nothing: each
    listener is called with the first error, the one for "tx2"
    included; the two one-shot listeners leave the set and the third is
    called again by every later error. *)
Example error_burst_on_three_listeners :
  let first := sendError silent 5 "disconnect" three_listeners in
  let s' := sendErrors silent 5 ["decode"; "timeout"] first.2 in
  since three_listeners first.2 =
    [ObsOnEvent 0 (Some "disconnect") None; ObsUnregister 0;
     ObsCallback 0 0 (Some "disconnect") None;
     ObsOnEvent 1 (Some "disconnect") None; ObsUnregister 1;
     ObsCallback 1 1 (Some "disconnect") None;
     ObsOnEvent 2 (Some "disconnect") None;
     ObsCallback 2 2 (Some "disconnect") None] ∧
  since first.2 s' =
    [ObsOnEvent 2 (Some "decode") None;
     ObsCallback 2 2 (Some "decode") None;
     ObsOnEvent 2 (Some "timeout") None;
     ObsCallback 2 2 (Some "timeout") None] ∧
  eventListeners s' =
    [None; None;
     Some {| lid := 2; transactionId := "tx1"; callback := 2;
             options := keep_options |}].
Proof. split; [reflexivity|]. split; reflexivity. Qed.

Section CallbackFacts.

Variable behaviour :
  EventCallback → option Error → option EventInfo → StubEventService → list Action.

(** What a walk over the whole set does about the callback of one
    member. *)
Lemma walk_calls_back error event fuel s i l c s' :
  wf s → error ≠ None ∨ event ≠ None →
  eventListeners s !! i = Some (Some l) →
  forEach behaviour fuel 0 error event s = (c, s') →
  Forall (carries error event) (since s s') ∧
  (∀ h, invocations h (since s s') ≤ deliveries h (since s s') ∧
        deliveries h (since s s') ≤ 1) ∧
  invocations (lid l) (since s s') =
    (if matches l error event then deliveries (lid l) (since s s') else 0) ∧
  (∀ o, o ∈ since s s' → is_invocation (lid l) o →
        o = ObsCallback (lid l) (callback l) error event) ∧
  (c = Normal tt → matches l error event = true →
   invocations (lid l) (since s s') = 1 ∨
   (invocations (lid l) (since s s') = 0 ∧
    ObsUnregister (lid l) ∈ since s s')) ∧
  (quiet_others behaviour i error event s → i < fuel →
   matches l error event = true →
   invocations (lid l) (since s s') = 1).
Proof.
  intros Hwf Hargs Hi Hrun.
  destruct (forEach_spec behaviour _ _ _ _ _ _ _ Hwf Hrun) as [t D].
  pose proof (walk_reaches behaviour error event fuel s i l c s' Hwf Hargs Hi)
    as Hreach.
  destruct (forEach_trace behaviour fuel error event 0 s) as (t' & Ht' & Hcar).
  rewrite Hrun in Ht'. simpl in Ht'. rewrite (since_app _ _ _ Ht') in *.
  pose proof (since_app _ _ _ (ev_trace _ _ _ (d_evolves _ _ _ _ _ _ _ D)))
    as Heq.
  rewrite (since_app _ _ _ Ht') in Heq. subst t'.
  pose proof (d_once _ _ _ _ _ _ _ D) as Honce.
  pose proof (d_inv_le _ _ _ _ _ _ _ D) as Hle.
  destruct (d_member _ _ _ _ _ _ _ D i l Hi) as (Ha & Hb & _).
  split; [done|]. split; [by intros h|]. split; [done|]. split; [done|].
  split.
  - intros Hn Hm. rewrite Hm in Ha. rewrite Ha.
    destruct (d_cover _ _ _ _ _ _ _ D Hn i l ltac:(lia) Hi) as [H1|Hu];
      [by left|].
    destruct (decide (deliveries (lid l) t = 1)); [by left|].
    right. split; [|done]. specialize (Honce (lid l)). lia.
  - intros Hq Hfuel Hm. rewrite Hm in Ha. rewrite Ha.
    pose proof (Hreach Hq Hfuel Hrun) as Hin.
    apply deliveries_pos in Hin. specialize (Honce (lid l)). lia.
Qed.

End CallbackFacts.

(** C9. Take a listener that is a member of the set. Every callback
    call that [sendEvent event] makes, on any listener, carries the
    event and an undefined error, and every one that [sendError error]
    makes carries the error and an undefined event: each call carries
    exactly one of the two. No callback is called without an [onEvent]
    call on its listener, and no listener has [onEvent] called twice in
    one dispatch. Every [onEvent] call on the member calls its callback
    exactly once when the member matches (an error always matches, an
    event when it is for the member's transaction) and not at all
    otherwise. When the dispatch returns, the callback of a matched
    member was called exactly once, unless another callback removed the
    member before the walk reached it; when the callbacks of the other
    listeners do nothing, it was called exactly once. *)
Theorem callback_gets_error_xor_event
    (behaviour : EventCallback → option Error → option EventInfo →
                 StubEventService → list Action)
    (fuel : nat) (s : StubEventService) (event : EventInfo) (error : Error)
    (i : nat) (l : StubTransactionEventListener) :
  wf s → eventListeners s !! i = Some (Some l) →
  let sent := sendEvent behaviour fuel event s in
  let failed := sendError behaviour fuel error s in
  let te := since s sent.2 in
  let tr := since s failed.2 in
  Forall (carries None (Some event)) te ∧
  Forall (carries (Some error) None) tr ∧
  (∀ h, invocations h te ≤ deliveries h te ∧ deliveries h te ≤ 1 ∧
        invocations h tr ≤ deliveries h tr ∧ deliveries h tr ≤ 1) ∧
  invocations (lid l) te =
    (if bool_decide (ev_transactionId event = Some (transactionId l))
     then deliveries (lid l) te else 0) ∧
  invocations (lid l) tr = deliveries (lid l) tr ∧
  (∀ o, o ∈ te → is_invocation (lid l) o →
        o = ObsCallback (lid l) (callback l) None (Some event)) ∧
  (∀ o, o ∈ tr → is_invocation (lid l) o →
        o = ObsCallback (lid l) (callback l) (Some error) None) ∧
  (sent.1 = Normal tt → ev_transactionId event = Some (transactionId l) →
   invocations (lid l) te = 1 ∨
   (invocations (lid l) te = 0 ∧ ObsUnregister (lid l) ∈ te)) ∧
  (failed.1 = Normal tt →
   invocations (lid l) tr = 1 ∨
   (invocations (lid l) tr = 0 ∧ ObsUnregister (lid l) ∈ tr)) ∧
  (quiet_others behaviour i None (Some event) s → i < fuel →
   ev_transactionId event = Some (transactionId l) →
   invocations (lid l) te = 1) ∧
  (quiet_others behaviour i (Some error) None s → i < fuel →
   invocations (lid l) tr = 1).
Proof.
  intros Hwf Hi sent failed te tr. subst te tr sent failed.
  destruct (sendEvent behaviour fuel event s) as [ce se] eqn:He.
  destruct (sendError behaviour fuel error s) as [cr sr] eqn:Hr. simpl.
  destruct (walk_calls_back behaviour None (Some event) fuel s i l ce se
              Hwf ltac:(by right) Hi He) as (A1 & A2 & A3 & A4 & A5 & A6).
  destruct (walk_calls_back behaviour (Some error) None fuel s i l cr sr
              Hwf ltac:(by left) Hi Hr) as (B1 & B2 & B3 & B4 & B5 & B6).
  assert (Hm : matches l None (Some event) =
               bool_decide (ev_transactionId event = Some (transactionId l))).
  { unfold matches, condition. by destruct (bool_decide _). }
  rewrite Hm in A3, A5, A6.
  change (matches l (Some error) None) with true in B3, B5, B6.
  split; [done|]. split; [done|].
  split; [intros h; destruct (A2 h), (B2 h); done|].
  split; [done|]. split; [done|]. split; [done|]. split; [done|].
  split; [intros Hn Hev; apply (A5 Hn); by apply bool_decide_eq_true_2|].
  split; [intros Hn; by apply B5|].
  split; [intros Hq Hf Hev; apply (A6 Hq Hf); by apply bool_decide_eq_true_2|].
  intros Hq Hf. by apply B6.
Qed.

Lemma callback_gets_error_xor_event_witness :
  let l := {| lid := 0; transactionId := "tx1"; callback := 0;
              options := default_options |} in
  let sent := sendEvent first_unregisters_second 5 tx1_event two_listeners in
  let failed :=
    sendError first_unregisters_second 5 "disconnect" two_listeners in
  let te := since two_listeners sent.2 in
  let tr := since two_listeners failed.2 in
  (wf two_listeners ∧ eventListeners two_listeners !! 0 = Some (Some l) ∧
   sent.1 = Normal tt ∧ failed.1 = Normal tt ∧
   ev_transactionId tx1_event = Some (transactionId l) ∧
   quiet_others first_unregisters_second 0 None (Some tx1_event)
     two_listeners ∧
   quiet_others first_unregisters_second 0 (Some "disconnect") None
     two_listeners ∧
   0 < 5) ∧
  Forall (carries None (Some tx1_event)) te ∧
  Forall (carries (Some "disconnect") None) tr ∧
  (∀ h, invocations h te ≤ deliveries h te ∧ deliveries h te ≤ 1 ∧
        invocations h tr ≤ deliveries h tr ∧ deliveries h tr ≤ 1) ∧
  invocations 0 te = deliveries 0 te ∧
  invocations 0 tr = deliveries 0 tr ∧
  (∀ o, o ∈ te → is_invocation 0 o →
        o = ObsCallback 0 0 None (Some tx1_event)) ∧
  (∀ o, o ∈ tr → is_invocation 0 o →
        o = ObsCallback 0 0 (Some "disconnect") None) ∧
  (invocations 0 te = 1 ∨ (invocations 0 te = 0 ∧ ObsUnregister 0 ∈ te)) ∧
  (invocations 0 tr = 1 ∨ (invocations 0 tr = 0 ∧ ObsUnregister 0 ∈ tr)) ∧
  invocations 0 te = 1 ∧
  invocations 0 tr = 1.
Proof.
  intros l sent failed te tr.
  pose proof (callback_gets_error_xor_event first_unregisters_second 5
                two_listeners tx1_event "disconnect" 0 l
                wf_two_listeners eq_refl) as H.
  cbv zeta in H.
  destruct H as (H1 & H2 & H3 & H4 & H5 & H6 & H7 & H8 & H9 & H10 & H11).
  split.
  { split; [exact wf_two_listeners|]. split; [reflexivity|].
    split; [reflexivity|]. split; [reflexivity|]. split; [reflexivity|].
    split; [apply quiet_others_first_unregisters_second|].
    split; [apply quiet_others_first_unregisters_second | lia]. }
  split; [exact H1|]. split; [exact H2|]. split; [exact H3|].
  split; [exact H4|]. split; [exact H5|]. split; [exact H6|].
  split; [exact H7|]. split; [exact (H8 eq_refl eq_refl)|].
  split; [exact (H9 eq_refl)|].
  split; [exact (H10 (quiet_others_first_unregisters_second _ _)
                   ltac:(lia) eq_refl)|].
  exact (H11 (quiet_others_first_unregisters_second _ _) ltac:(lia)).
Defined.

(** Two such dispatches: callback 0 is called once and
    removes the second listener, which is then not called. *)
Example first_unregisters_second_calls :
  since two_listeners
    (sendEvent first_unregisters_second 5 tx1_event two_listeners).2 =
    [ObsOnEvent 0 None (Some tx1_event); ObsUnregister 0;
     ObsCallback 0 0 None (Some tx1_event); ObsUnregister 1] ∧
  since two_listeners
    (sendError first_unregisters_second 5 "disconnect" two_listeners).2 =
    [ObsOnEvent 0 (Some "disconnect") None; ObsUnregister 0;
     ObsCallback 0 0 (Some "disconnect") None; ObsUnregister 1].
Proof. split; reflexivity. Qed.

(** ** More about the event service *)

(** X1. The handle that [registerTransactionListener] returns was not a
    member before and is one after, the members that were there stay,
    and [unregisterEventListener] on the handle returns and leaves
    exactly the members that were there before the registration. *)
Theorem register_then_unregister
    (txid : string) (cb : EventCallback) (opts : EventRegistrationOptions)
    (s : StubEventService) :
  wf s →
  let r := registerTransactionListener txid cb opts s in
  ¬ registered (lid r.1) s ∧ registered (lid r.1) r.2 ∧
  (∀ l, Some l ∈ eventListeners s → Some l ∈ eventListeners r.2) ∧
  ∃ s', unregisterEventListener (lid r.1) r.2 = (Normal tt, s') ∧
        ∀ l, Some l ∈ eventListeners s' ↔ Some l ∈ eventListeners s.
Proof.
  intros Hwf r.
  destruct (register_spec txid cb opts s Hwf) as (H1 & H2 & H3 & E).
  destruct (register_member txid cb opts s Hwf) as (Hslot & _ & _ & _ & Hwf').
  fold r in H1, H2, H3, E, Hslot, Hwf'.
  assert (Hid : lid r.1 = nextObject s) by (by rewrite H1).
  assert (Hnew : ¬ registered (lid r.1) s).
  { rewrite registered_lookup. intros (i & l & Hi & Hl).
    pose proof (proj2 Hwf i l Hi). lia. }
  assert (Hreg : registered (lid r.1) r.2) by (apply registered_lookup; eauto).
  split; [done|]. split; [done|]. split.
  { intros l Hin. rewrite H2. apply elem_of_app. by left. }
  destruct (unregister_normal (lid r.1) r.2 Hwf' Hreg)
    as (s' & i & l0 & Hu & Hi & Hl0 & Hdata & _ & _).
  assert (i = length (eventListeners s))
    by (by apply (proj1 Hwf' i _ l0 r.1)).
  subst i. exists s'. split; [done|]. intros l.
  rewrite Hdata, H2, !list_elem_of_lookup. split.
  - intros [j Hj]. rewrite list_lookup_insert in Hj.
    destruct (decide (_ ∧ _)) as [|Hne]; [done|].
    exists j. rewrite lookup_app in Hj.
    destruct (eventListeners s !! j) as [x|] eqn:Ej; [done|].
    apply lookup_ge_None in Ej. rewrite list_lookup_singleton in Hj.
    destruct (j - length (eventListeners s)) eqn:Ed; [|done].
    destruct Hne. split; [lia|]. rewrite length_app. simpl. lia.
  - intros [j Hj]. exists j. pose proof (lookup_lt_Some _ _ _ Hj).
    rewrite list_lookup_insert_ne by lia. by rewrite lookup_app_l.
Qed.

Lemma register_then_unregister_witness :
  let r := registerTransactionListener "tx9" 5 keep_options two_listeners in
  wf two_listeners ∧
  ¬ registered (lid r.1) two_listeners ∧ registered (lid r.1) r.2 ∧
  (∀ l, Some l ∈ eventListeners two_listeners → Some l ∈ eventListeners r.2) ∧
  ∃ s', unregisterEventListener (lid r.1) r.2 = (Normal tt, s') ∧
        ∀ l, Some l ∈ eventListeners s' ↔ Some l ∈ eventListeners two_listeners.
Proof.
  intros r. split; [exact wf_two_listeners|].
  exact (register_then_unregister "tx9" 5 keep_options two_listeners
           wf_two_listeners).
Defined.

(** X2. Unregistering is not idempotent: after a call that removed a
    member, a second call with the same handle throws the "not
    registered" error and leaves the service as the first call left
    it. *)
Theorem unregister_twice_throws (h : nat) (s : StubEventService) :
  wf s → registered h s →
  ∃ s', unregisterEventListener h s = (Normal tt, s') ∧
        unregisterEventListener h s' =
          (Abrupt "unregisterEventLister called for listener that is not registered",
           s').
Proof.
  intros Hwf Hr.
  destruct (unregister_normal h s Hwf Hr) as (s' & i & l & Hu & _ & _ & _ & _ & E).
  exists s'. split; [done|]. apply unregister_abrupt.
  apply (ev_unreg_out _ _ _ E). left.
Qed.

Lemma unregister_twice_throws_witness :
  wf two_listeners ∧ registered 1 two_listeners ∧
  ∃ s', unregisterEventListener 1 two_listeners = (Normal tt, s') ∧
        unregisterEventListener 1 s' =
          (Abrupt "unregisterEventLister called for listener that is not registered",
           s').
Proof.
  assert (Hr : registered 1 two_listeners)
    by (apply registered_lookup; by eexists 1, _).
  split; [exact wf_two_listeners|]. split; [exact Hr|].
  exact (unregister_twice_throws 1 two_listeners wf_two_listeners Hr).
Defined.

(** X3. [onEvent] on a handle that is no longer a member: a one-shot
    listener that matches throws the "not registered" error of its own
    unregistration and its callback is not called; a listener with
    [unregister: false] that matches has its callback called all the
    same, because [onEvent] never looks the listener up. *)
Theorem onEvent_on_removed_listener
    (behaviour : EventCallback → option Error → option EventInfo →
                 StubEventService → list Action)
    (l : StubTransactionEventListener)
    (error : option Error) (event : option EventInfo) (s : StubEventService) :
  ¬ registered (lid l) s → matches l error event = true →
  (one_shot l = true →
   onEvent behaviour l error event s =
     (Abrupt "unregisterEventLister called for listener that is not registered",
      log (ObsOnEvent (lid l) error event) s)) ∧
  (one_shot l = false →
   invocations (lid l) (since s (onEvent behaviour l error event s).2) = 1).
Proof.
  intros Hn Hm. unfold onEvent. unfold matches in Hm.
  destruct (condition l error event) as [[|]|e|]; try done. split.
  - intros ->. by rewrite unregister_abrupt.
  - intros ->. unfold invoke_callback.
    destruct (run_actions_trace
                (behaviour (callback l) error event
                   (log (ObsCallback (lid l) (callback l) error event)
                      (log (ObsOnEvent (lid l) error event) s)))
                (log (ObsCallback (lid l) (callback l) error event)
                   (log (ObsOnEvent (lid l) error event) s)))
      as (t & Ht & Hset).
    simpl in Ht. rewrite <- !app_assoc in Ht. rewrite (since_app _ _ _ Ht).
    change ([ObsOnEvent (lid l) error event] ++
            [ObsCallback (lid l) (callback l) error event] ++ t)
      with ([ObsOnEvent (lid l) error event;
             ObsCallback (lid l) (callback l) error event] ++ t).
    rewrite invocations_app, (invocations_set_obs (lid l) t Hset).
    unfold invocations. rewrite !filter_cons. simpl.
    by destruct (decide (lid l = lid l)).
Qed.

Lemma onEvent_on_removed_listener_witness :
  let gone := {| lid := 9; transactionId := "tx1"; callback := 2;
                 options := default_options |} in
  let kept := {| lid := 9; transactionId := "tx1"; callback := 2;
                 options := keep_options |} in
  ¬ registered 9 two_listeners ∧
  onEvent silent gone None (Some tx1_event) two_listeners =
    (Abrupt "unregisterEventLister called for listener that is not registered",
     log (ObsOnEvent 9 None (Some tx1_event)) two_listeners) ∧
  invocations 9
    (since two_listeners
       (onEvent silent kept None (Some tx1_event) two_listeners).2) = 1.
Proof.
  intros gone kept.
  assert (Hn : ¬ registered 9 two_listeners).
  { rewrite registered_lookup. intros (i & l & Hi & Hl).
    pose proof (proj2 wf_two_listeners i l Hi) as Hlt. simpl in Hlt. lia. }
  split; [exact Hn|]. split.
  - exact (proj1 (onEvent_on_removed_listener silent gone None (Some tx1_event)
                    two_listeners Hn eq_refl) eq_refl).
  - exact (proj2 (onEvent_on_removed_listener silent kept None (Some tx1_event)
                    two_listeners Hn eq_refl) eq_refl).
Defined.

(** X4. The invariant of the service (no object twice in the set, no
    identity reused, a removed listener never back, no [onEvent] on a
    removed listener) holds of a new service and is kept by
    registering, unregistering, [sendEvent] and [sendError], whatever
    the callbacks do. *)
Theorem service_invariant
    (behaviour : EventCallback → option Error → option EventInfo →
                 StubEventService → list Action)
    (s : StubEventService) :
  sound s →
  (∀ txid cb opts, sound (registerTransactionListener txid cb opts s).2) ∧
  (∀ h, sound (unregisterEventListener h s).2) ∧
  (∀ fuel event, sound (sendEvent behaviour fuel event s).2) ∧
  (∀ fuel error, sound (sendError behaviour fuel error s).2).
Proof.
  intros Hs. split; [|split; [|split]].
  - intros. by apply sound_register.
  - intros. by apply sound_unregister.
  - intros. by apply sound_sendEvent.
  - intros. by apply sound_sendError.
Qed.

Lemma service_invariant_witness :
  sound (new_StubEventService "peer0") ∧
  sound (sendEvent first_unregisters_second 10 tx1_event two_listeners).2.
Proof.
  split; [apply sound_new|].
  exact (proj1 (proj2 (proj2 (service_invariant first_unregisters_second
                                two_listeners sound_two_listeners)))
           10 tx1_event).
Defined.

(** ** Dispatches in which the called callbacks do nothing *)

Lemma drop_agree {A} (l1 l2 : list A) n :
  (∀ j, n ≤ j → l1 !! j = l2 !! j) → drop n l1 = drop n l2.
Proof.
  intros H. apply list_eq. intros i. rewrite !lookup_drop. apply H. lia.
Qed.

Lemma quiet_history_cons error event slot data :
  quiet_history error event (slot :: data) =
  match slot with
  | Some l => onEvent_obs l error event []
  | None => []
  end ++ quiet_history error event data.
Proof. unfold quiet_history. by rewrite bind_cons. Qed.

Section ExactWalk.

Variable behaviour :
  EventCallback → option Error → option EventInfo → StubEventService → list Action.
Variables (error : option Error) (event : option EventInfo).
Hypothesis Hargs : error ≠ None ∨ event ≠ None.

Lemma onEvent_quiet_slot l s idx s2 :
  wf s → eventListeners s !! idx = Some (Some l) →
  evolves s s2 (onEvent_obs l error event []) →
  eventListeners s2 !! idx = Some (Some l) ∨
    (eventListeners s2 !! idx = Some None ∧
     matches l error event = true ∧ one_shot l = true) →
  eventListeners s2 !! idx = Some (sweep error event (Some l)).
Proof.
  intros Hwf Hidx E [Hs|(Hs & Hm & Hos)]; simpl.
  - destruct (matches l error event) eqn:Hm; [|done].
    destruct (one_shot l) eqn:Hos; [|done]. simpl.
    destruct (ev_unreg_out _ _ _ E (lid l)) as [Hout _].
    { by apply unregister_in_onEvent_obs. }
    destruct Hout. apply registered_lookup. eauto.
  - by rewrite Hm, Hos.
Qed.

Lemma walk_quiet_exact n : ∀ fuel idx s,
  wf s → idx + n ≤ length (eventListeners s) → n ≤ fuel →
  (∀ j l, idx ≤ j < idx + n → eventListeners s !! j = Some (Some l) →
          matches l error event = true →
          ∀ s1, behaviour (callback l) error event s1 = []) →
  ∃ s1,
    forEach behaviour fuel idx error event s =
      forEach behaviour (fuel - n) (idx + n) error event s1 ∧
    wf s1 ∧
    trace s1 = trace s ++
      quiet_history error event (take n (drop idx (eventListeners s))) ∧
    length (eventListeners s1) = length (eventListeners s) ∧
    ∀ j, eventListeners s1 !! j =
         if decide (idx ≤ j < idx + n)
         then sweep error event <$> eventListeners s !! j
         else eventListeners s !! j.
Proof.
  induction n as [|n IH]; intros fuel idx s Hwf Hlen Hfuel Hq.
  - exists s. rewrite Nat.sub_0_r, Nat.add_0_r. simpl.
    split; [done|]. split; [done|]. split; [by rewrite app_nil_r|].
    split; [done|]. intros j. destruct (decide _); [lia | done].
  - destruct fuel as [|fuel]; [lia|]. simpl forEach. simpl Nat.sub.
    rewrite Nat.add_succ_r.
    destruct (eventListeners s !! idx) as [[l|]|] eqn:Hidx.
    + destruct (onEvent_quiet behaviour l error event s idx Hwf Hidx)
        as (s2 & Hon & E2 & Hother & Hself & Hlen2); [|done|].
      { apply (Hq idx l); [lia | done]. }
      pose proof (onEvent_quiet_slot l s idx s2 Hwf Hidx E2 Hself) as Hslot.
      rewrite Hon.
      destruct (IH fuel (S idx) s2) as (s1 & Hrun & Hwf1 & Htr & Hlen1 & Hslots).
      { apply E2. } { rewrite Hlen2. lia. } { lia. }
      { intros j l' Hj Hsj. apply (Hq j l'); [lia|].
        rewrite <- Hother by lia. done. }
      exists s1. split; [exact Hrun|]. split; [done|]. split; [|split].
      * rewrite Htr, (ev_trace _ _ _ E2), (drop_S _ _ _ Hidx), firstn_cons.
        rewrite quiet_history_cons, <- app_assoc.
        rewrite (drop_agree (eventListeners s2) (eventListeners s) (S idx)); [done|].
        intros j Hj. apply Hother. lia.
      * lia.
      * intros j. rewrite Hslots.
        destruct (decide (S idx ≤ j < S idx + n)) as [Hin|Hout].
        -- destruct (decide (idx ≤ j < S (idx + n))); [|lia].
           rewrite Hother by lia. done.
        -- destruct (decide (idx ≤ j < S (idx + n))) as [Hin'|Hout'].
           ++ assert (j = idx) by lia. subst j. by rewrite Hslot, Hidx.
           ++ apply Hother. lia.
    + destruct (IH fuel (S idx) s) as (s1 & Hrun & Hwf1 & Htr & Hlen1 & Hslots);
        [done | lia | lia | |].
      { intros j l' Hj. apply Hq. lia. }
      exists s1. split; [exact Hrun|]. split; [done|]. split; [|split].
      * rewrite Htr, (drop_S _ _ _ Hidx), firstn_cons.
        by rewrite quiet_history_cons.
      * done.
      * intros j. rewrite Hslots.
        destruct (decide (S idx ≤ j < S idx + n)) as [Hin|Hout].
        -- destruct (decide (idx ≤ j < S (idx + n))); [done | lia].
        -- destruct (decide (idx ≤ j < S (idx + n))) as [Hin'|Hout']; [|done].
           assert (j = idx) by lia. subst j. by rewrite Hidx.
    + apply lookup_ge_None in Hidx. lia.
Qed.

Lemma walk_quiet_all fuel s :
  wf s → length (eventListeners s) < fuel →
  quiet_all behaviour error event s →
  ∃ s', forEach behaviour fuel 0 error event s = (Normal tt, s') ∧
        wf s' ∧
        eventListeners s' = sweep error event <$> eventListeners s ∧
        trace s' = trace s ++ quiet_history error event (eventListeners s).
Proof.
  intros Hwf Hfuel Hq.
  destruct (walk_quiet_exact (length (eventListeners s)) fuel 0 s Hwf)
    as (s' & Hrun & Hwf' & Htr & Hlen & Hslots); [simpl; lia | lia | |].
  { intros j l _. apply Hq. }
  exists s'. split; [|split; [done|split]].
  - rewrite Hrun. simpl.
    destruct (fuel - length (eventListeners s)) as [|f] eqn:Hf; [lia|]. simpl.
    rewrite <- Hlen. by rewrite (proj2 (lookup_ge_None _ _) (le_n _)).
  - apply list_eq. intros j. rewrite Hslots, list_lookup_fmap. simpl.
    destruct (decide _) as [|Hout]; [done|].
    rewrite (proj2 (lookup_ge_None _ _)); [done | lia].
  - rewrite Htr, drop_0, take_ge; done.
Qed.

End ExactWalk.

(** X5. When every callback that is called does nothing, [sendEvent]
    and [sendError] return, call [onEvent] on the members in the order
    in which they were registered, and leave the set with exactly the
    one-shot listeners that matched removed. *)
Theorem quiet_dispatch_in_order
    (behaviour : EventCallback → option Error → option EventInfo →
                 StubEventService → list Action)
    (fuel : nat) (s : StubEventService) :
  wf s → length (eventListeners s) < fuel →
  (∀ event, quiet_all behaviour None (Some event) s →
     ∃ s', sendEvent behaviour fuel event s = (Normal tt, s') ∧
           eventListeners s' = sweep None (Some event) <$> eventListeners s ∧
           since s s' = quiet_history None (Some event) (eventListeners s)) ∧
  (∀ error, quiet_all behaviour (Some error) None s →
     ∃ s', sendError behaviour fuel error s = (Normal tt, s') ∧
           eventListeners s' = sweep (Some error) None <$> eventListeners s ∧
           since s s' = quiet_history (Some error) None (eventListeners s)).
Proof.
  intros Hwf Hfuel. split.
  - intros event Hq.
    destruct (walk_quiet_all behaviour None (Some event) ltac:(by right)
                fuel s Hwf Hfuel Hq) as (s' & Hrun & _ & Hdata & Htr).
    exists s'. split; [done|]. split; [done|]. by apply since_app.
  - intros error Hq.
    destruct (walk_quiet_all behaviour (Some error) None ltac:(by left)
                fuel s Hwf Hfuel Hq) as (s' & Hrun & _ & Hdata & Htr).
    exists s'. split; [done|]. split; [done|]. by apply since_app.
Qed.

Lemma quiet_all_silent error event s : quiet_all silent error event s.
Proof. by intros j l _ _ s1. Qed.

Lemma quiet_dispatch_in_order_witness :
  wf two_listeners ∧ length (eventListeners two_listeners) < 5 ∧
  (∃ s', sendEvent silent 5 tx2_event two_listeners = (Normal tt, s') ∧
         eventListeners s' =
           sweep None (Some tx2_event) <$> eventListeners two_listeners ∧
         since two_listeners s' =
           quiet_history None (Some tx2_event) (eventListeners two_listeners)) ∧
  (∃ s', sendError silent 5 "disconnect" two_listeners = (Normal tt, s') ∧
         eventListeners s' =
           sweep (Some "disconnect") None <$> eventListeners two_listeners ∧
         since two_listeners s' =
           quiet_history (Some "disconnect") None (eventListeners two_listeners)).
Proof.
  assert (Hlen : length (eventListeners two_listeners) < 5) by (simpl; lia).
  split; [exact wf_two_listeners|]. split; [exact Hlen|]. split.
  - exact (proj1 (quiet_dispatch_in_order silent 5 two_listeners
                    wf_two_listeners Hlen)
             tx2_event (quiet_all_silent _ _ _)).
  - exact (proj2 (quiet_dispatch_in_order silent 5 two_listeners
                    wf_two_listeners Hlen)
             "disconnect" (quiet_all_silent _ _ _)).
Defined.

Lemma invocations_quiet_history_none h error event data :
  (∀ l, Some l ∈ data → matches l error event = false) →
  invocations h (quiet_history error event data) = 0.
Proof.
  induction data as [|slot data IH]; intros Hno; [done|].
  rewrite quiet_history_cons, invocations_app, IH.
  - destruct slot as [l|]; [|done].
    rewrite invocations_onEvent_obs by done.
    rewrite (Hno l) by left. by destruct (decide _).
  - intros l Hin. apply Hno. by right.
Qed.

(** X6. An event for a transaction that no member watches: whatever the
    callbacks would do, [sendEvent] returns, calls no callback and
    leaves the listener set as it was. *)
Theorem unwatched_event_changes_nothing
    (behaviour : EventCallback → option Error → option EventInfo →
                 StubEventService → list Action)
    (fuel : nat) (event : EventInfo) (s : StubEventService) :
  wf s → length (eventListeners s) < fuel →
  (∀ l, Some l ∈ eventListeners s →
        ev_transactionId event ≠ Some (transactionId l)) →
  ∃ s', sendEvent behaviour fuel event s = (Normal tt, s') ∧
        eventListeners s' = eventListeners s ∧
        ∀ h, invocations h (since s s') = 0.
Proof.
  intros Hwf Hfuel Hno.
  assert (Hm : ∀ l, Some l ∈ eventListeners s →
                    matches l None (Some event) = false).
  { intros l Hin. unfold matches. simpl.
    by rewrite bool_decide_eq_false_2 by by apply Hno. }
  destruct (walk_quiet_all behaviour None (Some event) ltac:(by right)
              fuel s Hwf Hfuel) as (s' & Hrun & _ & Hdata & Htr).
  { intros j l Hj Hmj. rewrite Hm in Hmj; [done|].
    apply list_elem_of_lookup. eauto. }
  exists s'. split; [done|]. split.
  - rewrite Hdata. apply list_eq. intros j. rewrite list_lookup_fmap.
    destruct (eventListeners s !! j) as [[l|]|] eqn:Hj; simpl; [|done|done].
    rewrite Hm; [done|]. apply list_elem_of_lookup. eauto.
  - intros h. rewrite (since_app _ _ _ Htr).
    by apply invocations_quiet_history_none.
Qed.

Lemma unwatched_event_changes_nothing_witness :
  wf two_listeners ∧ length (eventListeners two_listeners) < 5 ∧
  ∃ s', sendEvent first_throws 5 tx2_event two_listeners = (Normal tt, s') ∧
        eventListeners s' = eventListeners two_listeners ∧
        ∀ h, invocations h (since two_listeners s') = 0.
Proof.
  assert (Hlen : length (eventListeners two_listeners) < 5) by (simpl; lia).
  split; [exact wf_two_listeners|]. split; [exact Hlen|].
  apply (unwatched_event_changes_nothing first_throws 5 tx2_event two_listeners
           wf_two_listeners Hlen).
  intros l Hin. simpl in Hin.
  apply elem_of_cons in Hin as [Hl|Hin]; [by inversion Hl|].
  apply elem_of_cons in Hin as [Hl|Hin]; [by inversion Hl|].
  by apply not_elem_of_nil in Hin.
Defined.

Lemma since_trans s s1 s' t1 t2 :
  trace s1 = trace s ++ t1 → trace s' = trace s1 ++ t2 →
  since s s' = t1 ++ t2.
Proof.
  intros H1 H2. apply since_app. by rewrite H2, H1, app_assoc.
Qed.

Lemma trace_since s s' t : trace s' = trace s ++ t → trace s' = trace s ++ since s s'.
Proof. intros H. by rewrite (since_app _ _ _ H). Qed.

Section EventBursts.

Variable behaviour :
  EventCallback → option Error → option EventInfo → StubEventService → list Action.

Lemma sendEvents_evolves fuel events : ∀ s,
  wf s → ∃ t, evolves s (sendEvents behaviour fuel events s) t.
Proof.
  induction events as [|e rest IH]; intros s Hwf; simpl.
  - exists []. by apply evolves_refl.
  - destruct (sendEvent behaviour fuel e s) as [c s1] eqn:Hrun. simpl.
    pose proof (sendEvent_spec behaviour _ _ _ _ _ Hwf Hrun) as D.
    pose proof (d_evolves _ _ _ _ _ _ _ D) as E1.
    destruct (IH s1 (ev_wf _ _ _ E1)) as [t2 E2].
    eexists. by eapply evolves_trans.
Qed.

(** X7. A listener registered with [unregister: false] stays in its slot
    through any sequence of events, and its callback is called once for
    each event of the sequence that has its transaction id, when the
    callbacks that are called do nothing. *)
Theorem persistent_listener_counts
    (fuel : nat) (events : list EventInfo) (s : StubEventService)
    (k : nat) (l : StubTransactionEventListener) :
  wf s → eventListeners s !! k = Some (Some l) →
  unregister (options l) = Some false →
  length (eventListeners s) < fuel →
  Forall (λ e, quiet_all behaviour None (Some e) s) events →
  let s' := sendEvents behaviour fuel events s in
  eventListeners s' !! k = Some (Some l) ∧
  invocations (lid l) (since s s') =
    length (filter (λ e, ev_transactionId e = Some (transactionId l)) events).
Proof.
  intros Hwf Hk Hopt Hfuel Hq.
  assert (Hos : one_shot l = false) by (unfold one_shot; by rewrite Hopt).
  revert s Hwf Hk Hfuel Hq.
  induction events as [|e rest IH]; intros s Hwf Hk Hfuel Hq; simpl.
  - split; [done|]. unfold since. by rewrite drop_all.
  - apply Forall_cons in Hq as [Hqe Hqrest].
    destruct (walk_quiet_all behaviour None (Some e) ltac:(by right)
                fuel s Hwf Hfuel Hqe) as (s1 & Hrun & Hwf1 & Hdata & Htr).
    fold (sendEvent behaviour fuel e s) in Hrun. rewrite Hrun. simpl.
    assert (Hk1 : eventListeners s1 !! k = Some (Some l)).
    { rewrite Hdata, list_lookup_fmap, Hk. simpl.
      by rewrite Hos, andb_false_r. }
    destruct (IH s1) as [Hk' Hcount]; [done | done | | |].
    { by rewrite Hdata, length_fmap. }
    { eapply Forall_impl; [exact Hqrest|]. intros e' Hq' j l' Hj Hm.
      rewrite Hdata, list_lookup_fmap in Hj.
      destruct (eventListeners s !! j) as [[l0|]|] eqn:Hj0; simpl in Hj;
        try done.
      destruct (matches l0 None (Some e) && one_shot l0); [done|].
      inversion Hj; subst l0. by apply (Hq' j l'). }
    split; [done|].
    destruct (sendEvents_evolves fuel rest s1 Hwf1) as [t2 E2].
    rewrite (since_trans s s1 _ _ t2 Htr (ev_trace _ _ _ E2)).
    rewrite invocations_app. rewrite (evolves_since _ _ _ E2) in Hcount.
    rewrite Hcount, filter_cons.
    (* the first event *)
    pose proof (sendEvent_spec behaviour _ _ _ _ _ Hwf Hrun) as D.
    rewrite (since_app _ _ _ Htr) in D.
    destruct (d_member _ _ _ _ _ _ _ D k l Hk) as (Ha & _ & _).
    assert (Hone : deliveries (lid l)
                     (quiet_history None (Some e) (eventListeners s)) = 1).
    { destruct (d_cover _ _ _ _ _ _ _ D eq_refl k l ltac:(lia) Hk) as [H|Hu];
        [done|].
      destruct (ev_unreg_out _ _ _ (d_evolves _ _ _ _ _ _ _ D) _ Hu) as [Hout _].
      destruct Hout. apply registered_lookup. eauto. }
    rewrite Ha, Hone. unfold matches. simpl.
    destruct (decide (ev_transactionId e = Some (transactionId l))) as [Heq|Hne].
    + by rewrite bool_decide_eq_true_2.
    + by rewrite bool_decide_eq_false_2.
Qed.

End EventBursts.

Lemma persistent_listener_counts_witness :
  let l := {| lid := 0; transactionId := "tx1"; callback := 4;
              options := keep_options |} in
  let s' := sendEvents silent 5 [tx1_event; tx2_event; tx1_event]
              persistent_listener in
  wf persistent_listener ∧
  eventListeners s' !! 0 = Some (Some l) ∧
  invocations 0 (since persistent_listener s') =
    length (filter (λ e, ev_transactionId e = Some "tx1")
              [tx1_event; tx2_event; tx1_event]).
Proof.
  intros l s'.
  assert (Hwf : wf persistent_listener) by apply sound_register, sound_new.
  split; [exact Hwf|].
  apply (persistent_listener_counts silent 5 [tx1_event; tx2_event; tx1_event]
           persistent_listener 0 l Hwf eq_refl eq_refl).
  - simpl. lia.
  - repeat constructor; apply quiet_all_silent.
Defined.

(** ** A callback that throws *)

Lemma deliveries_quiet_history_none h error event data :
  (∀ l, Some l ∈ data → lid l ≠ h) →
  deliveries h (quiet_history error event data) = 0.
Proof.
  induction data as [|slot data IH]; intros Hno; [done|].
  rewrite quiet_history_cons, deliveries_app, IH.
  - destruct slot as [l|]; [|done].
    rewrite deliveries_onEvent_obs by done.
    destruct (decide (lid l = h)) as [Heq|]; [|done].
    destruct (Hno l); [left | done].
  - intros l Hin. apply Hno. by right.
Qed.

Section ThrowingCallback.

Variable behaviour :
  EventCallback → option Error → option EventInfo → StubEventService → list Action.
Variables (error : option Error) (event : option EventInfo).
Hypothesis Hargs : error ≠ None ∨ event ≠ None.

Lemma onEvent_throws l s idx e :
  wf s → eventListeners s !! idx = Some (Some l) →
  matches l error event = true →
  (∀ s1, head (behaviour (callback l) error event s1) = Some (DoThrow e)) →
  ∃ s2, onEvent behaviour l error event s = (Abrupt e, s2) ∧
        trace s2 = trace s ++ onEvent_obs l error event [] ∧
        ∀ j, j ≠ idx → eventListeners s2 !! j = eventListeners s !! j.
Proof.
  intros Hwf Hidx Hm Hthrow.
  assert (Hrun : ∀ s1, run_actions (behaviour (callback l) error event s1) s1 =
                       (Abrupt e, s1)).
  { intros s1. specialize (Hthrow s1).
    destruct (behaviour (callback l) error event s1) as [|a rest]; [done|].
    simpl in Hthrow. by inversion Hthrow. }
  unfold onEvent, onEvent_obs. rewrite Hm. unfold matches in Hm.
  destruct (condition l error event) as [[|]|?|]; try done.
  unfold invoke_callback. destruct (one_shot l).
  - assert (Hr : registered (lid l) (log (ObsOnEvent (lid l) error event) s))
      by (apply registered_lookup; eauto).
    assert (Hwf0 : wf (log (ObsOnEvent (lid l) error event) s)) by done.
    destruct (unregister_normal _ _ Hwf0 Hr)
      as (s1 & i & l' & Hu & Hi & Hid & Hdata & _ & E).
    assert (i = idx) by (by apply (proj1 Hwf i idx l' l)). subst i.
    rewrite Hu, Hrun. eexists. split; [done|]. simpl. split.
    + rewrite (ev_trace _ _ _ E). simpl. by rewrite <- !app_assoc.
    + intros j Hj. rewrite Hdata. simpl. by rewrite list_lookup_insert_ne.
  - rewrite Hrun. eexists. split; [done|]. simpl. split; [|done].
    by rewrite <- !app_assoc.
Qed.

Lemma walk_stops_at_throw fuel s k l e :
  wf s → eventListeners s !! k = Some (Some l) →
  matches l error event = true →
  (∀ s1, head (behaviour (callback l) error event s1) = Some (DoThrow e)) →
  (∀ j l', j < k → eventListeners s !! j = Some (Some l') →
           matches l' error event = true →
           ∀ s1, behaviour (callback l') error event s1 = []) →
  k < fuel →
  ∃ s', forEach behaviour fuel 0 error event s = (Abrupt e, s') ∧
        (∀ j, k < j → eventListeners s' !! j = eventListeners s !! j) ∧
        (∀ j l', k < j → eventListeners s !! j = Some (Some l') →
                 deliveries (lid l') (since s s') = 0).
Proof.
  intros Hwf Hk Hm Hthrow Hq Hfuel.
  pose proof (lookup_lt_Some _ _ _ Hk) as Hlen.
  destruct (walk_quiet_exact behaviour error event Hargs k fuel 0 s Hwf)
    as (s1 & Hrun & Hwf1 & Htr & Hlen1 & Hslots); [simpl; lia | lia | |].
  { intros j l' Hj. apply Hq. lia. }
  simpl in Hrun, Htr. rewrite drop_0 in Htr.
  assert (Hk1 : eventListeners s1 !! k = Some (Some l)).
  { rewrite Hslots. destruct (decide _); [lia | done]. }
  destruct (onEvent_throws l s1 k e Hwf1 Hk1 Hm Hthrow) as (s2 & Hon & Htr2 & Hother).
  exists s2. split; [|split].
  - rewrite Hrun. destruct (fuel - k) as [|f] eqn:Hf; [lia|]. simpl.
    by rewrite Hk1, Hon.
  - intros j Hj. rewrite Hother by lia. rewrite Hslots.
    destruct (decide _); [lia | done].
  - intros j l' Hj Hsj. rewrite (since_trans s s1 s2 _ _ Htr Htr2).
    rewrite deliveries_app, deliveries_onEvent_obs by done.
    assert (Hne : lid l ≠ lid l').
    { intros Heq. assert (k = j) by (by apply (proj1 Hwf k j l l')). lia. }
    destruct (decide (lid l = lid l')); [done|].
    rewrite deliveries_quiet_history_none; [done|].
    intros l0 Hin Heq. apply list_elem_of_lookup in Hin as [i Hi].
    rewrite lookup_take in Hi. destruct (decide (i < k)); [|done].
    assert (i = j) by (by apply (proj1 Hwf i j l0 l')). lia.
Qed.

End ThrowingCallback.

(** X8. A callback that throws ends the dispatch: when the callbacks
    called before it do nothing, [sendEvent] (and likewise [sendError])
    throws the callback's error, and the listeners in later slots are
    not called and stay as they are. *)
Theorem throwing_callback_stops_dispatch
    (behaviour : EventCallback → option Error → option EventInfo →
                 StubEventService → list Action)
    (fuel : nat) (s : StubEventService)
    (k : nat) (l : StubTransactionEventListener) (e : Error) :
  wf s → eventListeners s !! k = Some (Some l) → k < fuel →
  (∀ event,
     matches l None (Some event) = true →
     (∀ s1, head (behaviour (callback l) None (Some event) s1) = Some (DoThrow e)) →
     (∀ j l', j < k → eventListeners s !! j = Some (Some l') →
              matches l' None (Some event) = true →
              ∀ s1, behaviour (callback l') None (Some event) s1 = []) →
     ∃ s', sendEvent behaviour fuel event s = (Abrupt e, s') ∧
           (∀ j, k < j → eventListeners s' !! j = eventListeners s !! j) ∧
           (∀ j l', k < j → eventListeners s !! j = Some (Some l') →
                    deliveries (lid l') (since s s') = 0)) ∧
  (∀ error,
     (∀ s1, head (behaviour (callback l) (Some error) None s1) = Some (DoThrow e)) →
     (∀ j l', j < k → eventListeners s !! j = Some (Some l') →
              ∀ s1, behaviour (callback l') (Some error) None s1 = []) →
     ∃ s', sendError behaviour fuel error s = (Abrupt e, s') ∧
           (∀ j, k < j → eventListeners s' !! j = eventListeners s !! j) ∧
           (∀ j l', k < j → eventListeners s !! j = Some (Some l') →
                    deliveries (lid l') (since s s') = 0)).
Proof.
  intros Hwf Hk Hfuel. split.
  - intros event Hm Hthrow Hq.
    by apply (walk_stops_at_throw behaviour None (Some event) ltac:(by right)
                fuel s k l e).
  - intros error Hthrow Hq.
    apply (walk_stops_at_throw behaviour (Some error) None ltac:(by left)
             fuel s k l e); try done.
    intros j l' Hj Hsj _. by apply (Hq j l').
Qed.

Lemma throwing_callback_stops_dispatch_witness :
  let l := {| lid := 0; transactionId := "tx1"; callback := 0;
              options := default_options |} in
  wf two_listeners ∧
  ∃ s', sendEvent first_throws 5 tx1_event two_listeners =
          (Abrupt "callback failed", s') ∧
        (∀ j, 0 < j → eventListeners s' !! j = eventListeners two_listeners !! j) ∧
        (∀ j l', 0 < j → eventListeners two_listeners !! j = Some (Some l') →
                 deliveries (lid l') (since two_listeners s') = 0).
Proof.
  intros l. split; [exact wf_two_listeners|].
  apply (proj1 (throwing_callback_stops_dispatch first_throws 5 two_listeners
                  0 l "callback failed" wf_two_listeners eq_refl ltac:(lia))
           tx1_event eq_refl).
  - by intros s1.
  - intros j l' Hj. lia.
Defined.

(** ** Listeners registered while a dispatch is running *)

Section LateListeners.

Variable behaviour :
  EventCallback → option Error → option EventInfo → StubEventService → list Action.

Lemma forEach_covers_final error event fuel : ∀ idx s s',
  wf s → forEach behaviour fuel idx error event s = (Normal tt, s') →
  ∀ i l, idx ≤ i → eventListeners s' !! i = Some (Some l) →
         deliveries (lid l) (since s s') = 1.
Proof.
  induction fuel as [|fuel IH]; intros idx s s' Hwf Hrun i l Hi Hl;
    [by inversion Hrun|].
  destruct (forEach_spec behaviour _ _ _ _ _ _ _ Hwf Hrun) as [t D].
  pose proof (d_evolves _ _ _ _ _ _ _ D) as E.
  rewrite (evolves_since _ _ _ E). simpl in Hrun.
  destruct (eventListeners s !! idx) as [[l0|]|] eqn:Hidx.
  - destruct (onEvent behaviour l0 error event s) as [c1 s1] eqn:Hon.
    destruct (onEvent_spec behaviour _ _ _ _ _ _ _ Hwf Hidx Hon)
      as (ta & Hta & E1 & _).
    destruct c1 as [[]|?|]; [|done|done].
    destruct (forEach_spec behaviour _ _ _ _ _ _ _ (ev_wf _ _ _ E1) Hrun)
      as [t2 D2].
    pose proof (d_evolves _ _ _ _ _ _ _ D2) as E2.
    assert (t = onEvent_obs l0 error event ta ++ t2) as Ht.
    { rewrite <- (evolves_since _ _ _ E).
      by apply (evolves_since _ _ _ (evolves_trans _ _ _ _ _ E1 E2)). }
    pose proof (d_once _ _ _ _ _ _ _ D (lid l)) as Honce.
    rewrite Ht, deliveries_app in Honce |- *.
    destruct (decide (i = idx)) as [->|Hne].
    + destruct (ev_old _ _ _ E idx l0 Hidx) as [H|[H _]]; [|congruence].
      assert (l = l0) by congruence. subst l.
      rewrite deliveries_onEvent_obs in Honce |- * by done.
      destruct (decide (lid l0 = lid l0)); [lia | done].
    + pose proof (IH (S idx) s1 s' (ev_wf _ _ _ E1) Hrun i l ltac:(lia) Hl) as H2.
      rewrite (evolves_since _ _ _ E2) in H2. lia.
  - destruct (decide (i = idx)) as [->|Hne].
    + rewrite (ev_empty _ _ _ E idx Hidx) in Hl. done.
    + rewrite <- (evolves_since _ _ _ E).
      apply (IH (S idx) s s' Hwf Hrun i l); [lia | done].
  - inversion Hrun; subst s'. apply lookup_ge_None in Hidx.
    apply lookup_lt_Some in Hl. lia.
Qed.

(** X9. When [sendEvent] or [sendError] returns, every listener that is
    a member at that moment has had [onEvent] called exactly once in
    this dispatch: also a listener that a callback registered while the
    dispatch was running. *)
Theorem members_after_dispatch_were_called
    (fuel : nat) (s s' : StubEventService) :
  wf s →
  (∀ event, sendEvent behaviour fuel event s = (Normal tt, s') →
            ∀ h, registered h s' → deliveries h (since s s') = 1) ∧
  (∀ error, sendError behaviour fuel error s = (Normal tt, s') →
            ∀ h, registered h s' → deliveries h (since s s') = 1).
Proof.
  intros Hwf. split.
  - intros event Hrun h Hr. apply registered_lookup in Hr as (i & l & Hi & <-).
    apply (forEach_covers_final None (Some event) fuel 0 s s' Hwf Hrun i l);
      [lia | done].
  - intros error Hrun h Hr. apply registered_lookup in Hr as (i & l & Hi & <-).
    apply (forEach_covers_final (Some error) None fuel 0 s s' Hwf Hrun i l);
      [lia | done].
Qed.

Lemma respawn_loop event cb txid :
  ev_transactionId event = Some txid →
  (∀ s, behaviour cb None (Some event) s =
        [DoRegister txid cb {| unregister := None |}]) →
  ∀ fuel idx s l,
    wf s → eventListeners s !! idx = Some (Some l) →
    length (eventListeners s) = S idx →
    callback l = cb → transactionId l = txid →
    (forEach behaviour fuel idx None (Some event) s).1 = Unfinished.
Proof.
  intros Hev Hb. induction fuel as [|fuel IH]; intros idx s l Hwf Hidx Hlen Hcb Htx;
    [done|].
  simpl. rewrite Hidx.
  assert (Hm : condition l None (Some event) = Normal true).
  { simpl. rewrite Htx, bool_decide_eq_true_2; done. }
  (* the service when the callback starts *)
  assert (∃ s1, wf s1 ∧ length (eventListeners s1) = S idx ∧
            onEvent behaviour l None (Some event) s =
              invoke_callback behaviour l None (Some event) s1)
    as (s1 & Hwf1 & Hlen1 & Hon).
  { unfold onEvent. rewrite Hm. destruct (one_shot l).
    - assert (Hr : registered (lid l) (log (ObsOnEvent (lid l) None (Some event)) s))
        by (apply registered_lookup; eauto).
      assert (Hwf0 : wf (log (ObsOnEvent (lid l) None (Some event)) s)) by done.
      destruct (unregister_normal _ _ Hwf0 Hr)
        as (s1 & i & l' & Hu & _ & _ & Hdata & _ & E).
      exists s1. split; [apply E|]. split; [|by rewrite Hu].
      rewrite Hdata. by rewrite length_insert.
    - by exists (log (ObsOnEvent (lid l) None (Some event)) s). }
  rewrite Hon. unfold invoke_callback. rewrite Hcb, Hb. cbn [run_actions].
  set (s2 := log (ObsCallback (lid l) cb None (Some event)) s1).
  assert (Hwf2 : wf s2) by done.
  destruct (register_member txid cb {| unregister := None |} s2 Hwf2)
    as (Hslot & Htx' & Hcb' & _ & Hwf3).
  destruct (register_spec txid cb {| unregister := None |} s2 Hwf2)
    as (_ & Hdata & _ & _).
  set (s3 := (registerTransactionListener txid cb {| unregister := None |} s2).2)
    in *.
  apply (IH (S idx) s3
           (registerTransactionListener txid cb {| unregister := None |} s2).1);
    [exact Hwf3 | | | exact Hcb' | exact Htx'].
  - replace (S idx) with (length (eventListeners s2)) by done. exact Hslot.
  - rewrite Hdata, length_app. simpl. change (eventListeners s2) with (eventListeners s1).
    lia.
Qed.

(** X10. A callback that, on a matching event, registers a new listener
    for the same transaction with itself as callback keeps the walk
    going: when such a listener sits in the last slot and the callbacks
    called before it do nothing, [sendEvent] does not return, whatever
    the step budget. *)
Theorem respawning_callback_never_returns
    (fuel : nat) (event : EventInfo) (s : StubEventService)
    (k : nat) (l : StubTransactionEventListener) :
  wf s → eventListeners s !! k = Some (Some l) →
  length (eventListeners s) = S k →
  ev_transactionId event = Some (transactionId l) →
  respawns behaviour (callback l) event →
  (∀ j l', j < k → eventListeners s !! j = Some (Some l') →
           matches l' None (Some event) = true →
           ∀ s1, behaviour (callback l') None (Some event) s1 = []) →
  (sendEvent behaviour fuel event s).1 = Unfinished.
Proof.
  intros Hwf Hk Hlen Hev (txid & Htx & Hb) Hq.
  assert (txid = transactionId l) by congruence. subst txid.
  assert (Hargs : (None : option Error) ≠ None ∨ Some event ≠ None) by (by right).
  unfold sendEvent. destruct (decide (k ≤ fuel)) as [Hle|Hgt].
  - destruct (walk_quiet_exact behaviour None (Some event) Hargs k fuel 0 s Hwf)
      as (s1 & Hrun & Hwf1 & _ & Hlen1 & Hslots); [simpl; lia | lia | |].
    { intros j l' Hj. apply Hq. lia. }
    rewrite Hrun. simpl.
    apply (respawn_loop event (callback l) (transactionId l) Hev Hb _ _ _ l);
      try done.
    + rewrite Hslots. destruct (decide _); [lia | done].
    + lia.
  - destruct (walk_quiet_exact behaviour None (Some event) Hargs fuel fuel 0 s Hwf)
      as (s1 & Hrun & _); [simpl; lia | lia | |].
    { intros j l' Hj. apply Hq. lia. }
    rewrite Hrun, Nat.sub_diag. done.
Qed.

End LateListeners.

Lemma members_after_dispatch_were_called_witness :
  let r := sendEvent first_unregisters_second 10 tx2_event two_listeners in
  wf two_listeners ∧ r.1 = Normal tt ∧
  ∀ h, registered h r.2 → deliveries h (since two_listeners r.2) = 1.
Proof.
  intros r. split; [exact wf_two_listeners|]. split; [reflexivity|].
  exact (proj1 (members_after_dispatch_were_called first_unregisters_second 10
                  two_listeners r.2 wf_two_listeners) tx2_event eq_refl).
Defined.

Lemma respawning_callback_never_returns_witness :
  let l := {| lid := 0; transactionId := "tx1"; callback := 6;
              options := default_options |} in
  wf respawning_listener ∧
  (sendEvent respawning 50 tx1_event respawning_listener).1 = Unfinished.
Proof.
  intros l.
  assert (Hwf : wf respawning_listener) by apply sound_register, sound_new.
  split; [exact Hwf|].
  apply (respawning_callback_never_returns respawning 50 tx1_event
           respawning_listener 0 l Hwf eq_refl eq_refl eq_refl).
  - exists "tx1". by split.
  - intros j l' Hj. lia.
Defined.

(** ** Registering the same callback twice *)

Lemma invocations_quiet_history_other h error event data :
  (∀ l, Some l ∈ data → lid l ≠ h) →
  invocations h (quiet_history error event data) = 0.
Proof.
  induction data as [|slot data IH]; intros Hno; [done|].
  rewrite quiet_history_cons, invocations_app, IH.
  - destruct slot as [l|]; [|done].
    rewrite invocations_onEvent_obs by done.
    destruct (decide (lid l = h)) as [Heq|]; [|done].
    destruct (Hno l); [left | done].
  - intros l Hin. apply Hno. by right.
Qed.

Lemma quiet_history_app error event d1 d2 :
  quiet_history error event (d1 ++ d2) =
  quiet_history error event d1 ++ quiet_history error event d2.
Proof. unfold quiet_history. apply bind_app. Qed.

Lemma invocations_quiet_history_member error event s k l :
  wf s → eventListeners s !! k = Some (Some l) →
  invocations (lid l) (quiet_history error event (eventListeners s)) =
  if matches l error event then 1 else 0.
Proof.
  intros Hwf Hk. rewrite <- (take_drop_middle _ _ _ Hk).
  rewrite quiet_history_app, quiet_history_cons, !invocations_app.
  rewrite !invocations_quiet_history_other.
  - rewrite invocations_onEvent_obs by done.
    destruct (decide (lid l = lid l)); [|done].
    destruct (matches l error event); lia.
  - intros l0 Hin Heq. apply list_elem_of_lookup in Hin as [i Hi].
    rewrite lookup_drop in Hi.
    assert (S k + i = k) by (by apply (proj1 Hwf _ _ l0 l)). lia.
  - intros l0 Hin Heq. apply list_elem_of_lookup in Hin as [i Hi].
    rewrite lookup_take in Hi. destruct (decide (i < k)); [|done].
    assert (i = k) by (by apply (proj1 Hwf _ _ l0 l)). lia.
Qed.

(** X11. [registerTransactionListener] never recognises a callback it
    has seen: two registrations with the same transaction id, callback
    and options give two handles that are both members, and a matching
    event calls the callback once for each of them (when the callbacks
    that are called do nothing). *)
Theorem same_callback_registered_twice
    (behaviour : EventCallback → option Error → option EventInfo →
                 StubEventService → list Action)
    (fuel : nat) (txid : string) (cb : EventCallback)
    (opts : EventRegistrationOptions) (event : EventInfo)
    (s : StubEventService) :
  wf s →
  let first := registerTransactionListener txid cb opts s in
  let second := registerTransactionListener txid cb opts first.2 in
  lid first.1 ≠ lid second.1 ∧
  registered (lid first.1) second.2 ∧ registered (lid second.1) second.2 ∧
  (ev_transactionId event = Some txid →
   quiet_all behaviour None (Some event) second.2 →
   length (eventListeners second.2) < fuel →
   let t := since second.2 (sendEvent behaviour fuel event second.2).2 in
   invocations (lid first.1) t = 1 ∧ invocations (lid second.1) t = 1).
Proof.
  intros Hwf first second.
  destruct (register_member txid cb opts s Hwf) as (Hs1 & Ht1 & _ & _ & Hwf1).
  destruct (register_spec txid cb opts s Hwf) as (Hf1 & _ & Hn1 & _).
  fold first in Hs1, Ht1, Hwf1, Hf1, Hn1.
  destruct (register_member txid cb opts first.2 Hwf1) as (Hs2 & Ht2 & _ & _ & Hwf2).
  destruct (register_spec txid cb opts first.2 Hwf1) as (Hf2 & Hd2 & _ & E2).
  fold second in Hs2, Ht2, Hwf2, Hf2, Hd2, E2.
  assert (Hs1' : eventListeners second.2 !! length (eventListeners s) =
                 Some (Some first.1)).
  { destruct (ev_old _ _ _ E2 _ _ Hs1) as [H|[_ Hu]]; [done|].
    apply list_elem_of_singleton in Hu. done. }
  split; [rewrite Hf1, Hf2; simpl; lia|].
  split; [apply registered_lookup; eauto|].
  split; [apply registered_lookup; eauto|].
  intros Hev Hq Hfuel t.
  destruct (walk_quiet_all behaviour None (Some event) ltac:(by right)
              fuel second.2 Hwf2 Hfuel Hq) as (s' & Hrun & _ & _ & Htr).
  assert (t = quiet_history None (Some event) (eventListeners second.2)) as ->.
  { subst t. unfold sendEvent. rewrite Hrun. by apply since_app. }
  rewrite (invocations_quiet_history_member _ _ _ _ _ Hwf2 Hs1').
  rewrite (invocations_quiet_history_member _ _ _ _ _ Hwf2 Hs2).
  assert (Hm : ∀ l, transactionId l = txid → matches l None (Some event) = true).
  { intros l Hl. unfold matches, condition. rewrite Hl.
    by rewrite bool_decide_eq_true_2. }
  by rewrite (Hm _ Ht1), (Hm _ Ht2).
Qed.

Lemma same_callback_registered_twice_witness :
  let first := registerTransactionListener "tx1" 3 keep_options
                 (new_StubEventService "peer0") in
  let second := registerTransactionListener "tx1" 3 keep_options first.2 in
  wf (new_StubEventService "peer0") ∧
  lid first.1 ≠ lid second.1 ∧
  registered (lid first.1) second.2 ∧ registered (lid second.1) second.2 ∧
  (ev_transactionId tx1_event = Some "tx1" →
   quiet_all silent None (Some tx1_event) second.2 →
   length (eventListeners second.2) < 5 →
   let t := since second.2 (sendEvent silent 5 tx1_event second.2).2 in
   invocations (lid first.1) t = 1 ∧ invocations (lid second.1) t = 1).
Proof.
  intros first second. split; [apply wf_new|].
  exact (same_callback_registered_twice silent 5 "tx1" 3 keep_options tx1_event
           (new_StubEventService "peer0") (wf_new "peer0")).
Defined.

End EventStubProofs.

(** ** Facts about the network *)

Module NetworkProofs.

Import Network.

(** ** Target selection *)

Lemma check_connected_all ts :
  Forall (λ p, connected p = true) ts → check_connected ts = Normal tt.
Proof.
  induction 1 as [|p ts Hp _ IH]; simpl; [done|]. by rewrite Hp.
Qed.

Lemma check_connected_first before t after :
  Forall (λ p, connected p = true) before → connected t = false →
  check_connected (before ++ t :: after) = Abrupt (not_connected (name t)).
Proof.
  intros Hb Ht. induction Hb as [|p ps Hp _ IH]; simpl.
  - by rewrite Ht.
  - by rewrite Hp.
Qed.

Lemma first_unconnected ts t :
  t ∈ ts → connected t = false →
  ∃ before t' after,
    ts = before ++ t' :: after ∧
    Forall (λ p, connected p = true) before ∧ connected t' = false.
Proof.
  induction ts as [|p ts IH]; intros Hin Ht; [by inversion Hin|].
  destruct (connected p) eqn:Hp.
  - apply elem_of_cons in Hin as [->|Hin]; [congruence|].
    destruct (IH Hin Ht) as (before & t' & after & -> & Hb & Ht').
    exists (p :: before), t', after. split; [done|]. split; [|done].
    by apply Forall_cons.
  - exists [], p, ts. by split.
Qed.

Section NetworkFacts.

Variable env : Collaborators.

Lemma select_unconnected opts n before t after :
  targets opts = TargetArray (before ++ t :: after) →
  Forall (λ p, connected p = true) before → connected t = false →
  select_targets env opts n = (Abrupt (not_connected (name t)), n).
Proof.
  intros Ht Hb Hc. unfold select_targets. rewrite Ht.
  pose proof (check_connected_first before t after Hb Hc) as Hcheck.
  destruct (before ++ t :: after) as [|x xs] eqn:E.
  - by destruct before.
  - by rewrite Hcheck.
Qed.

(** C7. With discovery enabled, an empty array of targets makes
    [_initializeInternalChannel] throw "No discovery targets found",
    and an array with a target that is not connected makes it throw the
    error that names the first such target. In both cases the network
    is returned as it was: no collaborator has been called, so nothing
    has been sent to a peer. *)
Theorem supplied_targets_fail_early
    (opts : DiscoveryOptions) (n : Network) :
  enabled opts = true →
  (targets opts = TargetArray [] →
   _initializeInternalChannel env opts n =
     (Abrupt "No discovery targets found", n)) ∧
  (∀ before t after,
     targets opts = TargetArray (before ++ t :: after) →
     Forall (λ p, connected p = true) before → connected t = false →
     _initializeInternalChannel env opts n =
       (Abrupt ("Endorser instance " +:+ name t +:+
                " is not connected to an endpoint"), n)) ∧
  (∀ ts t,
     targets opts = TargetArray ts → t ∈ ts → connected t = false →
     ∃ t', t' ∈ ts ∧ connected t' = false ∧
           _initializeInternalChannel env opts n =
             (Abrupt ("Endorser instance " +:+ name t' +:+
                      " is not connected to an endpoint"), n)).
Proof.
  intros Hen. unfold _initializeInternalChannel. rewrite Hen.
  split; [|split].
  - intros Ht. unfold select_targets. by rewrite Ht.
  - intros before t after Ht Hb Hc.
    by rewrite (select_unconnected opts n before t after Ht Hb Hc).
  - intros ts t Ht Hin Hc.
    destruct (first_unconnected ts t Hin Hc)
      as (before & t' & after & -> & Hb & Hc').
    exists t'. split; [apply elem_of_app; right; left|]. split; [done|].
    by rewrite (select_unconnected opts n before t' after Ht Hb Hc').
Qed.

Lemma record_record cs1 cs2 n :
  record cs2 (record cs1 n) = record (cs1 ++ cs2) n.
Proof. unfold record. simpl. by rewrite app_assoc. Qed.

Lemma missing_found found peers :
  found = Some peers → peers ≠ [] → missing found = false.
Proof. intros -> Hne. by destruct peers. Qed.

(** C8. With no supplied targets, the targets are the endorsers that
    the channel has for the identity's organisation; if there are none,
    those that the client has for that organisation; if there are none
    either, any endorser the client knows. If that is empty as well,
    [_initializeInternalChannel] throws "No discovery targets found"
    after asking each source once, without a call to a peer. *)
Theorem known_targets_precedence (opts : DiscoveryOptions) (n : Network) :
  targets opts = NoTargets →
  let msp := identity_mspId env in
  let on_channel := channel_getEndorsers env msp in
  let on_client := client_getEndorsers env (Some msp) in
  let anywhere := client_getEndorsers env None in
  (∀ found, on_channel = Some found → found ≠ [] →
     (select_targets env opts n).1 = Normal found) ∧
  (∀ found, missing on_channel = true →
     on_client = Some found → found ≠ [] →
     (select_targets env opts n).1 = Normal found) ∧
  (∀ found, missing on_channel = true → missing on_client = true →
     anywhere = Some found → found ≠ [] →
     (select_targets env opts n).1 = Normal found) ∧
  (missing on_channel = true → missing on_client = true →
   missing anywhere = true → enabled opts = true →
   _initializeInternalChannel env opts n =
     (Abrupt "No discovery targets found",
      record [CallGetIdentity; CallChannelGetEndorsers msp;
              CallClientGetEndorsers (Some msp);
              CallClientGetEndorsers None] n)).
Proof.
  intros Ht msp on_channel on_client anywhere.
  unfold _initializeInternalChannel, select_targets, known_targets.
  rewrite Ht. fold msp. fold on_channel. fold on_client. fold anywhere.
  split; [|split; [|split]].
  - intros found Hf Hne. rewrite !(missing_found _ _ Hf Hne). by rewrite Hf.
  - intros found Hm Hf Hne. rewrite Hm, !(missing_found _ _ Hf Hne).
    by rewrite Hf.
  - intros found Hm1 Hm2 Hf Hne. rewrite Hm1, Hm2, !(missing_found _ _ Hf Hne).
    by rewrite Hf.
  - intros Hm1 Hm2 Hm3 Hen. rewrite Hen, Hm1, Hm2, Hm3.
    by rewrite !record_record.
Qed.

End NetworkFacts.

Lemma supplied_targets_fail_early_witness :
  enabled (discover (TargetArray [peer1; peer2; peer3])) = true ∧
  _initializeInternalChannel lonely (discover (TargetArray [])) new_Network =
    (Abrupt "No discovery targets found", new_Network) ∧
  _initializeInternalChannel lonely
    (discover (TargetArray [peer1; peer2; peer3])) new_Network =
    (Abrupt "Endorser instance peer2.org1 is not connected to an endpoint",
     new_Network).
Proof.
  split; [reflexivity|]. split.
  - apply (supplied_targets_fail_early lonely (discover (TargetArray []))
             new_Network); reflexivity.
  - apply (proj1 (proj2 (supplied_targets_fail_early lonely
                    (discover (TargetArray [peer1; peer2; peer3]))
                    new_Network eq_refl)) [peer1] peer2 [peer3]);
      [reflexivity | by repeat constructor | reflexivity].
Defined.

Lemma known_targets_precedence_witness :
  targets (discover NoTargets) = NoTargets ∧
  (select_targets lonely (discover NoTargets) new_Network).1 = Normal [peer3] ∧
  _initializeInternalChannel deserted (discover NoTargets) new_Network =
    (Abrupt "No discovery targets found",
     record [CallGetIdentity; CallChannelGetEndorsers "Org1MSP";
             CallClientGetEndorsers (Some "Org1MSP");
             CallClientGetEndorsers None] new_Network).
Proof.
  split; [reflexivity|]. split.
  - apply (proj1 (proj2 (proj2 (known_targets_precedence lonely
                    (discover NoTargets) new_Network eq_refl))));
      [reflexivity | reflexivity | reflexivity | done].
  - apply (proj2 (proj2 (proj2 (known_targets_precedence deserted
                    (discover NoTargets) new_Network eq_refl))));
      reflexivity.
Defined.

(** ** The contract cache *)

Lemma contract_key_inj c1 n1 c2 n2 :
  no_colon c1 → no_colon c2 →
  contract_key c1 n1 = contract_key c2 n2 → c1 = c2 ∧ n1 = n2.
Proof.
  unfold contract_key. revert c2. induction c1 as [|a c1 IH]; intros [|b c2];
    simpl; intros H1 H2 E.
  - by inversion E.
  - inversion E; subst. by destruct H2.
  - inversion E; subst. by destruct H1.
  - inversion E; subst. destruct H1 as [_ H1]. destruct H2 as [_ H2].
    destruct (IH c2 H1 H2) as [-> ->]; done.
Qed.

(** C10. The code breaks the claim on an initialised network with an
    empty cache. [getContract "a:b" "c"] creates and stores one
    contract. The pair ["a"], ["b:c"] is a different pair and has never
    been asked for, but the key built for it is the same string
    ["a:b:c"]: [getContract "a" "b:c"] creates and stores nothing and
    returns the contract that was built for chaincode ["a:b"]. *)
Theorem getContract_key_collision :
  let first := getContract "a:b" (Some "c") None ready_network in
  let second := getContract "a" (Some "b:c") None first.2 in
  initialized ready_network = true ∧
  contracts ready_network = ∅ ∧
  contract_key "a" "b:c" = contract_key "a:b" "c" ∧
  calls first.2 = calls ready_network ++
    [NewContract {| contract_id := nextObject ready_network;
                    chaincodeId := "a:b"; namespace := "c";
                    collections := None |}] ∧
  second.2 = first.2 ∧
  second.1 = first.1 ∧
  ∃ contract, second.1 = Normal contract ∧ chaincodeId contract = "a:b" ∧
              namespace contract = "c".
Proof.
  split; [reflexivity|]. split; [reflexivity|]. split; [reflexivity|].
  split; [reflexivity|]. split; [reflexivity|]. split; [reflexivity|].
  eexists. split; [reflexivity|]. split; reflexivity.
Qed.

(** [getContract] and its cache, key by key. The call throws when the
    network is not initialised. On an initialised network it returns a
    contract, and a second call with the same chaincode id and name
    returns the same contract and changes nothing. When the key of the
    call is not in the cache, one new contract with the given chaincode
    id, name and collections is created and stored under that key, and
    every other entry stays as it was; when the key is in the cache,
    nothing changes. *)
Theorem getContract_memoizes
    (chaincode : string) (contract_name : option string)
    (colls colls' : option (list string)) (n : Network) :
  (initialized n = false →
   getContract chaincode contract_name colls n =
     (Abrupt "Unable to get contract as this network has failed to initialize",
      n)) ∧
  (initialized n = true →
   let key := contract_key chaincode (default "" contract_name) in
   ∃ contract n1,
     getContract chaincode contract_name colls n = (Normal contract, n1) ∧
     getContract chaincode contract_name colls' n1 = (Normal contract, n1) ∧
     contracts n1 !! key = Some contract ∧
     (∀ k, k ≠ key → contracts n1 !! k = contracts n !! k) ∧
     (contracts n !! key = None →
      contract = {| contract_id := nextObject n; chaincodeId := chaincode;
                    namespace := default "" contract_name;
                    collections := colls |} ∧
      contracts n1 = <[key := contract]> (contracts n) ∧
      size (contracts n1) = S (size (contracts n)) ∧
      calls n1 = calls n ++ [NewContract contract]) ∧
     (is_Some (contracts n !! key) → n1 = n)).
Proof.
  split.
  - intros Hi. unfold getContract. by rewrite Hi.
  - intros Hi key. unfold getContract. rewrite Hi. fold key.
    destruct (contracts n !! key) as [existing|] eqn:Hk.
    + exists existing, n. rewrite Hi, Hk.
      split; [done|]. split; [done|]. split; [done|]. split; [done|].
      split; [done|]. done.
    + eexists _, _. split; [done|]. simpl. rewrite Hi.
      rewrite lookup_insert_eq. split; [done|]. split; [done|].
      split; [intros k Hne; by rewrite lookup_insert_ne|].
      split.
      * intros _. split; [done|]. split; [done|].
        split; [by apply map_size_insert_None | done].
      * by intros [x Hx].
Qed.

Example getContract_on_new_and_ready_network :
  let key := contract_key "basic" "" in
  initialized new_Network = false ∧ initialized ready_network = true ∧
  getContract "basic" None None new_Network =
    (Abrupt "Unable to get contract as this network has failed to initialize",
     new_Network) ∧
  ∃ contract n1,
    getContract "basic" None None ready_network = (Normal contract, n1) ∧
    getContract "basic" None (Some ["private"]) n1 = (Normal contract, n1) ∧
    contracts n1 !! key = Some contract ∧
    (∀ k, k ≠ key → contracts n1 !! k = contracts ready_network !! k) ∧
    (contracts ready_network !! key = None →
     contract = {| contract_id := nextObject ready_network;
                   chaincodeId := "basic"; namespace := "";
                   collections := None |} ∧
     contracts n1 = <[key := contract]> (contracts ready_network) ∧
     size (contracts n1) = S (size (contracts ready_network)) ∧
     calls n1 = calls ready_network ++ [NewContract contract]) ∧
    (is_Some (contracts ready_network !! key) → n1 = ready_network).
Proof.
  intros key. split; [reflexivity|]. split; [reflexivity|]. split.
  - exact (proj1 (getContract_memoizes "basic" None None None new_Network)
             eq_refl).
  - exact (proj2 (getContract_memoizes "basic" None None (Some ["private"])
                    ready_network) eq_refl).
Defined.

(** ** The commit-listener map *)

Lemma consistent_new : consistent new_Network.
Proof.
  split; [|split; [|split; [|split]]]; simpl.
  - intros session H. inversion H.
  - intros sid H. inversion H.
  - intros s1 s2 H. inversion H.
  - intros cb session H. by rewrite lookup_empty in H.
  - intros session [H _]. inversion H.
Qed.

(** Calls that are not about sessions, and allocations, keep the
    invariant. *)
Lemma consistent_other n n' cs :
  consistent n → Forall other_call cs →
  commitListeners n' = commitListeners n →
  nextObject n ≤ nextObject n' → calls n' = calls n ++ cs →
  consistent n'.
Proof.
  intros (I1 & I2 & I3 & I4 & I5) Hcs Hmap Hnext Hcalls.
  assert (Hnew : ∀ session, NewSession session ∈ calls n' →
                            NewSession session ∈ calls n).
  { intros session Hin. rewrite Hcalls in Hin.
    apply elem_of_app in Hin as [Hin|Hin]; [done|].
    rewrite Forall_forall in Hcs. by destruct (Hcs _ Hin). }
  assert (Hclose : ∀ sid, SessionClose sid ∈ calls n' →
                          SessionClose sid ∈ calls n).
  { intros sid Hin. rewrite Hcalls in Hin.
    apply elem_of_app in Hin as [Hin|Hin]; [done|].
    rewrite Forall_forall in Hcs. by destruct (Hcs _ Hin). }
  assert (Hgrow : ∀ c, c ∈ calls n → c ∈ calls n').
  { intros c Hin. rewrite Hcalls. apply elem_of_app. by left. }
  split; [|split; [|split; [|split]]].
  - intros session Hin. specialize (I1 session (Hnew _ Hin)). lia.
  - intros sid Hin. specialize (I2 sid (Hclose _ Hin)). lia.
  - intros s1 s2 H1 H2. apply I3; by apply Hnew.
  - intros cb session Hl. rewrite Hmap in Hl.
    destruct (I4 cb session Hl) as (Hcb & Hin & Hopen).
    split; [done|]. split; [by apply Hgrow|]. intros Hc. by apply Hopen, Hclose.
  - intros session [Hin Hopen]. rewrite Hmap. apply I5. split.
    + by apply Hnew.
    + intros Hc. by apply Hopen, Hgrow.
Qed.

Lemma consistent_remove cb n :
  consistent n → consistent (removeCommitListener cb n).
Proof.
  intros Hn. pose proof Hn as (I1 & I2 & I3 & I4 & I5).
  unfold removeCommitListener.
  destruct (commitListeners n !! cb) as [old|] eqn:Hold; [|done].
  destruct (I4 cb old Hold) as (Hcb & Hin & Hopen).
  split; [|split; [|split; [|split]]]; simpl.
  - intros session Hs. apply elem_of_app in Hs as [Hs|Hs]; [by apply I1|].
    apply list_elem_of_singleton in Hs. done.
  - intros sid Hs. apply elem_of_app in Hs as [Hs|Hs]; [by apply I2|].
    apply list_elem_of_singleton in Hs. inversion Hs; subst. by apply I1.
  - intros s1 s2 H1 H2.
    apply elem_of_app in H1 as [H1|H1];
      [|apply list_elem_of_singleton in H1; done].
    apply elem_of_app in H2 as [H2|H2];
      [|apply list_elem_of_singleton in H2; done].
    by apply I3.
  - intros cb' session Hl.
    destruct (decide (cb' = cb)) as [->|Hne];
      [by rewrite lookup_delete_eq in Hl|].
    rewrite lookup_delete_ne in Hl by done.
    destruct (I4 cb' session Hl) as (Hcb' & Hin' & Hopen').
    split; [done|]. split; [apply elem_of_app; by left|].
    unfold open_session. simpl. intros Hc.
    apply elem_of_app in Hc as [Hc|Hc]; [done|].
    apply list_elem_of_singleton in Hc. inversion Hc as [Hid].
    assert (session = old) by (by apply I3). subst session. congruence.
  - intros session [Hs Hopen']. simpl in Hs, Hopen'.
    apply elem_of_app in Hs as [Hs|Hs];
      [|apply list_elem_of_singleton in Hs; done].
    assert (Hnc : SessionClose (session_id session) ∉ calls n).
    { intros Hc. apply Hopen'. apply elem_of_app. by left. }
    pose proof (I5 session (conj Hs Hnc)) as Hl.
    destruct (decide (listener session = cb)) as [Heq|Hne].
    + rewrite Heq, Hold in Hl. inversion Hl; subst old.
      destruct Hopen'. apply elem_of_app. right. left.
    + by rewrite lookup_delete_ne.
Qed.

Lemma session_free_refl n : session_free n n.
Proof. exists []. by rewrite app_nil_r. Qed.

Lemma session_free_trans n1 n2 n3 :
  session_free n1 n2 → session_free n2 n3 → session_free n1 n3.
Proof.
  intros (cs1 & H1 & C1 & M1 & N1) (cs2 & H2 & C2 & M2 & N2).
  exists (cs1 ++ cs2). split; [by apply Forall_app|].
  split; [by rewrite C2, C1, app_assoc|]. split; [congruence | lia].
Qed.

Lemma session_free_record cs n :
  Forall other_call cs → session_free n (record cs n).
Proof. intros Hcs. by exists cs. Qed.

Lemma consistent_session_free n n' :
  consistent n → session_free n n' → consistent n'.
Proof.
  intros Hn (cs & Hcs & Hcalls & Hmap & Hnext).
  by apply (consistent_other n n' cs).
Qed.

Section InitializationFacts.

Variable env : Collaborators.

Lemma connect_all_session_free found : ∀ discoverers n,
  session_free n (connect_all env found discoverers n).2.
Proof.
  induction found as [|peer rest IH]; intros discoverers n; simpl.
  - apply session_free_refl.
  - destruct (connect env (endpoint peer)).
    + apply session_free_record. by repeat constructor.
    + eapply session_free_trans; [|apply IH].
      apply session_free_record. by repeat constructor.
Qed.

Lemma known_targets_session_free n :
  session_free n (known_targets env n).2.
Proof.
  unfold known_targets.
  destruct (missing (channel_getEndorsers env (identity_mspId env))) eqn:E1;
    [destruct (missing (client_getEndorsers env (Some (identity_mspId env))))
       eqn:E2|];
    rewrite ?E1, ?E2; simpl; rewrite ?record_record;
    apply session_free_record; by repeat constructor.
Qed.

Lemma select_targets_session_free opts n :
  session_free n (select_targets env opts n).2.
Proof.
  unfold select_targets. destruct (targets opts) as [| |[|t ts]].
  - pose proof (known_targets_session_free n) as H.
    destruct (known_targets env n) as [found n1]. simpl in H.
    by destruct (missing found).
  - apply session_free_refl.
  - apply session_free_refl.
  - destruct (check_connected (t :: ts)); apply session_free_refl.
Qed.

Lemma initializeInternalChannel_session_free opts n :
  session_free n (_initializeInternalChannel env opts n).2.
Proof.
  unfold _initializeInternalChannel. destruct (enabled opts).
  - pose proof (select_targets_session_free opts n) as H1.
    destruct (select_targets env opts n) as [[found|e|] n1]; simpl in H1;
      [|done|done].
    pose proof (connect_all_session_free found [] n1) as H2.
    destruct (connect_all env found [] n1) as [[discoverers|e|] n2];
      simpl in H2; [|by eapply session_free_trans|by eapply session_free_trans].
    assert (H3 : session_free n2
              (record [CallNewDiscoveryService (channel_name env); CallBuild;
                       CallSign; CallSend (asLocalhost opts) discoverers]
                 (set_discoveryService (Some (channel_name env)) n2))).
    { exists [CallNewDiscoveryService (channel_name env); CallBuild;
              CallSign; CallSend (asLocalhost opts) discoverers].
      split; [by repeat constructor | done]. }
    destruct (send env discoverers); simpl;
      eapply session_free_trans; try exact H3; by eapply session_free_trans.
  - exists []. simpl. by rewrite app_nil_r.
Qed.

Lemma consistent_initialize discover n :
  consistent n → consistent (_initialize env discover n).2.
Proof.
  intros Hn. unfold _initialize. destruct (initialized n); [done|].
  pose proof (initializeInternalChannel_session_free discover n) as H1.
  destruct (_initializeInternalChannel env discover n) as [[[]|e|] n1];
    simpl in *; try by eapply consistent_session_free.
  eapply consistent_session_free; [exact Hn|].
  eapply session_free_trans; [exact H1|].
  exists [CallQueryStrategy]. split; [by repeat constructor | done].
Qed.

End InitializationFacts.

Lemma consistent_getContract chaincode contract_name colls n :
  consistent n → consistent (getContract chaincode contract_name colls n).2.
Proof.
  intros Hn. unfold getContract. destruct (initialized n); [|done].
  destruct (contracts n !! _); [done|]. simpl.
  eapply consistent_session_free; [exact Hn|].
  eexists [NewContract _]. split; [by repeat constructor|]. simpl.
  split; [done|]. split; [done | lia].
Qed.

Section CommitListenerFacts.

Variable env : Collaborators.

(** What [addCommitListener] does for a callback that has no session. *)
Lemma add_fresh cb targets txid n :
  commitListeners n !! cb = None →
  let session := {| session_id := nextObject n; listener := cb;
                    peers := targets; transactionId := txid |} in
  let stored :=
    record [SessionStart (nextObject n)]
      (set_commitListeners (<[cb := session]> (commitListeners n))
         (record [NewSession session] (allocate n))) in
  (addCommitListener env cb targets txid n).2 =
    (if removes_listener (start env session)
     then removeCommitListener cb stored else stored) ∧
  (addCommitListener env cb targets txid n).1 =
    match start_error (start env session) with
    | Some e => Abrupt e
    | None => Normal cb
    end.
Proof.
  intros Hnone session stored. unfold addCommitListener. rewrite Hnone.
  fold session. fold stored.
  by destruct (start_error (start env session)).
Qed.

Lemma consistent_stored cb targets txid n :
  consistent n → commitListeners n !! cb = None →
  let session := {| session_id := nextObject n; listener := cb;
                    peers := targets; transactionId := txid |} in
  consistent
    (record [SessionStart (nextObject n)]
       (set_commitListeners (<[cb := session]> (commitListeners n))
          (record [NewSession session] (allocate n)))).
Proof.
  intros (I1 & I2 & I3 & I4 & I5) Hnone session.
  apply (consistent_other
           (set_commitListeners (<[cb := session]> (commitListeners n))
              (record [NewSession session] (allocate n)))
           _ [SessionStart (nextObject n)]);
    [|by apply Forall_singleton | done | done | done].
  split; [|split; [|split; [|split]]]; simpl.
  - intros s Hs. apply elem_of_app in Hs as [Hs|Hs].
    + specialize (I1 s Hs). lia.
    + apply list_elem_of_singleton in Hs. inversion Hs; subst. simpl. lia.
  - intros sid Hs. apply elem_of_app in Hs as [Hs|Hs].
    + specialize (I2 sid Hs). lia.
    + apply list_elem_of_singleton in Hs. done.
  - intros s1 s2 H1 H2 Hid.
    apply elem_of_app in H1 as [H1|H1]; apply elem_of_app in H2 as [H2|H2].
    + by apply I3.
    + apply list_elem_of_singleton in H2. inversion H2; subst s2.
      specialize (I1 s1 H1). simpl in Hid. lia.
    + apply list_elem_of_singleton in H1. inversion H1; subst s1.
      specialize (I1 s2 H2). simpl in Hid. lia.
    + apply list_elem_of_singleton in H1. apply list_elem_of_singleton in H2.
      congruence.
  - intros cb' s Hl. unfold open_session. simpl.
    destruct (decide (cb' = cb)) as [->|Hne].
    + rewrite lookup_insert_eq in Hl. inversion Hl; subst s.
      split; [done|]. split; [apply elem_of_app; right; left|].
      intros Hc. apply elem_of_app in Hc as [Hc|Hc].
      * specialize (I2 _ Hc). simpl in I2. lia.
      * apply list_elem_of_singleton in Hc. done.
    + rewrite lookup_insert_ne in Hl by done.
      destruct (I4 cb' s Hl) as (Hcb' & Hin' & Hopen').
      split; [done|]. split; [apply elem_of_app; by left|].
      intros Hc. apply elem_of_app in Hc as [Hc|Hc]; [done|].
      apply list_elem_of_singleton in Hc. done.
  - intros s [Hs Hopen']. simpl in Hs, Hopen'.
    apply elem_of_app in Hs as [Hs|Hs].
    + assert (Hnc : SessionClose (session_id s) ∉ calls n).
      { intros Hc. apply Hopen'. apply elem_of_app. by left. }
      pose proof (I5 s (conj Hs Hnc)) as Hl.
      destruct (decide (listener s = cb)) as [Heq|Hne]; [congruence|].
      by rewrite lookup_insert_ne.
    + apply list_elem_of_singleton in Hs. inversion Hs; subst s. simpl.
      by rewrite lookup_insert_eq.
Qed.

Lemma consistent_add cb targets txid n :
  consistent n → consistent (addCommitListener env cb targets txid n).2.
Proof.
  intros Hn. destruct (commitListeners n !! cb) as [old|] eqn:Hold.
  - unfold addCommitListener. by rewrite Hold.
  - rewrite (proj1 (add_fresh cb targets txid n Hold)).
    pose proof (consistent_stored cb targets txid n Hn Hold) as Hs.
    destruct (removes_listener _); [by apply consistent_remove | done].
Qed.

End CommitListenerFacts.

Section CommitListenerClaim.

Variable env : Collaborators.

Lemma add_creates cb targets txid n :
  consistent n → commitListeners n !! cb = None →
  let fresh := {| session_id := nextObject n; listener := cb;
                  peers := targets; transactionId := txid |} in
  let r := addCommitListener env cb targets txid n in
  (NewSession fresh ∉ calls n) ∧
  calls r.2 = calls n ++ [NewSession fresh; SessionStart (nextObject n)] ++
              (if removes_listener (start env fresh)
               then [SessionClose (nextObject n)] else []) ∧
  commitListeners r.2 !! cb =
    (if removes_listener (start env fresh) then None else Some fresh) ∧
  r.1 = match start_error (start env fresh) with
        | Some e => Abrupt e
        | None => Normal cb
        end.
Proof.
  intros (I1 & _) Hnone fresh r.
  destruct (add_fresh env cb targets txid n Hnone) as [H2 H1].
  fold fresh in H1, H2. fold r in H1, H2.
  split; [|split; [|split]].
  - intros Hin. specialize (I1 _ Hin). simpl in I1. lia.
  - rewrite H2. destruct (removes_listener (start env fresh)).
    + unfold removeCommitListener. simpl. rewrite lookup_insert_eq. simpl.
      by rewrite <- !app_assoc.
    + simpl. by rewrite <- !app_assoc.
  - rewrite H2. destruct (removes_listener (start env fresh)).
    + unfold removeCommitListener. simpl. rewrite lookup_insert_eq. simpl.
      by rewrite lookup_delete_eq.
    + simpl. by rewrite lookup_insert_eq.
  - done.
Qed.

(** C6. On a network whose map is consistent, no two open sessions
    belong to the same callback. [addCommitListener] with a callback
    that has a session creates nothing, changes nothing and returns the
    callback. With a callback that has none it creates exactly one
    session, a new object, and stores it under the callback before it
    starts it. [removeCommitListener] closes the session of the
    callback and deletes the entry, so that the next
    [addCommitListener] with that callback creates a session that is
    not the closed one. *)
Theorem commit_listener_sessions (n : Network) (cb : CommitListener)
    (targets : list Endorser) (txid : string) :
  consistent n →
  let fresh := {| session_id := nextObject n; listener := cb;
                  peers := targets; transactionId := txid |} in
  (∀ s1 s2, open_session n s1 → open_session n s2 →
            listener s1 = listener s2 → s1 = s2) ∧
  (is_Some (commitListeners n !! cb) →
   addCommitListener env cb targets txid n = (Normal cb, n)) ∧
  (commitListeners n !! cb = None →
   let r := addCommitListener env cb targets txid n in
   (NewSession fresh ∉ calls n) ∧
   calls r.2 = calls n ++ [NewSession fresh; SessionStart (nextObject n)] ++
               (if removes_listener (start env fresh)
                then [SessionClose (nextObject n)] else []) ∧
   commitListeners r.2 !! cb =
     (if removes_listener (start env fresh) then None else Some fresh)) ∧
  (∀ old, commitListeners n !! cb = Some old →
   let n1 := removeCommitListener cb n in
   let r := addCommitListener env cb targets txid n1 in
   commitListeners n1 !! cb = None ∧
   calls n1 = calls n ++ [SessionClose (session_id old)] ∧
   fresh ≠ old ∧ (NewSession fresh ∉ calls n1) ∧
   NewSession fresh ∈ calls r.2 ∧
   (removes_listener (start env fresh) = false →
    commitListeners r.2 !! cb = Some fresh)).
Proof.
  intros Hn fresh. pose proof Hn as (I1 & I2 & I3 & I4 & I5).
  split; [|split; [|split]].
  - intros s1 s2 H1 H2 Hl. pose proof (I5 s1 H1) as L1.
    pose proof (I5 s2 H2) as L2. rewrite Hl in L1. congruence.
  - intros [old Hold]. unfold addCommitListener. by rewrite Hold.
  - intros Hnone r.
    destruct (add_creates cb targets txid n Hn Hnone) as (H1 & H2 & H3 & _).
    by split; [|split].
  - intros old Hold n1 r.
    assert (Hn1 : consistent n1) by (by apply consistent_remove).
    assert (Hnone : commitListeners n1 !! cb = None).
    { subst n1. unfold removeCommitListener. rewrite Hold. simpl.
      by rewrite lookup_delete_eq. }
    assert (Hnext : nextObject n1 = nextObject n).
    { subst n1. unfold removeCommitListener. by rewrite Hold. }
    destruct (add_creates cb targets txid n1 Hn1 Hnone) as (H1 & H2 & H3 & _).
    rewrite Hnext in H1, H2, H3. fold fresh in H1, H2, H3. fold r in H2, H3.
    split; [done|]. split.
    { subst n1. unfold removeCommitListener. by rewrite Hold. }
    split.
    { intros Heq. destruct (I4 cb old Hold) as (_ & Hin & _).
      rewrite <- Heq in Hin. specialize (I1 _ Hin). simpl in I1. lia. }
    split; [done|]. split.
    { rewrite H2. apply elem_of_app. right. left. }
    intros Hrm. by rewrite Hrm in H3.
Qed.

End CommitListenerClaim.

Lemma consistent_ready : consistent ready_network.
Proof. apply consistent_initialize, consistent_new. Qed.

Lemma commit_listener_sessions_witness :
  let n := (addCommitListener lonely 7 [peer1] "tx1" ready_network).2 in
  let fresh := {| session_id := nextObject n; listener := 7;
                  peers := [peer3]; transactionId := "tx2" |} in
  consistent n ∧
  (∀ s1 s2, open_session n s1 → open_session n s2 →
            listener s1 = listener s2 → s1 = s2) ∧
  (is_Some (commitListeners n !! 7) →
   addCommitListener lonely 7 [peer3] "tx2" n = (Normal 7, n)) ∧
  (commitListeners n !! 7 = None →
   let r := addCommitListener lonely 7 [peer3] "tx2" n in
   (NewSession fresh ∉ calls n) ∧
   calls r.2 = calls n ++ [NewSession fresh; SessionStart (nextObject n)] ++
               (if removes_listener (start lonely fresh)
                then [SessionClose (nextObject n)] else []) ∧
   commitListeners r.2 !! 7 =
     (if removes_listener (start lonely fresh) then None else Some fresh)) ∧
  (∀ old, commitListeners n !! 7 = Some old →
   let n1 := removeCommitListener 7 n in
   let r := addCommitListener lonely 7 [peer3] "tx2" n1 in
   commitListeners n1 !! 7 = None ∧
   calls n1 = calls n ++ [SessionClose (session_id old)] ∧
   fresh ≠ old ∧ (NewSession fresh ∉ calls n1) ∧
   NewSession fresh ∈ calls r.2 ∧
   (removes_listener (start lonely fresh) = false →
    commitListeners r.2 !! 7 = Some fresh)).
Proof.
  intros n fresh.
  assert (Hn : consistent n) by apply consistent_add, consistent_ready.
  split; [exact Hn|].
  exact (commit_listener_sessions lonely n 7 [peer3] "tx2" Hn).
Defined.

(** Adding the same callback twice creates one session; removing it and
    adding it again creates a second one. *)
Example commit_listener_run :
  let n1 := (addCommitListener lonely 7 [peer1] "tx1" ready_network).2 in
  let n2 := (addCommitListener lonely 7 [peer1] "tx1" n1).2 in
  let n3 := (addCommitListener lonely 7 [peer1] "tx1"
               (removeCommitListener 7 n2)).2 in
  n2 = n1 ∧
  session_id <$> commitListeners n1 !! 7 = Some 0 ∧
  session_id <$> commitListeners n3 !! 7 = Some 1 ∧
  filter (λ c, ¬ other_call c) (calls n3) =
    [NewSession {| session_id := 0; listener := 7; peers := [peer1];
                   transactionId := "tx1" |};
     SessionClose 0;
     NewSession {| session_id := 1; listener := 7; peers := [peer1];
                   transactionId := "tx1" |}].
Proof. repeat split; vm_compute; reflexivity. Qed.

(** ** More about initialisation *)

Lemma record_nil n : record [] n = n.
Proof. destruct n. unfold record. simpl. by rewrite app_nil_r. Qed.

Lemma select_supplied env opts n ts :
  targets opts = TargetArray ts → ts ≠ [] →
  Forall (λ p, connected p = true) ts →
  select_targets env opts n = (Normal ts, n).
Proof.
  intros Ht Hne Hall. unfold select_targets. rewrite Ht.
  destruct ts as [|t ts]; [done|]. by rewrite check_connected_all.
Qed.

Section DiscoveryFacts.

Variable env : Collaborators.

Lemma connect_all_ok found : ∀ discoverers n,
  Forall (λ p, connect env (endpoint p) = None) found →
  connect_all env found discoverers n =
    (Normal (discoverers ++ (discoverer_of <$> found)),
     record (found ≫= connection_calls) n).
Proof.
  induction found as [|peer rest IH]; intros discoverers n Hok; simpl.
  - by rewrite app_nil_r, record_nil.
  - apply Forall_cons in Hok as [Hp Hrest]. rewrite Hp, (IH _ _ Hrest).
    rewrite record_record, <- app_assoc. done.
Qed.

Lemma connect_all_fails before peer after e : ∀ discoverers n,
  Forall (λ p, connect env (endpoint p) = None) before →
  connect env (endpoint peer) = Some e →
  connect_all env (before ++ peer :: after) discoverers n =
    (Abrupt e, record ((before ≫= connection_calls) ++ connection_calls peer) n).
Proof.
  induction before as [|p rest IH]; intros discoverers n Hok Hfail; simpl.
  - by rewrite Hfail.
  - apply Forall_cons in Hok as [Hp Hrest]. rewrite Hp, (IH _ _ Hrest Hfail).
    by rewrite record_record.
Qed.

(** X12. Once the targets are selected and every connection succeeds,
    [_initializeInternalChannel] creates and connects one discoverer
    per target, in the order of the targets, then creates the discovery
    service, builds, signs and sends once to exactly these discoverers.
    The discovery service is set before the send, so it stays set when
    the send fails. *)
Theorem discovery_contacts_selected_targets
    (opts : DiscoveryOptions) (n n1 : Network) (found : list Endorser) :
  enabled opts = true →
  select_targets env opts n = (Normal found, n1) →
  Forall (λ p, connect env (endpoint p) = None) found →
  let r := _initializeInternalChannel env opts n in
  calls r.2 = calls n1 ++ (found ≫= connection_calls) ++
              [CallNewDiscoveryService (channel_name env); CallBuild; CallSign;
               CallSend (asLocalhost opts) (discoverer_of <$> found)] ∧
  discoveryService r.2 = Some (channel_name env) ∧
  r.1 = match send env (discoverer_of <$> found) with
        | Some e => Abrupt e
        | None => Normal tt
        end.
Proof.
  intros Hen Hsel Hok r. subst r. unfold _initializeInternalChannel.
  rewrite Hen, Hsel, (connect_all_ok found [] n1 Hok). simpl.
  destruct (send env (discoverer_of <$> found)); simpl;
    by rewrite <- app_assoc.
Qed.

(** X13. The first connection that fails ends
    [_initializeInternalChannel] with that error: the targets after it
    are not contacted, no discovery service is created and nothing is
    sent. *)
Theorem failed_connection_stops_discovery
    (opts : DiscoveryOptions) (n n1 : Network)
    (before : list Endorser) (peer : Endorser) (after : list Endorser)
    (e : string) :
  enabled opts = true →
  select_targets env opts n = (Normal (before ++ peer :: after), n1) →
  Forall (λ p, connect env (endpoint p) = None) before →
  connect env (endpoint peer) = Some e →
  _initializeInternalChannel env opts n =
    (Abrupt e,
     record ((before ≫= connection_calls) ++ connection_calls peer) n1).
Proof.
  intros Hen Hsel Hok Hfail. unfold _initializeInternalChannel.
  by rewrite Hen, Hsel, (connect_all_fails before peer after e [] n1 Hok Hfail).
Qed.

(** X14. Supplied targets that are all connected are used as they are
    and in their order; neither the channel nor the client is asked for
    endorsers. This is the run in which every connection succeeds; a
    failing connection ends it earlier. *)
Theorem supplied_targets_used_as_given
    (opts : DiscoveryOptions) (n : Network) (ts : list Endorser) :
  enabled opts = true → targets opts = TargetArray ts → ts ≠ [] →
  Forall (λ p, connected p = true) ts →
  Forall (λ p, connect env (endpoint p) = None) ts →
  calls (_initializeInternalChannel env opts n).2 =
    calls n ++ (ts ≫= connection_calls) ++
    [CallNewDiscoveryService (channel_name env); CallBuild; CallSign;
     CallSend (asLocalhost opts) (discoverer_of <$> ts)].
Proof.
  intros Hen Ht Hne Hall Hok.
  pose proof (select_supplied env opts n ts Ht Hne Hall) as Hsel.
  unfold _initializeInternalChannel.
  rewrite Hen, Hsel, (connect_all_ok ts [] n Hok). simpl.
  destruct (send env (discoverer_of <$> ts)); simpl; by rewrite <- app_assoc.
Qed.

End DiscoveryFacts.

Lemma discovery_contacts_selected_targets_witness :
  let r := _initializeInternalChannel lonely (discover NoTargets) new_Network in
  enabled (discover NoTargets) = true ∧
  calls r.2 =
    [CallGetIdentity; CallChannelGetEndorsers "Org1MSP";
     CallClientGetEndorsers (Some "Org1MSP"); CallClientGetEndorsers None] ++
    ([peer3] ≫= connection_calls) ++
    [CallNewDiscoveryService "mychannel"; CallBuild; CallSign;
     CallSend false (discoverer_of <$> [peer3])] ∧
  discoveryService r.2 = Some "mychannel" ∧
  r.1 = Normal tt.
Proof.
  intros r. split; [reflexivity|].
  apply (discovery_contacts_selected_targets lonely (discover NoTargets)
           new_Network
           (select_targets lonely (discover NoTargets) new_Network).2 [peer3]);
    [reflexivity | reflexivity | by repeat constructor].
Defined.

Lemma failed_connection_stops_discovery_witness :
  enabled (discover (TargetArray [peer1; peer3])) = true ∧
  _initializeInternalChannel unreachable (discover (TargetArray [peer1; peer3]))
    new_Network =
    (Abrupt "Failed to connect",
     record (([peer1] ≫= connection_calls) ++ connection_calls peer3)
       new_Network).
Proof.
  split; [reflexivity|].
  apply (failed_connection_stops_discovery unreachable
           (discover (TargetArray [peer1; peer3])) new_Network new_Network
           [peer1] peer3 [] "Failed to connect");
    [reflexivity | reflexivity | by repeat constructor | reflexivity].
Defined.

Lemma supplied_targets_used_as_given_witness :
  enabled (discover (TargetArray [peer3; peer1])) = true ∧
  calls (_initializeInternalChannel lonely (discover (TargetArray [peer3; peer1]))
           new_Network).2 =
    calls new_Network ++ ([peer3; peer1] ≫= connection_calls) ++
    [CallNewDiscoveryService "mychannel"; CallBuild; CallSign;
     CallSend false (discoverer_of <$> [peer3; peer1])].
Proof.
  split; [reflexivity|].
  apply (supplied_targets_used_as_given lonely
           (discover (TargetArray [peer3; peer1])) new_Network [peer3; peer1]);
    [reflexivity | reflexivity | done | by repeat constructor
    | by repeat constructor].
Defined.

(** ** Initialisation and the contract cache *)

Section InitializeFacts.

Variable env : Collaborators.

Lemma connect_all_frame found : ∀ discoverers n,
  let n' := (connect_all env found discoverers n).2 in
  contracts n' = contracts n ∧ initialized n' = initialized n ∧
  nextObject n' = nextObject n.
Proof.
  induction found as [|peer rest IH]; intros discoverers n; simpl; [done|].
  destruct (connect env (endpoint peer)); [done|].
  exact (IH (discoverers ++ [discoverer_of peer])
           (record (connection_calls peer) n)).
Qed.

Lemma select_targets_frame opts n :
  let n' := (select_targets env opts n).2 in
  contracts n' = contracts n ∧ initialized n' = initialized n ∧
  nextObject n' = nextObject n.
Proof.
  unfold select_targets. destruct (targets opts) as [| |[|t ts]]; try done.
  - unfold known_targets.
    destruct (missing (channel_getEndorsers env (identity_mspId env))) eqn:E1;
      [destruct (missing (client_getEndorsers env (Some (identity_mspId env))))
         eqn:E2|];
      rewrite ?E1, ?E2; simpl;
      by repeat match goal with |- context [missing ?x] => destruct (missing x) end.
  - by destruct (check_connected (t :: ts)).
Qed.

Lemma initializeInternalChannel_frame opts n :
  let n' := (_initializeInternalChannel env opts n).2 in
  contracts n' = contracts n ∧ initialized n' = initialized n ∧
  nextObject n' = nextObject n.
Proof.
  unfold _initializeInternalChannel. destruct (enabled opts); [|done].
  pose proof (select_targets_frame opts n) as (S1 & S2 & S3).
  destruct (select_targets env opts n) as [[found|e|] n1]; simpl in *;
    [|done|done].
  pose proof (connect_all_frame found [] n1) as (C1 & C2 & C3).
  destruct (connect_all env found [] n1) as [[discoverers|e|] n2]; simpl in *;
    [|by rewrite C1, C2, C3|by rewrite C1, C2, C3].
  destruct (send env discoverers); simpl; by rewrite C1, C2, C3.
Qed.

(** X15. [_initialize] runs at most once with success: on a network
    that is initialised it returns at once and calls nobody. When the
    channel initialisation throws, [_initialize] throws the same error,
    the network stays uninitialised, [getContract] keeps throwing, and
    a later [_initialize] tries the channel initialisation again. When
    it succeeds, the network is initialised and [getContract] returns a
    contract. *)
Theorem initialize_once (discover : DiscoveryOptions) (n : Network) :
  (initialized n = true → _initialize env discover n = (Normal tt, n)) ∧
  (initialized n = false →
   ∀ e n1, _initializeInternalChannel env discover n = (Abrupt e, n1) →
     _initialize env discover n = (Abrupt e, n1) ∧
     initialized n1 = false ∧
     (∀ chaincode contract_name colls,
        getContract chaincode contract_name colls n1 =
          (Abrupt "Unable to get contract as this network has failed to initialize",
           n1)) ∧
     (∀ discover',
        (_initialize env discover' n1).1 =
        (_initializeInternalChannel env discover' n1).1)) ∧
  (initialized n = false →
   ∀ n1, _initializeInternalChannel env discover n = (Normal tt, n1) →
     let n2 := (_initialize env discover n).2 in
     (_initialize env discover n).1 = Normal tt ∧
     initialized n2 = true ∧
     calls n2 = calls n1 ++ [CallQueryStrategy] ∧
     ∀ chaincode contract_name colls,
       ∃ contract, (getContract chaincode contract_name colls n2).1 =
                   Normal contract).
Proof.
  split; [|split].
  - intros Hi. unfold _initialize. by rewrite Hi.
  - intros Hi e n1 Hint.
    pose proof (initializeInternalChannel_frame discover n) as (_ & F2 & _).
    rewrite Hint in F2. simpl in F2.
    assert (Hi1 : initialized n1 = false) by congruence.
    split; [unfold _initialize; by rewrite Hi, Hint|]. split; [done|]. split.
    + intros. unfold getContract. by rewrite Hi1.
    + intros discover'. unfold _initialize. rewrite Hi1.
      by destruct (_initializeInternalChannel env discover' n1) as [[[]|?|] ?].
  - intros Hi n1 Hint n2. subst n2. unfold _initialize. rewrite Hi, Hint. simpl.
    split; [done|]. split; [done|]. split; [done|].
    intros chaincode contract_name colls. unfold getContract. simpl.
    destruct (contracts n1 !! _); eauto.
Qed.

End InitializeFacts.

Lemma initialize_once_witness :
  initialized ready_network = true ∧ initialized new_Network = false ∧
  _initialize lonely (discover NoTargets) ready_network =
    (Normal tt, ready_network) ∧
  (let n1 := (_initializeInternalChannel deserted (discover NoTargets)
                new_Network).2 in
   _initialize deserted (discover NoTargets) new_Network =
     (Abrupt "No discovery targets found", n1) ∧
   initialized n1 = false) ∧
  initialized (_initialize lonely (discover NoTargets) new_Network).2 = true.
Proof.
  split; [reflexivity|]. split; [reflexivity|]. split; [|split].
  - exact (proj1 (initialize_once lonely (discover NoTargets) ready_network)
             eq_refl).
  - intros n1.
    destruct (proj1 (proj2 (initialize_once deserted (discover NoTargets)
                              new_Network))
                eq_refl "No discovery targets found" n1 eq_refl)
      as (H1 & H2 & _).
    by split.
  - exact (proj1 (proj2 (proj2 (proj2 (initialize_once lonely (discover NoTargets)
                                         new_Network))
                           eq_refl _ eq_refl))).
Defined.

(** ** More about commit listeners *)

Section CommitListenerMore.

Variable env : Collaborators.

(** X16. The invariant of the commit-listener map (the map holds
    exactly the sessions that were created and not closed, each under
    its own callback, and no two sessions are the same object) holds of
    a new network and is kept by [addCommitListener],
    [removeCommitListener], [getContract] and [_initialize]. *)
Theorem commit_listener_map_invariant (n : Network) :
  consistent n →
  (∀ cb targets txid, consistent (addCommitListener env cb targets txid n).2) ∧
  (∀ cb, consistent (removeCommitListener cb n)) ∧
  (∀ chaincode contract_name colls,
     consistent (getContract chaincode contract_name colls n).2) ∧
  (∀ discover, consistent (_initialize env discover n).2).
Proof.
  intros Hn. split; [|split; [|split]].
  - intros. by apply consistent_add.
  - intros. by apply consistent_remove.
  - intros. by apply consistent_getContract.
  - intros. by apply consistent_initialize.
Qed.

(** X17. When [session.start()] rejects without having removed the
    listener itself, [addCommitListener] rejects with that error, but
    the session has been stored already: a second [addCommitListener]
    with the same callback returns the callback and neither creates nor
    starts a session. *)
Theorem failed_start_keeps_session
    (cb : CommitListener) (targets : list Endorser) (txid : string)
    (n : Network) (e : string) :
  let fresh := {| session_id := nextObject n; listener := cb;
                  peers := targets; transactionId := txid |} in
  commitListeners n !! cb = None →
  start env fresh = {| removes_listener := false; start_error := Some e |} →
  let r := addCommitListener env cb targets txid n in
  r.1 = Abrupt e ∧ commitListeners r.2 !! cb = Some fresh ∧
  ∀ targets' txid',
    addCommitListener env cb targets' txid' r.2 = (Normal cb, r.2).
Proof.
  intros fresh Hnone Hstart r.
  destruct (add_fresh env cb targets txid n Hnone) as [H2 H1].
  fold fresh in H1, H2. fold r in H1, H2. rewrite Hstart in H1, H2.
  simpl in H1, H2.
  assert (Hl : commitListeners r.2 !! cb = Some fresh).
  { rewrite H2. simpl. by rewrite lookup_insert_eq. }
  split; [done|]. split; [done|].
  intros targets' txid'. unfold addCommitListener. by rewrite Hl.
Qed.

(** X18. [removeCommitListener] with a callback that has no session
    changes nothing and closes nothing; so a second
    [removeCommitListener] with the same callback is without effect. *)
Theorem remove_is_idempotent (cb : CommitListener) (n : Network) :
  (commitListeners n !! cb = None → removeCommitListener cb n = n) ∧
  removeCommitListener cb (removeCommitListener cb n) =
    removeCommitListener cb n.
Proof.
  assert (Hnone : ∀ n', commitListeners n' !! cb = None →
                        removeCommitListener cb n' = n').
  { intros n' H. unfold removeCommitListener. by rewrite H. }
  split; [apply Hnone|]. apply Hnone. unfold removeCommitListener.
  destruct (commitListeners n !! cb) eqn:Hl; [|done].
  simpl. by rewrite lookup_delete_eq.
Qed.

(** X19. Adding or removing the listener of one callback leaves the
    session of every other callback in the map as it was. *)
Theorem other_callbacks_untouched
    (cb other : CommitListener) (targets : list Endorser) (txid : string)
    (n : Network) :
  cb ≠ other →
  commitListeners (addCommitListener env cb targets txid n).2 !! other =
    commitListeners n !! other ∧
  commitListeners (removeCommitListener cb n) !! other =
    commitListeners n !! other.
Proof.
  intros Hne.
  assert (Hrm : ∀ n', commitListeners (removeCommitListener cb n') !! other =
                      commitListeners n' !! other).
  { intros n'. unfold removeCommitListener.
    destruct (commitListeners n' !! cb); [|done]. simpl.
    by rewrite lookup_delete_ne. }
  split; [|apply Hrm].
  destruct (commitListeners n !! cb) as [old|] eqn:Hold.
  - unfold addCommitListener. by rewrite Hold.
  - rewrite (proj1 (add_fresh env cb targets txid n Hold)).
    destruct (removes_listener _); [rewrite Hrm|]; simpl;
      by rewrite lookup_insert_ne.
Qed.

End CommitListenerMore.

Lemma commit_listener_map_invariant_witness :
  consistent ready_network ∧
  consistent (addCommitListener lonely 7 [peer1] "tx1" ready_network).2.
Proof.
  split; [exact consistent_ready|].
  exact (proj1 (commit_listener_map_invariant lonely ready_network
                  consistent_ready) 7 [peer1] "tx1").
Defined.

Lemma failed_start_keeps_session_witness :
  let fresh := {| session_id := nextObject ready_network; listener := 7;
                  peers := [peer1]; transactionId := "tx1" |} in
  let r := addCommitListener failing_start 7 [peer1] "tx1" ready_network in
  commitListeners ready_network !! 7 = None ∧
  r.1 = Abrupt "Failed to start" ∧ commitListeners r.2 !! 7 = Some fresh ∧
  ∀ targets' txid',
    addCommitListener failing_start 7 targets' txid' r.2 = (Normal 7, r.2).
Proof.
  intros fresh r. split; [reflexivity|].
  exact (failed_start_keeps_session failing_start 7 [peer1] "tx1" ready_network
           "Failed to start" eq_refl eq_refl).
Defined.

Lemma remove_is_idempotent_witness :
  commitListeners ready_network !! 7 = None ∧
  removeCommitListener 7 ready_network = ready_network.
Proof.
  split; [reflexivity|].
  exact (proj1 (remove_is_idempotent 7 ready_network) eq_refl).
Defined.

Lemma other_callbacks_untouched_witness :
  let n := (addCommitListener lonely 7 [peer1] "tx1" ready_network).2 in
  7 ≠ 8 ∧
  commitListeners (addCommitListener lonely 8 [peer3] "tx2" n).2 !! 7 =
    commitListeners n !! 7 ∧
  commitListeners (removeCommitListener 8 n) !! 7 = commitListeners n !! 7.
Proof.
  intros n. assert (Hne : 8 ≠ 7) by lia. split; [lia|].
  exact (other_callbacks_untouched lonely 8 7 [peer3] "tx2" n Hne).
Defined.

(** ** Contracts when chaincode ids have no colon *)

Lemma cache_ok_getContract chaincode contract_name colls n :
  cache_ok n → no_colon chaincode →
  cache_ok (getContract chaincode contract_name colls n).2.
Proof.
  intros Hn Hc. unfold getContract. destruct (initialized n); [|done].
  destruct (contracts n !! _) eqn:Hk; [done|]. simpl.
  intros key contract Hl. simpl in Hl.
  destruct (decide (key = contract_key chaincode (default "" contract_name)))
    as [->|Hne].
  - rewrite lookup_insert_eq in Hl. inversion Hl; subst contract.
    split; [done|]. split; [done | simpl; lia].
  - rewrite lookup_insert_ne in Hl by done.
    destruct (Hn key contract Hl) as (H1 & H2 & H3).
    split; [done|]. split; [done | simpl; lia].
Qed.

(** X20. As long as every chaincode id has no colon, the cache is
    exact: [getContract] returns a contract of the chaincode id and
    name asked for, this keeps holding, and two calls with different
    pairs of chaincode id and name return different contracts. *)
Theorem colon_free_cache_is_exact
    (chaincode1 chaincode2 : string) (name1 name2 : string)
    (colls1 colls2 : option (list string)) (n : Network) :
  cache_ok n → initialized n = true →
  no_colon chaincode1 → no_colon chaincode2 →
  let first := getContract chaincode1 (Some name1) colls1 n in
  let second := getContract chaincode2 (Some name2) colls2 first.2 in
  cache_ok second.2 ∧
  ∃ c1 c2, first.1 = Normal c1 ∧ second.1 = Normal c2 ∧
    chaincodeId c1 = chaincode1 ∧ namespace c1 = name1 ∧
    chaincodeId c2 = chaincode2 ∧ namespace c2 = name2 ∧
    ((chaincode1, name1) ≠ (chaincode2, name2) → c1 ≠ c2).
Proof.
  intros Hn Hi H1 H2 first second.
  assert (Hret : ∀ chaincode nm colls n',
            cache_ok n' → initialized n' = true → no_colon chaincode →
            ∃ c, (getContract chaincode (Some nm) colls n').1 = Normal c ∧
                 chaincodeId c = chaincode ∧ namespace c = nm ∧
                 initialized (getContract chaincode (Some nm) colls n').2 = true).
  { intros chaincode nm colls n' Hn' Hi' Hc. unfold getContract. rewrite Hi'.
    simpl. destruct (contracts n' !! contract_key chaincode nm) as [c|] eqn:Hk.
    - exists c. split; [done|].
      destruct (Hn' _ _ Hk) as (Hkey & Hcc & _).
      destruct (contract_key_inj _ _ _ _ Hc Hcc Hkey) as [-> ->]. done.
    - eexists. split; [done|]. done. }
  pose proof (cache_ok_getContract chaincode1 (Some name1) colls1 n Hn H1) as Hn1.
  fold first in Hn1.
  destruct (Hret chaincode1 name1 colls1 n Hn Hi H1) as (c1 & R1 & A1 & B1 & Hi1).
  fold first in R1, Hi1.
  destruct (Hret chaincode2 name2 colls2 first.2 Hn1 Hi1 H2)
    as (c2 & R2 & A2 & B2 & _).
  fold second in R2.
  split; [by apply cache_ok_getContract|].
  exists c1, c2. repeat split; try done.
  intros Hne Heq. apply Hne. congruence.
Qed.

Lemma cache_ok_ready : cache_ok ready_network.
Proof.
  intros key contract H.
  assert (contracts ready_network = ∅) as E by reflexivity.
  rewrite E in H. by rewrite lookup_empty in H.
Qed.

Lemma colon_free_cache_is_exact_witness :
  let first := getContract "basic" (Some "a:b") None ready_network in
  let second := getContract "basic" (Some "a") None first.2 in
  cache_ok ready_network ∧ initialized ready_network = true ∧
  no_colon "basic" ∧
  cache_ok second.2 ∧
  ∃ c1 c2, first.1 = Normal c1 ∧ second.1 = Normal c2 ∧
    chaincodeId c1 = "basic" ∧ namespace c1 = "a:b" ∧
    chaincodeId c2 = "basic" ∧ namespace c2 = "a" ∧
    (("basic", "a:b") ≠ ("basic", "a") → c1 ≠ c2).
Proof.
  intros first second.
  assert (Hc : no_colon "basic") by (by repeat split).
  split; [exact cache_ok_ready|]. split; [reflexivity|]. split; [exact Hc|].
  exact (colon_free_cache_is_exact "basic" "basic" "a:b" "a" None None
           ready_network cache_ok_ready eq_refl Hc Hc).
Defined.

End NetworkProofs.

(** ** Facts about block listeners and disposal *)

Module LifecycleProofs.

Import Network Lifecycle.

(** ** Block listeners and disposal *)

Lemma map_set_fresh key value m :
  Forall (λ entry : nat * BlockEventListener, entry.1 < key) m →
  map_set key value m = m ++ [(key, value)].
Proof.
  induction 1 as [|[k v] rest Hk _ IH]; simpl; [done|].
  simpl in Hk. destruct (decide (k = key)); [lia|]. by rewrite IH.
Qed.

(** The calls that [_dispose] makes on the listeners. *)
Lemma unregister_all_ok env entries : ∀ made,
  Forall (λ entry, unregister_error env entry.2 = None) entries →
  unregister_all env entries made =
    (Normal tt,
     made ++ ((λ entry, ListenerUnregister (listener_id entry.2)) <$> entries)).
Proof.
  induction entries as [|[k l] rest IH]; intros made Hok; simpl.
  - by rewrite app_nil_r.
  - apply Forall_cons in Hok as [Hl Hrest]. simpl in Hl.
    rewrite Hl, (IH _ Hrest). by rewrite <- app_assoc.
Qed.

Lemma unregister_all_fails env before k l after e : ∀ made,
  Forall (λ entry, unregister_error env entry.2 = None) before →
  unregister_error env l = Some e →
  unregister_all env (before ++ (k, l) :: after) made =
    (Abrupt e,
     made ++ ((λ entry, ListenerUnregister (listener_id entry.2)) <$> before) ++
     [ListenerUnregister (listener_id l)]).
Proof.
  induction before as [|[k0 l0] rest IH]; intros made Hok Hfail; simpl.
  - by rewrite Hfail.
  - apply Forall_cons in Hok as [Hl Hrest]. simpl in Hl.
    rewrite Hl, (IH _ Hrest Hfail). by rewrite <- app_assoc.
Qed.

Section LifecycleFacts.

Variable env : ListenerCollaborators.

(** X21. [addBlockListener] never recognises a callback: every call
    creates a new listener and appends it to the map under its own
    name, also when the same callback was added before. The listener is
    saved before it is registered, so it stays in the map when
    [register] rejects. *)
Theorem block_listener_always_saved
    (callback : nat) (options : option EventListenerOptions)
    (service : option string) (m : Managed) :
  names_allocated m →
  let r := addBlockListener env callback options service m in
  let l := {| listener_id := nextObject (network m);
              block_callback := callback;
              block_options := default no_options options;
              eventService := service |} in
  listeners r.2 = listeners m ++ [(listener_id l, l)] ∧
  lifecycle r.2 = lifecycle m ++ [ListenerRegister (listener_id l)] ∧
  r.1 = match register_error env l with
        | Some e => Abrupt e
        | None => Normal l
        end ∧
  names_allocated r.2.
Proof.
  intros Hm r l.
  assert (Hl : listeners r.2 = listeners m ++ [(listener_id l, l)]).
  { subst r. unfold addBlockListener. fold l.
    destruct (register_error env l); simpl; by rewrite map_set_fresh. }
  split; [done|]. split; [|split].
  - subst r. unfold addBlockListener. fold l.
    by destruct (register_error env l).
  - subst r. unfold addBlockListener. fold l.
    by destruct (register_error env l).
  - unfold names_allocated. rewrite Hl.
    assert (Hn : nextObject (network r.2) = S (nextObject (network m))).
    { subst r. unfold addBlockListener. fold l.
      by destruct (register_error env l). }
    rewrite Hn. apply Forall_app. split.
    + eapply Forall_impl; [exact Hm|]. intros entry He. simpl in He. lia.
    + apply Forall_singleton. simpl. lia.
Qed.

(** X22. When no [unregister] throws and the network has been
    initialised, [_dispose] returns after unregistering every saved
    listener in the order of the map, disposing of the event-service
    manager and closing the channel. Afterwards the contract cache is
    empty, the network is not initialised and [getContract] throws.
    The map of listeners and the commit-listener map are as they
    were: no commit-listener session is closed. *)
Theorem dispose_tears_down (m : Managed) :
  eventServiceManager (network m) = true →
  Forall (λ entry, unregister_error env entry.2 = None) (listeners m) →
  let r := _dispose env m in
  r.1 = Normal tt ∧
  lifecycle r.2 =
    lifecycle m ++
    ((λ entry, ListenerUnregister (listener_id entry.2)) <$> listeners m) ++
    [ManagerDispose; ChannelClose] ∧
  contracts (network r.2) = ∅ ∧ initialized (network r.2) = false ∧
  listeners r.2 = listeners m ∧
  commitListeners (network r.2) = commitListeners (network m) ∧
  calls (network r.2) = calls (network m) ∧
  ∀ chaincode contract_name colls,
    getContract chaincode contract_name colls (network r.2) =
      (Abrupt "Unable to get contract as this network has failed to initialize",
       network r.2).
Proof.
  intros Hmgr Hok r. subst r. unfold _dispose.
  rewrite (unregister_all_ok env _ _ Hok), Hmgr. simpl.
  repeat split; try done. by rewrite <- app_assoc.
Qed.

(** X23. On a network that was never initialised the event-service
    manager is [null]: [_dispose] throws a type error after it has
    unregistered the listeners and emptied the contract cache, and the
    channel is not closed. *)
Theorem dispose_before_initialize_throws (m : Managed) :
  eventServiceManager (network m) = false →
  Forall (λ entry, unregister_error env entry.2 = None) (listeners m) →
  let r := _dispose env m in
  (∃ e, r.1 = Abrupt e) ∧
  lifecycle r.2 =
    lifecycle m ++
    ((λ entry, ListenerUnregister (listener_id entry.2)) <$> listeners m) ∧
  contracts (network r.2) = ∅ ∧
  initialized (network r.2) = initialized (network m).
Proof.
  intros Hmgr Hok r. subst r. unfold _dispose.
  rewrite (unregister_all_ok env _ _ Hok), Hmgr. simpl.
  split; [by eexists | done].
Qed.

(** X24. When the [unregister] of a saved listener throws, [_dispose]
    throws that error at once: the listeners after it are not
    unregistered, the contract cache and the initialised flag stay as
    they are, and nothing is disposed of or closed. *)
Theorem dispose_stops_at_failing_listener
    (m : Managed) (before : list (nat * BlockEventListener)) (k : nat)
    (l : BlockEventListener) (after : list (nat * BlockEventListener))
    (e : string) :
  listeners m = before ++ (k, l) :: after →
  Forall (λ entry, unregister_error env entry.2 = None) before →
  unregister_error env l = Some e →
  let r := _dispose env m in
  r.1 = Abrupt e ∧ network r.2 = network m ∧ listeners r.2 = listeners m ∧
  lifecycle r.2 =
    lifecycle m ++
    ((λ entry, ListenerUnregister (listener_id entry.2)) <$> before) ++
    [ListenerUnregister (listener_id l)].
Proof.
  intros Hl Hok Hfail r. subst r. unfold _dispose.
  by rewrite Hl, (unregister_all_fails env before k l after e _ Hok Hfail).
Qed.

End LifecycleFacts.

Lemma block_listener_always_saved_witness :
  let first := addBlockListener stubborn 2 None None (manage ready_network) in
  let second := addBlockListener stubborn 2 None (Some "peer0") first.2 in
  names_allocated (manage ready_network) ∧
  first.1 = Abrupt "Failed to register" ∧
  listener_id <$> (snd <$> listeners second.2) = [0; 1] ∧
  names_allocated second.2.
Proof.
  intros first second.
  assert (H0 : names_allocated (manage ready_network)) by constructor.
  destruct (block_listener_always_saved stubborn 2 None None
              (manage ready_network) H0) as (L1 & _ & R1 & A1).
  fold first in L1, R1, A1.
  destruct (block_listener_always_saved stubborn 2 None (Some "peer0")
              first.2 A1) as (L2 & _ & _ & A2).
  fold second in L2, A2.
  split; [exact H0|]. split; [exact R1|]. split; [|exact A2].
  rewrite L2, L1. reflexivity.
Defined.

Lemma dispose_tears_down_witness :
  let m := (addBlockListener obliging 1 None None (manage ready_network)).2 in
  let r := _dispose obliging m in
  eventServiceManager (network m) = true ∧
  r.1 = Normal tt ∧
  lifecycle r.2 =
    [ListenerRegister 0; ListenerUnregister 0; ManagerDispose; ChannelClose] ∧
  initialized (network r.2) = false.
Proof.
  intros m r. split; [reflexivity|].
  destruct (dispose_tears_down obliging m eq_refl) as (H1 & H2 & _ & H4 & _).
  { by repeat constructor. }
  split; [exact H1|]. split; [exact H2 | exact H4].
Defined.

Lemma dispose_before_initialize_throws_witness :
  let r := _dispose obliging (manage new_Network) in
  eventServiceManager new_Network = false ∧
  (∃ e, r.1 = Abrupt e) ∧
  lifecycle r.2 = [] ∧ contracts (network r.2) = ∅ ∧
  initialized (network r.2) = false.
Proof.
  intros r. split; [reflexivity|].
  exact (dispose_before_initialize_throws obliging (manage new_Network)
           eq_refl (Forall_nil_2 _)).
Defined.

Lemma dispose_stops_at_failing_listener_witness :
  let m1 := (addBlockListener stubborn 3 None None (manage ready_network)).2 in
  let m := (addBlockListener stubborn 1 None None m1).2 in
  let r := _dispose stubborn m in
  r.1 = Abrupt "Failed to unregister" ∧ network r.2 = network m ∧
  listeners r.2 = listeners m ∧
  lifecycle r.2 = lifecycle m ++ [] ++ [ListenerUnregister 0].
Proof.
  intros m1 m r.
  exact (dispose_stops_at_failing_listener stubborn m [] 0
           {| listener_id := 0; block_callback := 3;
              block_options := no_options; eventService := None |}
           [(1, {| listener_id := 1; block_callback := 1;
                   block_options := no_options; eventService := None |})]
           "Failed to unregister" eq_refl (Forall_nil_2 _) eq_refl).
Defined.

End LifecycleProofs.
